(** * A shallow embedding of [src/redblacktree.py]

    The Python module keeps its nodes as heap objects linked by [_left],
    [_right] and [_parent] references, with one shared sentinel object
    [RedBlackTree.NIL_NODE].  The embedding keeps that shape: a store of
    node records addressed by references, the tree's [_root] reference,
    and every method as a computation in a state-and-exception monad.
    Recursive methods take a [fuel] bound that stands for Python's call
    stack. *)

From Stdlib Require Import ZArith Lia Bool.
From stdpp Require Import base decidable option list sorting.

Set Default Proof Using "Type".
Open Scope Z_scope.

(** ** Enumerations *)

Inductive RBColorEnum := black | NIL | RED.
Inductive RBDirectionEnum := LEFT | RIGHT.

#[global] Instance RBColorEnum_eq_dec : EqDecision RBColorEnum.
Proof. solve_decision. Defined.
#[global] Instance RBDirectionEnum_eq_dec : EqDecision RBDirectionEnum.
Proof. solve_decision. Defined.

(** References to node objects.  Python's [None] is [None : option ref]. *)
Definition ref := nat.

(** The exceptions the module can raise: the interpreter's own errors and
    the [raise Exception(...)] sites, told apart by their message.  (The
    one in [try_rebalance] sits behind four comparisons that cover every
    pair of directions, so it has no constructor.) *)
Inductive message (K : Type) :=
| CouldNotValidateKey (key : K)
| UnexpectedBehavior
| RedChildCannotHaveChildren
| ShouldHaveEndedHere.
Arguments CouldNotValidateKey {K} key.
Arguments UnexpectedBehavior {K}.
Arguments RedChildCannotHaveChildren {K}.
Arguments ShouldHaveEndedHere {K}.

Inductive exn (K : Type) :=
| AttributeError
| TypeError
| ValueError
| Exception (msg : message K).
Arguments AttributeError {K}.
Arguments TypeError {K}.
Arguments ValueError {K}.
Arguments Exception {K} msg.

(** The three pluggable functions of the constructor. *)
Class KeyFunctions (K : Type) := {
  _key_comparator_function : K -> K -> bool;
  _key_equals_function : K -> K -> bool;
  _key_validator_function : K -> bool
}.

Section Tree.

Context {K V : Type} `{EqDecision K} `{EqDecision V} `{KeyFunctions K}.

(** ** RBNode

    [_key] and the elements of [_values] may be Python's [None] (the
    sentinel is built with [key=None, value=None]). *)
Record RBNode := mkRBNode {
  _key : option K;
  _values : list (option V);
  _color : RBColorEnum;
  _parent : option ref;
  _left : option ref;
  _right : option ref
}.

(** [RBNode(key, value, color, parent, left, right)] *)
Definition RBNode__init__ (key : option K) (value : option V)
    (color : RBColorEnum) (parent left right : option ref) : RBNode :=
  mkRBNode key ([] ++ [value]) color parent left right.

(** The object built by the class attribute
    [NIL_NODE = RBNode(key=None, value=None, color=NIL, parent=None)]. *)
Definition NIL_NODE_object : RBNode :=
  RBNode__init__ None None NIL None None None.

#[local] Instance RBNode_inhabited : Inhabited RBNode :=
  populate NIL_NODE_object.

(** ** The store: node objects and the tree's [_root] attribute.
    The sentinel lives at reference [NIL_NODE]. *)
Record state := mkState {
  heap : list RBNode;
  _root : option ref
}.

Definition NIL_NODE : ref := 0%nat.

(** [RedBlackTree()] *)
Definition RedBlackTree__init__ : state := mkState [NIL_NODE_object] None.

(** ** The monad *)

Inductive result (A : Type) :=
| Ok (a : A) (s : state)
| Raise (e : exn K) (s : state)
| OutOfFuel.
Arguments Ok {A} a s.
Arguments Raise {A} e s.
Arguments OutOfFuel {A}.

Definition M (A : Type) := state -> result A.

Definition ret {A} (a : A) : M A := fun s => Ok a s.
Definition raise {A} (e : exn K) : M A := fun s => Raise e s.
Definition out_of_fuel {A} : M A := fun _ => OutOfFuel.
Definition bind {A B} (m : M A) (k : A -> M B) : M B :=
  fun s => match m s with
           | Ok a s' => k a s'
           | Raise e s' => Raise e s'
           | OutOfFuel => OutOfFuel
           end.

Notation "x <- c ;; k" := (bind c (fun x => k))
  (at level 100, c at next level, right associativity).
Notation "'let*' p := c 'in' k" := (bind c (fun x => let p := x in k))
  (at level 100, p pattern, c at next level, right associativity).
Notation "c ;;; k" := (bind c (fun _ => k))
  (at level 100, right associativity).

(** The object a reference denotes.  References come from [new] only,
    so they always lie in the store; the lookup is total. *)
Definition deref (s : state) (r : ref) : RBNode := heap s !!! r.

(** [o.attr]: an attribute read; on [None] it raises AttributeError. *)
Definition attr {A} (f : RBNode -> A) (o : option ref) : M A :=
  match o with
  | None => raise AttributeError
  | Some r => fun s => Ok (f (deref s r)) s
  end.

(** [o.attr = v]: an attribute write. *)
Definition setattr (f : RBNode -> RBNode) (o : option ref) : M unit :=
  match o with
  | None => raise AttributeError
  | Some r => fun s => Ok tt (mkState (alter f r (heap s)) (_root s))
  end.

Definition set_key v := setattr (fun n =>
  mkRBNode v (_values n) (_color n) (_parent n) (_left n) (_right n)).
Definition set_values v := setattr (fun n =>
  mkRBNode (_key n) v (_color n) (_parent n) (_left n) (_right n)).
Definition set_color v := setattr (fun n =>
  mkRBNode (_key n) (_values n) v (_parent n) (_left n) (_right n)).
Definition set_parent v := setattr (fun n =>
  mkRBNode (_key n) (_values n) (_color n) v (_left n) (_right n)).
Definition set_left v := setattr (fun n =>
  mkRBNode (_key n) (_values n) (_color n) (_parent n) v (_right n)).
Definition set_right v := setattr (fun n =>
  mkRBNode (_key n) (_values n) (_color n) (_parent n) (_left n) v).

Definition get_root : M (option ref) := fun s => Ok (_root s) s.
Definition set_root (v : option ref) : M unit :=
  fun s => Ok tt (mkState (heap s) v).

(** A constructor call: the new object gets a fresh reference. *)
Definition new (n : RBNode) : M (option ref) :=
  fun s => Ok (Some (length (heap s))) (mkState (heap s ++ [n]) (_root s)).

(** A user function applied to a node's [_key].  Keys of real nodes are
    always of type [K]; on [None] the default comparator fails with
    TypeError. *)
Definition with_key {A} (o : option K) (f : K -> M A) : M A :=
  match o with
  | Some k => f k
  | None => raise TypeError
  end.

(** ** RBNode.__eq__ and Python's [==] on node references *)

Definition RBNode__eq__ (s : state) (self other : ref) : bool :=
  let a := deref s self in
  let b := deref s other in
  if bool_decide (_color a = NIL) && bool_decide (_color a = _color b)
  then true
  else
    let parents_are_same :=
      match _parent a, _parent b with
      | Some p, Some q =>
          bool_decide (_key (deref s p) = _key (deref s q)) &&
          bool_decide (_color (deref s p) = _color (deref s q))
      | sp, op => bool_decide (sp = None) && bool_decide (op = None)
      end in
    bool_decide (_key a = _key b) &&
    bool_decide (_color a = _color b) &&
    parents_are_same.

(** [a == b] for operands that are a node or [None]: two nodes go through
    [__eq__]; against [None] both sides answer NotImplemented and the
    interpreter falls back on identity. *)
Definition py_eq (a b : option ref) : M bool :=
  fun s => Ok (match a, b with
               | Some x, Some y => RBNode__eq__ s x y
               | None, None => true
               | _, _ => false
               end) s.

Definition py_ne (a b : option ref) : M bool :=
  e <- py_eq a b ;; ret (negb e).

(** ** RBNode methods *)

(** What [__repr__] shows of a node: colour, key and values. *)
Definition RBNode__repr__ (self : option ref)
    : M (RBColorEnum * option K * list (option V)) :=
  c <- attr _color self ;;
  k <- attr _key self ;;
  v <- attr _values self ;;
  ret (c, k, v).

(** [RBNode.__iter__] is a generator.  [RBNode__iter__ fuel want self]
    is the list of the first [want] items it yields: the consumer pulls
    item after item and the generator's body runs no further than the
    last item asked for. *)
Fixpoint RBNode__iter__ (fuel : nat) (want : nat) (self : option ref)
    : M (list (RBColorEnum * option K * list (option V))) :=
  match fuel with
  | O => out_of_fuel
  | S fuel =>
      if (want =? 0)%nat then ret [] else
      l <- attr _left self ;;
      lc <- attr _color l ;;
      xs <- (if bool_decide (lc <> NIL)
             then RBNode__iter__ fuel want l else ret []) ;;
      if (want <=? length xs)%nat then ret xs else
      me <- RBNode__repr__ self ;;
      let xs := xs ++ [me] in
      if (want <=? length xs)%nat then ret xs else
      r <- attr _right self ;;
      rc <- attr _color r ;;
      ys <- (if bool_decide (rc <> NIL)
             then RBNode__iter__ fuel (want - length xs) r else ret []) ;;
      ret (xs ++ ys)
  end.

Definition get_children_count (self : option ref) : M Z :=
  c <- attr _color self ;;
  if bool_decide (c = NIL) then ret 0 else
  l <- attr _left self ;;
  lc <- attr _color l ;;
  r <- attr _right self ;;
  rc <- attr _color r ;;
  ret (Z.b2z (bool_decide (lc <> NIL)) + Z.b2z (bool_decide (rc <> NIL))).

Definition has_children (self : option ref) : M bool :=
  n <- get_children_count self ;; ret (negb (n =? 0)).

(** ** RedBlackTree: lookup *)

(** What [find_node] can return: a pair, the bare sentinel object (on an
    empty tree), or nothing at all when [inner_find] falls off its last
    [elif]. *)
Inductive find_result :=
| FTuple (node : option ref) (dir : option RBDirectionEnum)
| FNode (node : ref)
| FNone.

Fixpoint inner_find (fuel : nat) (key : K) (to_nil : bool)
    (node : option ref) : M find_result :=
  match fuel with
  | O => out_of_fuel
  | S fuel =>
      match node with
      | None => ret (FTuple None None)
      | Some _ =>
          is_nil <- py_eq node (Some NIL_NODE) ;;
          if is_nil then ret (FTuple None None) else
          nk <- attr _key node ;;
          with_key nk (fun nk =>
          if _key_equals_function key nk then ret (FTuple node None)
          else if negb (_key_comparator_function key nk) then
            r <- attr _right node ;;
            at_nil <- (if to_nil then py_eq r (Some NIL_NODE)
                       else ret false) ;;
            if at_nil then ret (FTuple node (Some RIGHT))
            else inner_find fuel key to_nil r
          else if _key_comparator_function key nk then
            l <- attr _left node ;;
            at_nil <- (if to_nil then py_eq l (Some NIL_NODE)
                       else ret false) ;;
            if at_nil then ret (FTuple node (Some LEFT))
            else inner_find fuel key to_nil l
          else ret FNone)
      end
  end.

Definition find_node (fuel : nat) (key : K) (to_nil : bool)
    : M find_result :=
  root <- get_root ;;
  match root with
  | Some _ => inner_find fuel key to_nil root
  | None => ret (FNode NIL_NODE)
  end.

(** [find_node(key)[0]]: subscripting.  A node object has no
    [__getitem__], so subscripting one is a TypeError, as is
    subscripting [None]. *)
Definition subscript0 (r : find_result) : M (option ref) :=
  match r with
  | FTuple node _ => ret node
  | FNode _ => raise TypeError
  | FNone => raise TypeError
  end.

(** [a, b = find_node(...)]: unpacking.  A pair unpacks; [None] is a
    TypeError; a node object is iterated through [__iter__], which must
    yield exactly two items (they would be two [repr]s, the [inr]
    case). *)
Definition unpack2 (fuel : nat) (r : find_result)
    : M (option ref * option RBDirectionEnum + unit) :=
  match r with
  | FTuple node dir => ret (inl (node, dir))
  | FNone => raise TypeError
  | FNode n =>
      items <- RBNode__iter__ fuel 3 (Some n) ;;
      if (length items =? 2)%nat then ret (inr tt) else raise ValueError
  end.

Definition contains (fuel : nat) (key : K) : M bool :=
  r <- find_node fuel key false ;;
  n <- subscript0 r ;;
  ret (bool_decide (n <> None)).

Definition __contains__ := contains.

Definition __getitem__ (fuel : nat) (key : K) : M (option ref) :=
  r <- find_node fuel key false ;; subscript0 r.

(** ** Navigation helpers *)

Definition get_child_node (node : option ref) : M (option ref) :=
  l <- attr _left node ;;
  b <- py_ne l (Some NIL_NODE) ;;
  if b then attr _left node else attr _right node.

Definition get_parent_node (node : option ref) : M (option ref) :=
  match node with
  | None => ret None
  | Some _ => attr _parent node
  end.

Definition get_grandparent_node (node : option ref) : M (option ref) :=
  p <- get_parent_node node ;; get_parent_node p.

Fixpoint get_maximum_node (fuel : nat) (node : option ref)
    : M (option ref) :=
  match fuel with
  | O => out_of_fuel
  | S fuel =>
      r <- attr _right node ;;
      b <- py_ne r (Some NIL_NODE) ;;
      if b then r <- attr _right node ;; get_maximum_node fuel r
      else ret node
  end.

Fixpoint get_minimum_node (fuel : nat) (node : option ref)
    : M (option ref) :=
  match fuel with
  | O => out_of_fuel
  | S fuel =>
      l <- attr _left node ;;
      b <- py_ne l (Some NIL_NODE) ;;
      if b then l <- attr _left node ;; get_minimum_node fuel l
      else ret node
  end.

Definition get_node_color (node : option ref) : M RBColorEnum :=
  match node with
  | Some _ => attr _color node
  | None => ret NIL
  end.

(** Returns a pair, or [None] when the node has no parent. *)
Definition get_sibling_node (node : option ref)
    : M (option (option ref * RBDirectionEnum)) :=
  parent_node <- get_parent_node node ;;
  match parent_node with
  | Some _ =>
      l <- attr _left parent_node ;;
      b <- py_eq l node ;;
      if b then r <- attr _right parent_node ;; ret (Some (r, RIGHT))
      else l <- attr _left parent_node ;; ret (Some (l, LEFT))
  | None => ret None
  end.

(** Unpacking or subscripting the result of [get_sibling_node]: on
    [None] a TypeError. *)
Definition sibling_pair (r : option (option ref * RBDirectionEnum))
    : M (option ref * RBDirectionEnum) :=
  match r with
  | Some p => ret p
  | None => raise TypeError
  end.

Definition get_uncle_node (node : option ref) : M (option ref) :=
  p <- get_parent_node node ;;
  r <- get_sibling_node p ;;
  let* (u, _) := sibling_pair r in
  ret u.

Definition has_sibling_node (node : option ref) : M bool :=
  r <- get_sibling_node node ;;
  let* (sib, _) := sibling_pair r in
  ret (bool_decide (sib <> None)).

(** ** Colour tests.  [all(...)] over a generator stops at the first
    node that fails, so later nodes are not even read. *)
Fixpoint is_node_color (color : RBColorEnum)
    (op : RBColorEnum -> RBColorEnum -> bool)
    (nodes : list (option ref)) : M bool :=
  match nodes with
  | [] => ret true
  | node :: nodes =>
      c <- attr _color node ;;
      if op color c then is_node_color color op nodes else ret false
  end.

Definition operator_eq (a b : RBColorEnum) : bool := bool_decide (a = b).
Definition operator_ne (a b : RBColorEnum) : bool := bool_decide (a <> b).

Definition is_node_black := is_node_color black operator_eq.
Definition is_node_red := is_node_color RED operator_eq.
Definition is_node_not_red := is_node_color RED operator_ne.

(** Python's short-circuit [and] / [or] on effectful operands. *)
Definition and_ (a b : M bool) : M bool :=
  x <- a ;; if x then b else ret false.
Definition or_ (a b : M bool) : M bool :=
  x <- a ;; if x then ret true else b.

Definition node_comparator (node_one node_two : option ref) : M bool :=
  k1 <- attr _key node_one ;;
  k2 <- attr _key node_two ;;
  with_key k1 (fun k1 => with_key k2 (fun k2 =>
    ret (_key_comparator_function k1 k2))).

(** ** Traversal and validation *)

(** One entry of [in_order]: [[key, values, parent, color]]. *)
Definition row : Type :=
  option K * list (option V) * option ref * RBColorEnum.

Fixpoint in_order (fuel : nat) (node : option ref) : M (list row) :=
  match fuel with
  | O => out_of_fuel
  | S fuel =>
      match node with
      | Some _ =>
          l <- attr _left node ;;
          ls <- in_order fuel l ;;
          k <- attr _key node ;;
          v <- attr _values node ;;
          p <- attr _parent node ;;
          c <- attr _color node ;;
          r <- attr _right node ;;
          rs <- in_order fuel r ;;
          ret (ls ++ [(k, v, p, c)] ++ rs)
      | None => ret []
      end
  end.

(** [RedBlackTree.__iter__], as the first [want] items it yields. *)
Definition RedBlackTree__iter__ (fuel want : nat)
    : M (list (RBColorEnum * option K * list (option V))) :=
  root <- get_root ;;
  match root with
  | None => ret []
  | Some _ => RBNode__iter__ fuel want root
  end.

(** What [is_set_correctly] returns: the two early exits and the base
    case return a pair; the last [return] statement ends in a comma
    after [all([...])], so it returns a tuple of length one (the sum on
    the following line is a statement of its own, never reached). *)
Inductive check_result :=
| Tuple1 (ok : bool)
| Tuple2 (ok : bool) (count : Z).

(** [a, b = ...] on such a tuple. *)
Definition unpack_check (r : check_result) : M (bool * Z) :=
  match r with
  | Tuple2 ok n => ret (ok, n)
  | Tuple1 _ => raise ValueError
  end.

(** [x and is_node_red(x)] for a child [x]: a missing child is falsy. *)
Definition child_is_red (child : option ref) : M bool :=
  match child with
  | None => ret false
  | Some _ => is_node_red [child]
  end.

Fixpoint is_set_correctly (fuel : nat) (node : option ref)
    : M check_result :=
  match fuel with
  | O => out_of_fuel
  | S fuel =>
      match node with
      | None => ret (Tuple2 true 1)
      | Some _ =>
          p <- get_parent_node node ;;
          red_root <- and_ (ret (bool_decide (p = None)))
                           (is_node_red [node]) ;;
          if red_root then ret (Tuple2 false 0) else
          red <- is_node_red [node] ;;
          red_red <- (if red
                      then or_ (l <- attr _left node ;; child_is_red l)
                               (r <- attr _right node ;; child_is_red r)
                      else ret false) ;;
          if red_red then ret (Tuple2 false (-1)) else
          let green_count := if red then 0 else 1 in
          r <- attr _right node ;;
          rr <- is_set_correctly fuel r ;;
          let* (right_ok, green_count_right) := unpack_check rr in
          l <- attr _left node ;;
          lr <- is_set_correctly fuel l ;;
          let* (left_ok, green_count_left) := unpack_check lr in
          ret (Tuple1 (right_ok && left_ok &&
                       (green_count_right =? green_count_left)))
      end
  end.

(** ** Rotation *)

Definition __update_parent (node old_child_node new_parent_node : option ref)
    : M unit :=
  set_parent new_parent_node node ;;;
  match new_parent_node with
  | Some _ =>
      lt <- node_comparator old_child_node new_parent_node ;;
      if lt then set_left node new_parent_node
      else set_right node new_parent_node
  | None => set_root node
  end.

Definition rotate (direction : RBDirectionEnum)
    (node parent_node grandparent_node : option ref) (to_recolor : bool)
    : M unit :=
  great_grandparent_node <- get_parent_node grandparent_node ;;
  __update_parent parent_node grandparent_node great_grandparent_node ;;;
  stored_node <-
    (match direction with
     | LEFT =>
         stored_node <- attr _left parent_node ;;
         set_left grandparent_node parent_node ;;;
         set_right stored_node grandparent_node ;;;
         ret stored_node
     | RIGHT =>
         stored_node <- attr _right parent_node ;;
         set_right grandparent_node parent_node ;;;
         set_left stored_node grandparent_node ;;;
         ret stored_node
     end) ;;
  set_parent parent_node grandparent_node ;;;
  set_parent grandparent_node stored_node ;;;
  if to_recolor then
    set_color black parent_node ;;;
    set_color RED node ;;;
    set_color RED grandparent_node
  else ret tt.

(** ** Insertion *)

Definition validate_key (key : K) : M bool :=
  if negb (_key_validator_function key)
  then raise (Exception (CouldNotValidateKey key))
  else ret true.

(** [__recolor] and [try_rebalance] call each other; [__recolor] takes
    the recursive call as an argument. *)
Definition __recolor (try_rebalance : option ref -> M unit)
    (grandparent : option ref) : M unit :=
  r <- attr _right grandparent ;;
  set_color black r ;;;
  l <- attr _left grandparent ;;
  set_color black l ;;;
  root <- get_root ;;
  not_root <- py_ne grandparent root ;;
  (if not_root then set_color RED grandparent else ret tt) ;;;
  try_rebalance grandparent.

Fixpoint try_rebalance (fuel : nat) (node : option ref) : M unit :=
  match fuel with
  | O => out_of_fuel
  | S fuel =>
      parent_node <- get_parent_node node ;;
      grandparent_node <- get_parent_node parent_node ;;
      stop <- or_ (ret (bool_decide (parent_node = None)))
             (or_ (ret (bool_decide (grandparent_node = None)))
             (or_ (is_node_not_red [node])
                  (is_node_not_red [parent_node]))) ;;
      if stop then ret tt else
      lt <- node_comparator node parent_node ;;
      let node_dir := if lt then LEFT else RIGHT in
      lt <- node_comparator parent_node grandparent_node ;;
      let parent_node_dir := if lt then LEFT else RIGHT in
      uncle_node <- get_uncle_node node ;;
      not_red <- is_node_not_red [uncle_node] ;;
      if not_red then
        match node_dir, parent_node_dir with
        | LEFT, LEFT =>
            rotate RIGHT node parent_node grandparent_node true
        | RIGHT, RIGHT =>
            rotate LEFT node parent_node grandparent_node true
        | LEFT, RIGHT =>
            rotate RIGHT None node parent_node false ;;;
            rotate LEFT parent_node node grandparent_node true
        | RIGHT, LEFT =>
            rotate LEFT None node parent_node false ;;;
            rotate RIGHT parent_node node grandparent_node true
        end
      else __recolor (try_rebalance fuel) grandparent_node
  end.

Definition add (fuel : nat) (key : K) (value : option V) : M unit :=
  valid <- validate_key key ;;
  if negb valid then ret tt else
  root <- get_root ;;
  match root with
  | None =>
      n <- new (RBNode__init__ (Some key) value black None
                  (Some NIL_NODE) (Some NIL_NODE)) ;;
      set_root n
  | Some _ =>
      found <- find_node fuel key true ;;
      pair <- unpack2 fuel found ;;
      match pair with
      | inl (None, _) => ret tt
      | inl (Some parent, None) =>
          vs <- attr _values (Some parent) ;;
          set_values (vs ++ [value]) (Some parent)
      | inl (Some parent, Some node_dir) =>
          new_node <- new (RBNode__init__ (Some key) value RED
                             (Some parent) (Some NIL_NODE)
                             (Some NIL_NODE)) ;;
          (if bool_decide (node_dir = LEFT)
           then set_left new_node (Some parent)
           else set_right new_node (Some parent)) ;;;
          try_rebalance fuel new_node
      | inr _ =>
          (* two strings were unpacked (not reached: with a root,
             [find_node] never returns the bare sentinel); the attribute
             write on a string fails *)
          raise AttributeError
      end
  end.

Definition __setitem__ := add.

(** ** Deletion *)

Definition __remove_leaf (node : option ref) : M unit :=
  parent_node <- get_parent_node node ;;
  nk <- attr _key node ;;
  pk <- attr _key parent_node ;;
  with_key nk (fun nk => with_key pk (fun pk =>
    if negb (_key_comparator_function nk pk) || _key_equals_function nk pk
    then set_right (Some NIL_NODE) parent_node
    else set_left (Some NIL_NODE) parent_node)).

(** [RBColorEnum.<member>._color]: an enum member has no such
    attribute. *)
Definition enum_member_color {A} (member : RBColorEnum) : M A :=
  raise AttributeError.

(** The inner function of [__case_6].  Its first line binds
    [parent_node] to the parent's colour, not to the parent, so its
    second line reads [_color] of an enum member; the rotation and the
    three recolourings after it are never run. *)
Definition __case_6_rotation (sibling_node : option ref)
    (direction : RBDirectionEnum) : M unit :=
  sibling_parent <- get_parent_node sibling_node ;;
  parent_node <- attr _color sibling_parent ;;
  enum_member_color parent_node.

Definition __case_6 (node : option ref) : M unit :=
  r <- get_sibling_node node ;;
  let* (sibling_node, direction) := sibling_pair r in
  outer_node <- (if bool_decide (direction = LEFT)
                 then attr _left sibling_node
                 else attr _right sibling_node) ;;
  c <- and_ (is_node_black [sibling_node]) (is_node_red [outer_node]) ;;
  if c then __case_6_rotation sibling_node direction
  else raise (Exception ShouldHaveEndedHere).

Definition __case_5 (node : option ref) : M unit :=
  r <- get_sibling_node node ;;
  let* (sibling_node, direction) := sibling_pair r in
  closer_node <- (if bool_decide (direction = LEFT)
                  then attr _right sibling_node
                  else attr _left sibling_node) ;;
  outer_node <- (if bool_decide (direction = LEFT)
                 then attr _left sibling_node
                 else attr _right sibling_node) ;;
  c <- and_ (is_node_red [closer_node])
      (and_ (is_node_not_red [outer_node])
            (is_node_black [sibling_node])) ;;
  (if c then
     rotate direction None closer_node sibling_node false ;;;
     set_color black closer_node ;;;
     set_color RED sibling_node
   else ret tt) ;;;
  __case_6 node.

(** [is_node_not_red(sibling._left, sibling._right)] *)
Definition children_not_red (sibling_node : option ref) : M bool :=
  l <- attr _left sibling_node ;;
  r <- attr _right sibling_node ;;
  is_node_not_red [l; r].

Definition __case_4 (node : option ref) : M unit :=
  parent_node <- get_parent_node node ;;
  parent_red <- is_node_red [parent_node] ;;
  finished <-
    (if parent_red then
       r <- get_sibling_node node ;;
       let* (sibling_node, _) := sibling_pair r in
       c <- and_ (is_node_black [sibling_node])
                 (children_not_red sibling_node) ;;
       if c then
         sc <- attr _color sibling_node ;;
         pc <- attr _color parent_node ;;
         set_color sc parent_node ;;;
         set_color pc sibling_node ;;;
         ret true
       else ret false
     else ret false) ;;
  if finished then ret tt else __case_5 node.

(** Cases 2 and 3 re-enter case 1; they take it as an argument. *)
Definition __case_3 (__case_1 : option ref -> M unit) (node : option ref)
    : M unit :=
  parent_node <- get_parent_node node ;;
  r <- get_sibling_node node ;;
  let* (sibling_node, _) := sibling_pair r in
  c <- and_ (is_node_black [sibling_node; parent_node])
            (children_not_red sibling_node) ;;
  if c then
    set_color RED sibling_node ;;;
    __case_1 parent_node
  else __case_4 node.

Definition __case_2 (__case_1 : option ref -> M unit) (node : option ref)
    : M unit :=
  parent_node <- get_parent_node node ;;
  r <- get_sibling_node node ;;
  let* (sibling_node, direction) := sibling_pair r in
  c <- and_ (is_node_red [sibling_node])
      (and_ (is_node_black [parent_node])
            (children_not_red sibling_node)) ;;
  if c then
    rotate direction None sibling_node parent_node false ;;;
    set_color RED parent_node ;;;
    set_color black sibling_node ;;;
    __case_1 node
  else __case_3 __case_1 node.

Fixpoint __case_1 (fuel : nat) (node : option ref) : M unit :=
  match fuel with
  | O => out_of_fuel
  | S fuel =>
      root <- get_root ;;
      is_root <- py_eq root node ;;
      if is_root then set_color black node
      else __case_2 (__case_1 fuel) node
  end.

Definition __remove_black_node (fuel : nat) (node : option ref) : M unit :=
  __case_1 fuel node ;;;
  __remove_leaf node.

Definition __remove (fuel : nat) (node : option ref) : M unit :=
  child_node <- get_child_node node ;;
  root <- get_root ;;
  is_root <- py_eq node root ;;
  if is_root then
    has_child <- py_ne child_node (Some NIL_NODE) ;;
    if has_child then
      set_root child_node ;;;
      root <- get_root ;;
      set_parent None root ;;;
      root <- get_root ;;
      set_color black root
    else set_root None
  else
    red <- is_node_red [node] ;;
    if red then
      hc <- has_children node ;;
      if negb hc then __remove_leaf node
      else raise (Exception UnexpectedBehavior)
    else
      left_child_node <- attr _left node ;;
      right_child_node <- attr _right node ;;
      c <- or_ (has_children right_child_node)
               (has_children left_child_node) ;;
      if c then raise (Exception RedChildCannotHaveChildren)
      else
        child_red <- is_node_red [child_node] ;;
        if child_red then
          k <- attr _key child_node ;;
          set_key k node ;;;
          v <- attr _values child_node ;;
          set_values v node ;;;
          l <- attr _left child_node ;;
          set_left l node ;;;
          r <- attr _right child_node ;;
          set_right r node
        else __remove_black_node fuel node.

(** [node._values = successor._values] makes the two nodes share one
    list object, while the store keeps every list by value.  When
    [__remove] returns, the successor is unlinked and the node alone
    carries the list in the tree.  When [__remove] raises, both nodes
    stay linked, with the same key and the same list object: a later
    [append] then shows on both, which this store does not record.
    What is proved about values added later is stated for trees whose
    keys are pairwise distinct, where no two linked nodes share a
    list. *)
Definition remove_node (fuel : nat) (node : option ref) : M unit :=
  n <- get_children_count node ;;
  node <- (if n =? 2 then
             r <- attr _right node ;;
             successor <- get_minimum_node fuel r ;;
             k <- attr _key successor ;;
             set_key k node ;;;
             v <- attr _values successor ;;
             set_values v node ;;;
             ret successor
           else ret node) ;;
  __remove fuel node.

Definition remove_key (fuel : nat) (key : K) : M unit :=
  found <- find_node fuel key false ;;
  pair <- unpack2 fuel found ;;
  match pair with
  | inl (None, _) => ret tt
  | inl (node_to_remove, _) => remove_node fuel node_to_remove
  | inr _ =>
      (* a string is not None and has no [get_children_count] *)
      raise AttributeError
  end.

(** [list.remove(x)]: drops the first element equal to [x]. *)
Fixpoint list_remove (x : option V) (l : list (option V))
    : list (option V) :=
  match l with
  | [] => []
  | y :: l => if bool_decide (x = y) then l else y :: list_remove x l
  end.

Definition remove_value (fuel : nat) (key : K) (value : option V)
    : M unit :=
  found <- find_node fuel key false ;;
  pair <- unpack2 fuel found ;;
  match pair with
  | inl (node, _) =>
      vs <- attr _values node ;;
      (if existsb (fun y => bool_decide (value = y)) vs
       then vs <- attr _values node ;; set_values (list_remove value vs) node
       else ret tt) ;;;
      vs <- attr _values node ;;
      if (length vs =? 0)%nat then remove_node fuel node else ret tt
  | inr _ =>
      (* a string has no [_values] *)
      raise AttributeError
  end.

Definition update_key (fuel : nat) (key : K) (value : option V)
    (new_key : K) : M unit :=
  remove_value fuel key value ;;;
  add fuel new_key value.

Definition __delitem__ (fuel : nat) (key : K) : M unit :=
  valid <- validate_key key ;;
  if valid then remove_key fuel key else ret tt.

(** ** The tree a store holds

    Read off the store by following [_left] and [_right] from a
    reference: the sentinel is a leaf, any other object is a node and
    must be coloured RED or black and carry a key. *)

Inductive tree :=
| Leaf
| Node (l : tree) (node : ref) (key : K) (r : tree).

Fixpoint to_tree (fuel : nat) (s : state) (o : option ref) : option tree :=
  match fuel with
  | O => None
  | S fuel =>
      match o with
      | None => None
      | Some a =>
          if bool_decide (a = NIL_NODE) then Some Leaf
          else if bool_decide (_color (deref s a) = NIL) then None
          else match _key (deref s a) with
               | None => None
               | Some k =>
                   match to_tree fuel s (_left (deref s a)),
                         to_tree fuel s (_right (deref s a)) with
                   | Some l, Some r => Some (Node l a k r)
                   | _, _ => None
                   end
               end
      end
  end.

(** The sentinel as the class built it: colour NIL, no key, no
    children (its [_parent] is overwritten by rotations). *)
Definition sentinel_ok (s : state) : bool :=
  let n := deref s NIL_NODE in
  bool_decide (_color n = NIL) &&
  bool_decide (_left n = None) &&
  bool_decide (_right n = None) &&
  match _key n with None => true | Some _ => false end.

(** The tree under [_root]; an absent root is the empty tree. *)
Definition tree_of (fuel : nat) (s : state) : option tree :=
  if sentinel_ok s then
    match _root s with
    | None => Some Leaf
    | Some _ => to_tree fuel s (_root s)
    end
  else None.

Fixpoint keys (t : tree) : list K :=
  match t with
  | Leaf => []
  | Node l _ k r => keys l ++ [k] ++ keys r
  end.

(** A key is present when the tree's equality function matches it with
    the key of some node. *)
Definition present (key : K) (t : tree) : bool :=
  existsb (_key_equals_function key) (keys t).

(** Longest root-to-leaf path, counted in nodes, and the height, counted
    in edges (a single node has height 0, the empty tree -1). *)
Fixpoint levels (t : tree) : Z :=
  match t with
  | Leaf => 0
  | Node l _ _ r => 1 + Z.max (levels l) (levels r)
  end.

Definition height (t : tree) : Z := levels t - 1.

(** The computation ended, by returning or by raising, and its final
    store is [s]. *)
Definition unchanged {A} (r : result A) (s : state) : Prop :=
  match r with
  | Ok _ s' | Raise _ s' => s' = s
  | OutOfFuel => False
  end.

(** Computations that only read the store, and computations that
    always end in an exception without having written to it. *)
Definition reads {A} (m : M A) : Prop :=
  forall s, (exists a, m s = Ok a s) \/ (exists e, m s = Raise e s).

Definition raises {A} (m : M A) : Prop :=
  forall s, exists e, m s = Raise e s.

(** ** Walks from the root, for the red-black properties *)

Definition child (s : state) (d : RBDirectionEnum) (a : ref) : option ref :=
  match d with
  | LEFT => _left (deref s a)
  | RIGHT => _right (deref s a)
  end.

(** The number of black nodes met when following [path] from [o], if
    the walk ends on the sentinel. *)
Fixpoint blacks_on (s : state) (o : option ref) (path : list RBDirectionEnum)
    : option nat :=
  match o with
  | None => None
  | Some a =>
      if bool_decide (a = NIL_NODE) then
        match path with [] => Some 0%nat | _ => None end
      else
        match path with
        | [] => None
        | d :: path =>
            option_map
              (fun n => if bool_decide (_color (deref s a) = black)
                        then S n else n)
              (blacks_on s (child s d a) path)
        end
  end.

(** Property 4 at the root: all walks from the root to the sentinel
    meet the same number of black nodes. *)
Definition equal_black_height (s : state) : Prop :=
  forall p q n m,
    blacks_on s (_root s) p = Some n ->
    blacks_on s (_root s) q = Some m -> n = m.

(** ** The red-black properties of a well-shaped tree *)

Definition is_red (s : state) (t : tree) : bool :=
  match t with
  | Leaf => false
  | Node _ a _ _ => bool_decide (_color (deref s a) = RED)
  end.

(** [Some n] when no RED node of [t] has a RED child (property 3) and
    every path down to a leaf meets [n] black nodes (property 4). *)
Fixpoint black_height (s : state) (t : tree) : option nat :=
  match t with
  | Leaf => Some 0%nat
  | Node l a _ r =>
      match black_height s l, black_height s r with
      | Some n, Some m =>
          if (n =? m)%nat &&
             negb (is_red s t && (is_red s l || is_red s r))
          then Some (if is_red s t then n else S n)
          else None
      | _, _ => None
      end
  end.

(** Properties 0, 3 and 4 of the store's tree. *)
Definition red_black (fuel : nat) (s : state) : bool :=
  match tree_of fuel s with
  | Some t => negb (is_red s t) && bool_decide (black_height s t <> None)
  | None => false
  end.

(** ** Scripts of public operations *)

Inductive operation :=
| Add (key : K) (value : option V)
| Remove (key : K).

Definition perform (fuel : nat) (o : operation) : M unit :=
  match o with
  | Add key value => add fuel key value
  | Remove key => remove_key fuel key
  end.

Fixpoint perform_all (fuel : nat) (script : list operation) : M unit :=
  match script with
  | [] => ret tt
  | o :: script => perform fuel o ;;; perform_all fuel script
  end.

(** ** More about the tree a store holds *)

(** The node references of a tree, in order, and their number. *)
Fixpoint refs (t : tree) : list ref :=
  match t with
  | Leaf => []
  | Node l a _ r => refs l ++ [a] ++ refs r
  end.

Fixpoint size (t : tree) : nat :=
  match t with
  | Leaf => 0%nat
  | Node l _ _ r => S (size l + size r)
  end.

(** The descent of [inner_find], on the tree: the first node on the way
    down whose key the equality function matches. *)
Fixpoint search (key : K) (t : tree) : option ref :=
  match t with
  | Leaf => None
  | Node l a k r =>
      if _key_equals_function key k then Some a
      else if negb (_key_comparator_function key k) then search key r
      else search key l
  end.

(** Search order under the tree's comparator: the keys to the left of a
    node compare below its key, the keys to its right do not. *)
Fixpoint ordered (t : tree) : bool :=
  match t with
  | Leaf => true
  | Node l _ k r =>
      forallb (fun k' => _key_comparator_function k' k) (keys l) &&
      forallb (fun k' => negb (_key_comparator_function k' k)) (keys r) &&
      ordered l && ordered r
  end.

(** The end of the left (right) spine below a node [a]. *)
Fixpoint leftmost (a : ref) (t : tree) : ref :=
  match t with
  | Leaf => a
  | Node l b _ _ => leftmost b l
  end.

Fixpoint rightmost (a : ref) (t : tree) : ref :=
  match t with
  | Leaf => a
  | Node _ b _ r => rightmost b r
  end.

(** What [in_order] and [__iter__] show of one object. *)
Definition row_of (s : state) (a : ref) : row :=
  (_key (deref s a), _values (deref s a), _parent (deref s a),
   _color (deref s a)).

Definition repr_of (s : state) (a : ref)
    : RBColorEnum * option K * list (option V) :=
  (_color (deref s a), _key (deref s a), _values (deref s a)).

(** The rows of a tree with one sentinel row at every leaf. *)
Fixpoint rows (s : state) (t : tree) : list row :=
  match t with
  | Leaf => [row_of s NIL_NODE]
  | Node l a _ r => rows s l ++ [row_of s a] ++ rows s r
  end.

(** A computation that, if it ends, ends with the store it started
    from. *)
Definition read_only {A} (m : M A) : Prop :=
  forall s, match m s with
            | Ok _ s' | Raise _ s' => s' = s
            | OutOfFuel => True
            end.

(** The store after [node._values.append(value)]. *)
Definition with_value (s : state) (a : ref) (value : option V) : state :=
  mkState
    (alter (fun n => mkRBNode (_key n) (_values n ++ [value]) (_color n)
                       (_parent n) (_left n) (_right n)) a (heap s))
    (_root s).

(** Parent references that agree with the tree: the root of [t] has
    parent [p], every other node has the node above it. *)
Fixpoint linked (s : state) (p : option ref) (t : tree) : bool :=
  match t with
  | Leaf => true
  | Node l a _ r =>
      bool_decide (_parent (deref s a) = p) &&
      linked s (Some a) l && linked s (Some a) r
  end.

(** ** Trees with colours and their layout in the store

    A coloured tree names, for every node, its object, colour and key.
    [layout s p o t] says that the reference [o] leads to the tree [t]
    in the store [s], with every node's fields as [t] says, and with
    the parent references in place ([p] above the root of [t]). *)
Inductive ctree :=
| CLeaf
| CNode (c : RBColorEnum) (l : ctree) (a : ref) (k : K) (r : ctree).

Fixpoint layout (s : state) (p o : option ref) (t : ctree) : Prop :=
  match t with
  | CLeaf => o = Some NIL_NODE
  | CNode c l a k r =>
      o = Some a /\ a <> NIL_NODE /\
      _color (deref s a) = c /\ c <> NIL /\
      _key (deref s a) = Some k /\
      _parent (deref s a) = p /\
      layout s (Some a) (_left (deref s a)) l /\
      layout s (Some a) (_right (deref s a)) r
  end.

Fixpoint crefs (t : ctree) : list ref :=
  match t with
  | CLeaf => []
  | CNode _ l a _ r => crefs l ++ [a] ++ crefs r
  end.

Fixpoint ckeys (t : ctree) : list K :=
  match t with
  | CLeaf => []
  | CNode _ l _ k r => ckeys l ++ [k] ++ ckeys r
  end.

Fixpoint erase (t : ctree) : tree :=
  match t with
  | CLeaf => Leaf
  | CNode _ l a k r => Node (erase l) a k (erase r)
  end.

Fixpoint depth (t : ctree) : nat :=
  match t with
  | CLeaf => 1%nat
  | CNode _ l _ _ r => S (Nat.max (depth l) (depth r))
  end.

(** The colour at the root; a leaf counts as black. *)
Definition root_color (t : ctree) : RBColorEnum :=
  match t with
  | CLeaf => black
  | CNode c _ _ _ _ => c
  end.

(** [rb t h]: no RED node of [t] has a RED child and every path from
    the root of [t] to a leaf meets [h] black nodes. *)
Fixpoint rb (t : ctree) (h : nat) : Prop :=
  match t with
  | CLeaf => h = 0%nat
  | CNode c l _ _ r =>
      match c with
      | RED => root_color l = black /\ root_color r = black /\
               rb l h /\ rb r h
      | black => match h with
                 | O => False
                 | S h' => rb l h' /\ rb r h'
                 end
      | NIL => False
      end
  end.

(** The coloured tree a store holds under a reference. *)
Fixpoint colored (s : state) (t : tree) : ctree :=
  match t with
  | Leaf => CLeaf
  | Node l a k r => CNode (_color (deref s a)) (colored s l) a k (colored s r)
  end.

(** ** A subtree in its context

    A frame is one step up: the direction in which the subtree hangs
    from its parent, the parent's colour, object and key, and the
    parent's other subtree.  A context lists the frames from a subtree
    up to the root. *)
Definition frame : Type :=
  RBDirectionEnum * RBColorEnum * ref * K * ctree.

Fixpoint plug (t : ctree) (ctx : list frame) : ctree :=
  match ctx with
  | [] => t
  | (LEFT, c, a, k, sib) :: ctx => plug (CNode c t a k sib) ctx
  | (RIGHT, c, a, k, sib) :: ctx => plug (CNode c sib a k t) ctx
  end.

Definition opposite (d : RBDirectionEnum) : RBDirectionEnum :=
  match d with LEFT => RIGHT | RIGHT => LEFT end.

(** [path s root ctx o p]: in the store, the frames of [ctx] lead from
    the reference [o] (whose object has parent [p]) up to [root]. *)
Fixpoint path (s : state) (root : option ref) (ctx : list frame)
    (o p : option ref) : Prop :=
  match ctx with
  | [] => o = root /\ p = None
  | (d, c, a, k, sib) :: ctx =>
      p = Some a /\ a <> NIL_NODE /\
      _color (deref s a) = c /\ c <> NIL /\
      _key (deref s a) = Some k /\
      child s d a = o /\
      layout s (Some a) (child s (opposite d) a) sib /\
      path s root ctx (Some a) (_parent (deref s a))
  end.

(** The red-black conditions on a context around a hole of black
    height [h]: the other subtrees match in black height, a RED parent
    has a black other child and a black parent of its own. *)
Fixpoint ctx_rb (ctx : list frame) (h : nat) : Prop :=
  match ctx with
  | [] => True
  | (_, c, _, _, sib) :: ctx' =>
      rb sib h /\
      match c with
      | RED => root_color sib = black /\
               match ctx' with
               | [] => False
               | (_, c', _, _, _) :: _ => c' = black
               end /\
               ctx_rb ctx' h
      | black => ctx_rb ctx' (S h)
      | NIL => False
      end
  end.

(** The store after one attribute write on the object [a]. *)
Definition upd (a : ref) (f : RBNode -> RBNode) (s : state) : state :=
  mkState (alter f a (heap s)) (_root s).

(** The objects a context names: the nodes on the way up and the nodes
    of their other subtrees. *)
Fixpoint ctx_refs (ctx : list frame) : list ref :=
  match ctx with
  | [] => []
  | (_, _, a, _, sib) :: ctx => a :: crefs sib ++ ctx_refs ctx
  end.

(** The keys and the objects that an in-order walk meets before and
    after the hole of a context. *)
Fixpoint keys_before (ctx : list frame) : list K :=
  match ctx with
  | [] => []
  | (LEFT, _, _, _, _) :: ctx => keys_before ctx
  | (RIGHT, _, _, k, sib) :: ctx => keys_before ctx ++ ckeys sib ++ [k]
  end.

Fixpoint keys_after (ctx : list frame) : list K :=
  match ctx with
  | [] => []
  | (LEFT, _, _, k, sib) :: ctx => [k] ++ ckeys sib ++ keys_after ctx
  | (RIGHT, _, _, _, _) :: ctx => keys_after ctx
  end.

Fixpoint refs_before (ctx : list frame) : list ref :=
  match ctx with
  | [] => []
  | (LEFT, _, _, _, _) :: ctx => refs_before ctx
  | (RIGHT, _, a, _, sib) :: ctx => refs_before ctx ++ crefs sib ++ [a]
  end.

Fixpoint refs_after (ctx : list frame) : list ref :=
  match ctx with
  | [] => []
  | (LEFT, _, a, _, sib) :: ctx => [a] ++ crefs sib ++ refs_after ctx
  | (RIGHT, _, _, _, _) :: ctx => refs_after ctx
  end.

(** The attribute writes as functions on objects. *)
Definition with_color (v : RBColorEnum) (n : RBNode) : RBNode :=
  mkRBNode (_key n) (_values n) v (_parent n) (_left n) (_right n).
Definition with_parent (v : option ref) (n : RBNode) : RBNode :=
  mkRBNode (_key n) (_values n) (_color n) v (_left n) (_right n).
Definition with_left (v : option ref) (n : RBNode) : RBNode :=
  mkRBNode (_key n) (_values n) (_color n) (_parent n) v (_right n).
Definition with_right (v : option ref) (n : RBNode) : RBNode :=
  mkRBNode (_key n) (_values n) (_color n) (_parent n) (_left n) v.
Definition with_child (d : RBDirectionEnum) (v : option ref) : RBNode -> RBNode :=
  match d with LEFT => with_left v | RIGHT => with_right v end.

(** [wp m s Q]: from the store [s] the computation [m] returns, with a
    result and a final store that satisfy [Q]. *)
Definition wp {A} (m : M A) (s : state) (Q : A -> state -> Prop) : Prop :=
  match m s with
  | Ok a s' => Q a s'
  | _ => False
  end.

(** The store after [self._root = v]. *)
Definition with_root (v : option ref) (s : state) : state :=
  mkState (heap s) v.

(** One frame around a subtree. *)
Definition fill (d : RBDirectionEnum) (c : RBColorEnum) (t : ctree)
    (a : ref) (k : K) (sib : ctree) : ctree :=
  match d with
  | LEFT => CNode c t a k sib
  | RIGHT => CNode c sib a k t
  end.

(** The directions of a context agree with the comparator: a subtree
    hangs to the LEFT of its parent exactly when the key at its root
    compares below the parent's key. *)
Fixpoint ctx_dirs (k : K) (ctx : list frame) : Prop :=
  match ctx with
  | [] => True
  | (d, _, _, ka, _) :: ctx =>
      _key_comparator_function k ka = bool_decide (d = LEFT) /\
      ctx_dirs ka ctx
  end.

(** What rebalancing achieves, from the store [s] holding the coloured
    tree [t]: the store [s'] holds a red-black tree with the same
    objects and keys in the same order, at most one level deeper, and
    the lists of values are untouched. *)
Definition rebalanced (s : state) (t : ctree) (s' : state) : Prop :=
  exists t',
    layout s' None (_root s') t' /\
    crefs t' = crefs t /\ ckeys t' = ckeys t /\
    root_color t' = black /\ (exists h, rb t' h) /\
    (depth t' <= S (depth t))%nat /\
    length (heap s') = length (heap s) /\
    sentinel_ok s' = true /\
    (forall a, _values (deref s' a) = _values (deref s a)).

(** The store after a constructor call: the new object sits at the
    reference [length (heap s)]. *)
Definition alloc (n : RBNode) (s : state) : state :=
  mkState (heap s ++ [n]) (_root s).

(** Where a key that is not in the tree belongs: the context of the
    leaf that the search for it ends on ([None] when the key is found
    on the way). *)
Fixpoint slot (key : K) (t : ctree) (ctx : list frame)
    : option (list frame) :=
  match t with
  | CLeaf => Some ctx
  | CNode c l a k r =>
      if _key_equals_function key k then None
      else if negb (_key_comparator_function key k)
           then slot key r ((RIGHT, c, a, k, l) :: ctx)
           else slot key l ((LEFT, c, a, k, r) :: ctx)
  end.

End Tree.

Arguments Ok {K V A} a s.
Arguments Raise {K V A} e s.
Arguments OutOfFuel {K V A}.

(** ** The default functions, on integer keys *)

Definition __simple_key_comparator (key_one key_two : Z) : bool :=
  key_one <? key_two.

Definition __simple_key_equals (key_one key_two : Z) : bool :=
  key_one =? key_two.

(** [isinstance(key, int)]: every key of type [Z] is an integer. *)
Definition __simple_key_validator (key : Z) : bool := true.

#[export] Instance default_functions : KeyFunctions Z := {|
  _key_comparator_function := __simple_key_comparator;
  _key_equals_function := __simple_key_equals;
  _key_validator_function := __simple_key_validator
|}.

(** A tree configured with a validator of its own, which accepts the
    non-negative integers only. *)
Definition nonnegative_keys : KeyFunctions Z := {|
  _key_comparator_function := __simple_key_comparator;
  _key_equals_function := __simple_key_equals;
  _key_validator_function := fun key => 0 <=? key
|}.

(** Integer keys, each stored with itself as its value. *)
Definition empty_tree : @state Z Z := RedBlackTree__init__.

Definition insert (key : Z) : @operation Z Z := Add key (Some key).

(** The keys [1 .. n] in ascending order. *)
Definition ascending (n : nat) : list Z := map Z.of_nat (seq 1 n).

(** ** Red-black search trees on integer keys *)

(** Strictly increasing lists of keys. *)
Fixpoint increasing (l : list Z) : bool :=
  match l with
  | x :: l' =>
      match l' with
      | y :: _ => (x <? y) && increasing l'
      | [] => true
      end
  | [] => true
  end.

(** The store holds a red-black search tree with fewer than [n] levels
    and the default functions apply: the sentinel is intact, the
    references under [_root] shape a tree whose parent references are
    in place, the keys increase from left to right, the root is black,
    no RED node has a RED child and all paths to the leaves meet the
    same number of black nodes. *)
Definition search_tree {V : Type} (n : nat) (s : @state Z V) : bool :=
  match tree_of n s with
  | Some t =>
      bool_decide (0 < length (heap s))%nat &&
      bool_decide (_root s <> Some NIL_NODE) &&
      linked s None t && increasing (keys t) && red_black n s
  | None => false
  end.

(** The keys of the store's tree, in order. *)
Definition keys_of {V : Type} (n : nat) (s : @state Z V) : list Z :=
  match tree_of n s with
  | Some t => keys t
  | None => []
  end.

(** ** The tree as a sorted multimap

    The keys of the store's tree in order, each with the list of values
    of its node. *)
Fixpoint bindings {V : Type} (s : @state Z V) (t : @tree Z)
    : list (Z * list (option V)) :=
  match t with
  | Leaf => []
  | Node l a k r => bindings s l ++ [(k, _values (deref s a))] ++ bindings s r
  end.

Definition entries_of {V : Type} (n : nat) (s : @state Z V)
    : list (Z * list (option V)) :=
  match tree_of n s with
  | Some t => bindings s t
  | None => []
  end.

(** What [add] is meant to do to the sorted list of entries: a value
    for a key already there goes to the end of that key's values, a new
    key gets its place in the order with the value as its only one. *)
Fixpoint put {V : Type} (key : Z) (value : option V)
    (l : list (Z * list (option V))) : list (Z * list (option V)) :=
  match l with
  | [] => [(key, [value])]
  | (k, vs) :: l' =>
      if key =? k then (k, vs ++ [value]) :: l'
      else if key <? k then (key, [value]) :: l
      else (k, vs) :: put key value l'
  end.

(** * Properties *)

Section Properties.
Context {K V : Type} `{EqDecision K} `{EqDecision V} `{KeyFunctions K}.
Implicit Types (s : @state K V) (key : K) (value : option V).

Lemma sentinel_color s :
  sentinel_ok s = true -> _color (deref s NIL_NODE) = NIL.
Proof.
  unfold sentinel_ok. intros Hs.
  repeat (apply andb_prop in Hs; destruct Hs as [Hs ?]).
  by apply bool_decide_eq_true in Hs.
Qed.

Lemma sentinel_left s :
  sentinel_ok s = true -> _left (deref s NIL_NODE) = None.
Proof.
  unfold sentinel_ok. intros Hs.
  repeat (apply andb_prop in Hs; destruct Hs as [Hs ?]).
  match goal with H : bool_decide (_left _ = None) = true |- _ =>
    by apply bool_decide_eq_true in H end.
Qed.

Lemma eq_sentinel_self s :
  sentinel_ok s = true -> RBNode__eq__ s NIL_NODE NIL_NODE = true.
Proof.
  intros Hs. unfold RBNode__eq__. rewrite (sentinel_color s Hs).
  reflexivity.
Qed.

Lemma eq_sentinel_real s a :
  sentinel_ok s = true -> _color (deref s a) <> NIL ->
  RBNode__eq__ s a NIL_NODE = false.
Proof.
  intros Hs Hc. unfold RBNode__eq__. rewrite (sentinel_color s Hs).
  rewrite (bool_decide_eq_false_2 _ Hc). simpl.
  rewrite andb_false_r. reflexivity.
Qed.

Lemma to_tree_mono n : forall m s o t,
  to_tree n s o = Some t -> (n <= m)%nat -> to_tree m s o = Some t.
Proof.
  induction n as [|n IH]; intros m s o t Ht Hle; [discriminate|].
  destruct m as [|m]; [lia|]. simpl in *.
  destruct o as [a|]; [|discriminate].
  destruct (bool_decide (a = NIL_NODE)); [assumption|].
  destruct (bool_decide (_color (deref s a) = NIL)); [discriminate|].
  destruct (_key (deref s a)); [|discriminate].
  destruct (to_tree n s (_left (deref s a))) as [l|] eqn:Hl; [|discriminate].
  destruct (to_tree n s (_right (deref s a))) as [r|] eqn:Hr; [|discriminate].
  rewrite (IH m s _ l Hl), (IH m s _ r Hr) by lia. assumption.
Qed.

Lemma present_node key l a k r :
  present key (Node l a k r) = false ->
  present key l = false /\ _key_equals_function key k = false /\
  present key r = false.
Proof.
  unfold present. simpl. rewrite !existsb_app. simpl.
  intros Hp. apply orb_false_elim in Hp as [Hl Hp].
  apply orb_false_elim in Hp as [Hk Hr]. auto.
Qed.

Lemma inner_find_absent n : forall s o t key,
  sentinel_ok s = true -> to_tree n s o = Some t -> present key t = false ->
  inner_find n key false o s = Ok (FTuple None None) s.
Proof.
  induction n as [|n IH]; intros s o t key Hs Ht Hp; [discriminate|].
  simpl in Ht. destruct o as [a|]; [|discriminate].
  cbn [inner_find]. unfold bind at 1. unfold py_eq at 1.
  destruct (bool_decide (a = NIL_NODE)) eqn:Ha.
  - apply bool_decide_eq_true in Ha. subst a.
    rewrite (eq_sentinel_self s Hs). reflexivity.
  - destruct (bool_decide (_color (deref s a) = NIL)) eqn:Hc; [discriminate|].
    apply bool_decide_eq_false in Hc.
    rewrite (eq_sentinel_real s a Hs Hc).
    unfold bind, attr.
    destruct (_key (deref s a)) as [k|]; [|discriminate].
    destruct (to_tree n s (_left (deref s a))) as [l|] eqn:Hl; [|discriminate].
    destruct (to_tree n s (_right (deref s a))) as [r|] eqn:Hr; [|discriminate].
    injection Ht as <-.
    apply present_node in Hp as (Hpl & Hk & Hpr).
    unfold with_key. rewrite Hk.
    destruct (_key_comparator_function key k); simpl; unfold ret.
    + eapply IH; eassumption.
    + eapply IH; eassumption.
Qed.

Lemma find_node_absent n fuel s t key :
  sentinel_ok s = true -> _root s <> None ->
  to_tree n s (_root s) = Some t -> present key t = false ->
  (n <= fuel)%nat ->
  find_node fuel key false s = Ok (FTuple None None) s.
Proof.
  intros Hs Hr Ht Hp Hle. unfold find_node, bind, get_root.
  destruct (_root s) as [r|] eqn:Hroot; [|congruence].
  eapply inner_find_absent; [assumption| |eassumption].
  eapply to_tree_mono; eassumption.
Qed.

Lemma tree_of_sentinel n s t :
  tree_of n s = Some t -> sentinel_ok s = true.
Proof. unfold tree_of. destruct (sentinel_ok s); [reflexivity|discriminate]. Qed.

Lemma tree_of_root n s t :
  tree_of n s = Some t -> _root s <> None -> to_tree n s (_root s) = Some t.
Proof.
  unfold tree_of. destruct (sentinel_ok s); [|discriminate].
  destruct (_root s); congruence.
Qed.

Lemma unpack_sentinel fuel s :
  sentinel_ok s = true ->
  unpack2 (S fuel) (FNode NIL_NODE) s = Raise AttributeError s.
Proof.
  intros Hs. unfold unpack2. cbn [RBNode__iter__ Nat.eqb].
  unfold bind at 1. unfold bind at 1. unfold attr at 1.
  rewrite (sentinel_left s Hs). reflexivity.
Qed.

(** C6.  Removing a key that is absent leaves the store exactly as it
    was.  For every well-shaped tree state [s] (the empty tree included)
    and every key that the tree's equality function matches with no node
    key, [remove_key], given fuel for the depth of the tree, ends with
    the store [s] it started from: no link, colour, key or value has
    changed.  On a non-empty tree it returns normally. *)
Theorem remove_key_absent_unchanged n fuel s t key :
  tree_of n s = Some t -> present key t = false ->
  (n <= fuel)%nat -> (1 <= fuel)%nat ->
  unchanged (remove_key fuel key s) s /\
  (_root s <> None -> remove_key fuel key s = Ok tt s).
Proof.
  intros Ht Hp Hle Hpos.
  pose proof (tree_of_sentinel _ _ _ Ht) as Hs.
  destruct (_root s) as [r|] eqn:Hroot.
  - assert (Hne : _root s <> None) by congruence.
    assert (Hok : remove_key fuel key s = Ok tt s).
    { unfold remove_key. unfold bind at 1.
      rewrite (find_node_absent n fuel s t key Hs Hne
                 (tree_of_root _ _ _ Ht Hne) Hp Hle).
      reflexivity. }
    rewrite Hok. split; [reflexivity|intros _; reflexivity].
  - split; [|congruence].
    destruct fuel as [|fuel]; [lia|].
    unfold remove_key. unfold bind at 1. unfold find_node, bind, get_root.
    rewrite Hroot. unfold ret.
    change (match unpack2 (S fuel) (FNode NIL_NODE) s with
            | Ok a s' => _ a s' | Raise e s' => Raise e s'
            | OutOfFuel => OutOfFuel end) with
      (bind (unpack2 (S fuel) (FNode NIL_NODE)) (fun pair =>
         match pair with
         | inl (None, _) => ret tt
         | inl (node_to_remove, _) => remove_node (S fuel) node_to_remove
         | inr _ => raise AttributeError
         end) s).
    unfold bind. rewrite (unpack_sentinel fuel s Hs). reflexivity.
Qed.

(** C10.  On a non-empty tree, [remove_value] with a key that is absent
    raises AttributeError: [find_node] answers [(None, None)] and the
    method reads [_values] of that [None].  The store at the raise is
    the one the call started from, so nothing was removed (whereas
    [remove_key] returns normally there, see C6). *)
Theorem remove_value_absent_raises n fuel s t key value :
  _root s <> None -> tree_of n s = Some t -> present key t = false ->
  (n <= fuel)%nat ->
  remove_value fuel key value s = Raise AttributeError s /\
  remove_key fuel key s = Ok tt s.
Proof.
  intros Hne Ht Hp Hle.
  pose proof (tree_of_sentinel _ _ _ Ht) as Hs.
  pose proof (find_node_absent n fuel s t key Hs Hne
                (tree_of_root _ _ _ Ht Hne) Hp Hle) as Hfind.
  split.
  - unfold remove_value. unfold bind at 1. rewrite Hfind. reflexivity.
  - unfold remove_key. unfold bind at 1. rewrite Hfind. reflexivity.
Qed.

(** C7.  When the configured validator rejects the key, [add] raises
    the exception of [validate_key] ("Could not validate key: ...") to
    its caller, and the store at the raise is the store before the
    call. *)
Theorem add_invalid_key fuel s key value :
  _key_validator_function key = false ->
  add fuel key value s = Raise (Exception (CouldNotValidateKey key)) s.
Proof.
  intros Hv. unfold add, bind, validate_key. rewrite Hv. reflexivity.
Qed.

Lemma reads_ret {A} (a : A) : @reads K V _ (ret a).
Proof. intros s. left. eexists. reflexivity. Qed.

Lemma reads_attr {A} (f : RBNode -> A) o : @reads K V _ (attr f o).
Proof. intros s. destruct o; [left|right]; eexists; reflexivity. Qed.

Lemma reads_py_eq a b : @reads K V _ (py_eq a b).
Proof. intros s. left. eexists. reflexivity. Qed.

Lemma reads_bind {A B} (m : M A) (k : A -> M B) :
  @reads K V _ m -> (forall a, @reads K V _ (k a)) ->
  @reads K V _ (bind m k).
Proof.
  intros Hm Hk s. unfold bind.
  destruct (Hm s) as [[a ->]|[e ->]]; [apply Hk|right; eauto].
Qed.

Lemma raises_raise {A} e : @raises K V _ (@raise K V A e).
Proof. intros s. eexists. reflexivity. Qed.

Lemma raises_bind {A B} (m : M A) (k : A -> M B) :
  @reads K V _ m -> (forall a, @raises K V _ (k a)) ->
  @raises K V _ (bind m k).
Proof.
  intros Hm Hk s. unfold bind.
  destruct (Hm s) as [[a ->]|[e ->]]; [apply Hk|eauto].
Qed.

Lemma raises_bind_l {A B} (m : M A) (k : A -> M B) :
  @raises K V _ m -> @raises K V _ (bind m k).
Proof. intros Hm s. unfold bind. destruct (Hm s) as [e ->]. eauto. Qed.

Lemma reads_get_parent_node o : @reads K V _ (get_parent_node o).
Proof. destruct o; [apply reads_attr|apply reads_ret]. Qed.

Lemma reads_get_sibling_node o : @reads K V _ (get_sibling_node o).
Proof.
  unfold get_sibling_node. apply reads_bind; [apply reads_get_parent_node|].
  intros [p|]; [|apply reads_ret].
  apply reads_bind; [apply reads_attr|intros l].
  apply reads_bind; [apply reads_py_eq|intros []];
    (apply reads_bind; [apply reads_attr|intros; apply reads_ret]).
Qed.

Lemma reads_is_node_color c op nodes :
  @reads K V _ (is_node_color c op nodes).
Proof.
  induction nodes as [|o nodes IH]; [apply reads_ret|].
  simpl. apply reads_bind; [apply reads_attr|intros c'].
  destruct (op c c'); [apply IH|apply reads_ret].
Qed.

Lemma reads_and_ a b :
  @reads K V _ a -> @reads K V _ b -> @reads K V _ (and_ a b).
Proof.
  intros Ha Hb. apply reads_bind; [assumption|].
  intros []; [assumption|apply reads_ret].
Qed.

Lemma __case_6_rotation_raises sibling_node direction :
  @raises K V _ (__case_6_rotation sibling_node direction).
Proof.
  unfold __case_6_rotation.
  apply raises_bind; [apply reads_get_parent_node|intros p].
  apply raises_bind; [apply reads_attr|intros c].
  apply raises_raise.
Qed.

(** Case 6 never returns: from any store and for any node it ends in an
    exception, and the store is as it found it. *)
Lemma __case_6_always_raises (node : option ref) :
  @raises K V _ (__case_6 node).
Proof.
  unfold __case_6.
  apply raises_bind; [apply reads_get_sibling_node|intros r].
  destruct r as [[sibling_node direction]|]; simpl.
  - apply raises_bind; [apply reads_ret|intros [sib d]].
    apply raises_bind.
    { destruct (bool_decide (d = LEFT)); apply reads_attr. }
    intros outer_node.
    apply raises_bind.
    { apply reads_and_; apply reads_is_node_color. }
    intros []; [apply __case_6_rotation_raises|apply raises_raise].
  - apply raises_bind_l, raises_raise.
Qed.

End Properties.

(** ** The default tree on concrete inputs *)

(** Runs the embedding on a closed input; on a conjunction, one
    conjunct after the other, so that the store found by the first is
    known when the next is evaluated. *)
Ltac evaluate := vm_compute; reflexivity.

Ltac evaluate_each :=
  lazymatch goal with
  | |- _ /\ _ => split; [evaluate | evaluate_each]
  | |- _ => evaluate
  end.

(** C1 (fails on the code).  Add the keys 1 to 6, remove 6, remove 1.
    Every call returns normally and the tree before the last call is a
    red-black tree, but the last call (case 2 of the deletion balancer,
    which hands the sibling's side to [rotate] as the rotation
    direction) leaves the root [4] and its right child [2] pointing at
    each other: the walk left-left from the root meets 2 black nodes
    before the sentinel, the walk right-right-left-left meets 4. *)
Theorem remove_breaks_red_black_properties :
  exists s s' : @state Z Z,
    perform_all 20 (map insert (ascending 6) ++ [Remove 6]) empty_tree
      = Ok tt s /\
    red_black 10 s = true /\
    perform 20 (Remove 1) s = Ok tt s' /\
    child s' RIGHT 4%nat = Some 2%nat /\
    child s' RIGHT 2%nat = Some 4%nat /\
    blacks_on s' (_root s') [LEFT; LEFT] = Some 2%nat /\
    blacks_on s' (_root s') [RIGHT; RIGHT; LEFT; LEFT] = Some 4%nat /\
    ~ equal_black_height s'.
Proof.
  do 2 eexists.
  split; [evaluate|].
  split; [evaluate|].
  split; [evaluate|].
  split; [evaluate|].
  split; [evaluate|].
  split; [evaluate|].
  split; [evaluate|].
  intros Heq.
  specialize (Heq [LEFT; LEFT] [RIGHT; RIGHT; LEFT; LEFT] 2%nat 4%nat).
  discriminate Heq; evaluate.
Qed.

(** C2 (fails on the code).  After adding 1, 2, 3, 4 the black leaf [1]
    has the black sibling [3] on its right whose outer child [4] is RED:
    the situation of case 6.  There [__case_6] raises AttributeError and
    the store is untouched: no rotation, no recolouring; and so does
    [remove_key 1], which reaches it.  More generally [__case_6] ends in
    an exception from every store and for every node, so the balancer
    never terminates through case 6. *)
Theorem case_6_raises_attribute_error :
  (exists s : @state Z Z,
     perform_all 20 (map insert (ascending 4)) empty_tree = Ok tt s /\
     red_black 10 s = true /\
     get_sibling_node (Some 1%nat) s = Ok (Some (Some 3%nat, RIGHT)) s /\
     _color (deref s 3%nat) = black /\
     child s RIGHT 3%nat = Some 4%nat /\
     _color (deref s 4%nat) = RED /\
     __case_6 (Some 1%nat) s = Raise AttributeError s /\
     remove_key 20 1 s = Raise AttributeError s) /\
  (forall (node : option ref) (s : @state Z Z),
     exists e, __case_6 node s = Raise e s).
Proof.
  split.
  - eexists. evaluate_each.
  - intros node s. apply __case_6_always_raises.
Qed.

(** C3 (fails on the code).  With the keys 1, 2, 3, 4 inserted, removing
    them in that order stops at the first removal with AttributeError
    (case 6) and the tree is not empty.  And where the tree does become
    empty (insert 1, remove 1), [contains] raises TypeError on it
    instead of answering false. *)
Theorem round_trip_raises :
  exists s : @state Z Z,
    perform_all 20 (map insert [1; 2; 3; 4]) empty_tree = Ok tt s /\
    perform_all 20 (map Remove [1; 2; 3; 4]) s = Raise AttributeError s /\
    _root s <> None /\
    exists s1 : @state Z Z,
      perform_all 20 [insert 1; Remove 1] empty_tree = Ok tt s1 /\
      _root s1 = None /\
      contains 20 1 s1 = Raise TypeError s1.
Proof.
  eexists. split; [evaluate|].
  split; [evaluate|].
  split; [vm_compute; discriminate|].
  eexists. evaluate_each.
Qed.

(** C4 (fails on the code).  For every integer key and value: adding it
    to the empty tree gives a single-node tree, removing the key makes
    the tree empty ([_root] is [None]), and [contains] on that empty
    tree then raises TypeError: [find_node] returns the bare sentinel
    there and [contains] subscripts it. *)
Theorem contains_after_sole_removal (key : Z) (value : option Z)
    (fuel fuel' : nat) :
  exists s s' : @state Z Z,
    add fuel key value empty_tree = Ok tt s /\
    tree_of 2 s = Some (Node Leaf 1%nat key Leaf) /\
    remove_key (S fuel) key s = Ok tt s' /\
    _root s' = None /\
    contains fuel' key s' = Raise TypeError s'.
Proof.
  do 2 eexists.
  split; [reflexivity|].
  split; [reflexivity|].
  split.
  { (* the lookup compares [key] with itself, then [node == self._root]
       compares the two keys with [==] *)
    cbv -[Z.eqb Z.ltb Z.eq_dec]. rewrite Z.eqb_refl.
    change (0 =? 2) with false.
    cbv -[Z.eqb Z.ltb Z.eq_dec].
    destruct (Z.eq_dec key key) as [_|Hne]; [|congruence].
    reflexivity. }
  split; reflexivity.
Qed.

(** C5 (fails on the code).  [in_order] on the single-node tree lists
    three rows: the sentinel, the node, the sentinel again ([if node:]
    holds for the sentinel object).  And on the store reached by adding
    1 to 6 and removing 6 and 1, iteration yields the keys 3, 4, 2,
    3, ...: not in order, and without end. *)
Theorem in_order_lists_the_sentinel :
  exists s : @state Z Z,
    perform_all 20 [insert 1] empty_tree = Ok tt s /\
    in_order 20 (_root s) s =
      Ok [(None, [None], None, NIL);
          (Some 1, [Some 1], None, black);
          (None, [None], None, NIL)] s /\
    exists s' : @state Z Z,
      perform_all 20 (map insert (ascending 6) ++ [Remove 6; Remove 1])
        empty_tree = Ok tt s' /\
      RedBlackTree__iter__ 20 4 s' =
        Ok [(black, Some 3, [Some 3]); (black, Some 4, [Some 4]);
            (black, Some 2, [Some 2]); (black, Some 3, [Some 3])] s'.
Proof.
  eexists. split; [evaluate|].
  split; [evaluate|].
  eexists. evaluate_each.
Qed.

(** C9 (fails on the code).  On the sentinel [is_set_correctly] returns
    a tuple of length one, so on the root of a (valid) single-node tree
    the recursive call's result cannot be unpacked into two names and
    the check ends in ValueError instead of returning a pair. *)
Theorem is_set_correctly_cannot_unpack :
  exists s : @state Z Z,
    perform_all 20 [insert 1] empty_tree = Ok tt s /\
    red_black 10 s = true /\
    is_set_correctly 20 (Some NIL_NODE) s = Ok (Tuple1 true) s /\
    is_set_correctly 20 (_root s) s = Raise ValueError s.
Proof.
  eexists. evaluate_each.
Qed.

(** C8.  Inserting 1, 2, ..., 7 in ascending order into an empty tree
    with the default functions: after each insertion ([n] keys in, for
    every [n] up to 7) the tree is well shaped, it holds exactly the
    keys 1, ..., [n] (in order, one node each), and its height, the
    number of edges on the longest path from the root down to a node,
    is at most 3; the longest such path has fewer than 7 nodes, so the
    tree is never a linked list.  Counted in nodes that path has 4 of
    them once 6 keys are in. *)
Theorem ascending_inserts_height (n : nat) :
  (n <= 7)%nat ->
  exists (s : @state Z Z) t,
    perform_all 20 (map insert (ascending n)) empty_tree = Ok tt s /\
    tree_of 10 s = Some t /\
    keys t = ascending n /\
    height t <= 3 /\
    levels t < 7 /\
    ((6 <= n)%nat -> levels t = 4).
Proof.
  intros Hn.
  do 8 (destruct n as [|n];
        [do 2 eexists; split; [evaluate|];
         split; [evaluate|]; split; [evaluate|];
         split; [vm_compute; discriminate|];
         split; [vm_compute; reflexivity|];
         intros H6; first [exfalso; lia | evaluate]|]).
  lia.
Qed.

(** ** The theorems at concrete inputs *)

Lemma remove_key_absent_unchanged_witness :
  exists s : @state Z Z,
    perform_all 20 (map insert [1; 2; 3]) empty_tree = Ok tt s /\
    unchanged (remove_key 20 5 s) s /\
    (_root s <> None -> remove_key 20 5 s = Ok tt s).
Proof.
  eexists. split; [evaluate|].
  eapply (remove_key_absent_unchanged 5 20);
    [evaluate | evaluate | lia | lia].
Defined.

Lemma remove_value_absent_raises_witness :
  exists s : @state Z Z,
    perform_all 20 (map insert [1; 2; 3]) empty_tree = Ok tt s /\
    remove_value 20 5 (Some 5) s = Raise AttributeError s /\
    remove_key 20 5 s = Ok tt s.
Proof.
  eexists. split; [evaluate|].
  eapply (remove_value_absent_raises 5 20);
    [vm_compute; discriminate | evaluate | evaluate | lia].
Defined.

Lemma add_invalid_key_witness :
  @_key_validator_function Z nonnegative_keys (-1) = false /\
  @add Z Z _ nonnegative_keys 20 (-1) (Some 7) empty_tree
    = Raise (Exception (CouldNotValidateKey (-1))) empty_tree.
Proof.
  split; [reflexivity|].
  apply (@add_invalid_key Z Z _ nonnegative_keys 20 empty_tree (-1) (Some 7)).
  reflexivity.
Defined.

Lemma ascending_inserts_height_witness :
  (7 <= 7)%nat /\
  exists (s : @state Z Z) t,
    perform_all 20 (map insert (ascending 7)) empty_tree = Ok tt s /\
    tree_of 10 s = Some t /\
    keys t = ascending 7 /\
    height t <= 3 /\
    levels t < 7 /\
    ((6 <= 7)%nat -> levels t = 4).
Proof.
  split; [lia|]. apply (ascending_inserts_height 7). lia.
Defined.

(** * Further properties of the module *)

Section Lookup.
Context {K V : Type} `{EqDecision K} `{EqDecision V} `{KeyFunctions K}.
Implicit Types (s : @state K V) (key : K) (value : option V).

(** ** Computations that never write *)

Lemma read_only_ret {A} (a : A) : @read_only K V _ (ret a).
Proof. intros s. reflexivity. Qed.

Lemma read_only_raise {A} e : @read_only K V A (raise e).
Proof. intros s. reflexivity. Qed.

Lemma read_only_out_of_fuel {A} : @read_only K V A out_of_fuel.
Proof. intros s. exact I. Qed.

Lemma read_only_attr {A} (f : RBNode -> A) o : @read_only K V _ (attr f o).
Proof. intros s. destruct o; reflexivity. Qed.

Lemma read_only_py_eq a b : @read_only K V _ (py_eq a b).
Proof. intros s. reflexivity. Qed.

Lemma read_only_get_root : @read_only K V _ get_root.
Proof. intros s. reflexivity. Qed.

Lemma read_only_bind {A B} (m : M A) (k : A -> M B) :
  @read_only K V _ m -> (forall a, @read_only K V _ (k a)) ->
  @read_only K V _ (bind m k).
Proof.
  intros Hm Hk s. unfold bind. specialize (Hm s).
  destruct (m s) as [a s'| |]; subst; [apply Hk|reflexivity|exact I].
Qed.

Lemma read_only_with_key {A} o (f : K -> M A) :
  (forall k, @read_only K V _ (f k)) -> @read_only K V _ (with_key o f).
Proof. intros Hf. destruct o; [apply Hf|apply read_only_raise]. Qed.

Lemma read_only_if {A} (b : bool) (m1 m2 : M A) :
  @read_only K V _ m1 -> @read_only K V _ m2 ->
  @read_only K V _ (if b then m1 else m2).
Proof. destruct b; auto. Qed.

Ltac read_only_step :=
  first
    [ apply read_only_ret
    | apply read_only_raise
    | apply read_only_out_of_fuel
    | apply read_only_attr
    | apply read_only_py_eq
    | apply read_only_get_root
    | apply read_only_with_key; intros ?
    | apply read_only_bind; [|intros ?]
    | apply read_only_if ].

Lemma read_only_inner_find fuel : forall key to_nil o,
  @read_only K V _ (inner_find fuel key to_nil o).
Proof.
  induction fuel as [|fuel IH]; intros key to_nil o; simpl.
  - apply read_only_out_of_fuel.
  - destruct o as [a|]; [|apply read_only_ret].
    repeat read_only_step; try apply IH.
Qed.

Lemma read_only_find_node fuel key to_nil :
  @read_only K V _ (find_node fuel key to_nil).
Proof.
  unfold find_node. apply read_only_bind; [apply read_only_get_root|].
  intros [r|]; [apply read_only_inner_find|apply read_only_ret].
Qed.

Lemma read_only_subscript0 r : @read_only K V _ (subscript0 r).
Proof. destruct r; simpl; repeat read_only_step. Qed.

(** X1.  Lookups never write: whatever the store, the key and the fuel,
    [find_node], [contains] and [__getitem__] end (if they end) with the
    store they started from. *)
Theorem lookups_do_not_write fuel key to_nil :
  @read_only K V _ (find_node fuel key to_nil) /\
  @read_only K V _ (contains fuel key) /\
  @read_only K V _ (__getitem__ fuel key).
Proof.
  split; [apply read_only_find_node|]. split.
  - unfold contains.
    apply read_only_bind; [apply read_only_find_node|intros r].
    apply read_only_bind; [apply read_only_subscript0|intros n].
    apply read_only_ret.
  - unfold __getitem__.
    apply read_only_bind; [apply read_only_find_node|intros r].
    apply read_only_subscript0.
Qed.

(** ** The descent of [find_node] *)

Lemma to_tree_node n s a l b k r :
  to_tree n s (Some a) = Some (Node l b k r) ->
  exists m, n = S m /\ b = a /\ a <> NIL_NODE /\
    _color (deref s a) <> NIL /\ _key (deref s a) = Some k /\
    to_tree m s (_left (deref s a)) = Some l /\
    to_tree m s (_right (deref s a)) = Some r.
Proof.
  destruct n as [|m]; [discriminate|]. simpl.
  destruct (bool_decide (a = NIL_NODE)) eqn:Ha; [discriminate|].
  destruct (bool_decide (_color (deref s a) = NIL)) eqn:Hc; [discriminate|].
  destruct (_key (deref s a)) as [k'|]; [|discriminate].
  destruct (to_tree m s (_left (deref s a))) as [l'|] eqn:Hl;
    [|discriminate].
  destruct (to_tree m s (_right (deref s a))) as [r'|] eqn:Hr;
    [|discriminate].
  intros [= <- <- <- <-]. exists m.
  apply bool_decide_eq_false in Ha, Hc.
  repeat apply conj; auto.
Qed.

Lemma to_tree_leaf n s o :
  to_tree n s o = Some Leaf -> o = Some NIL_NODE.
Proof.
  destruct n as [|m]; [discriminate|]. simpl.
  destruct o as [a|]; [|discriminate].
  destruct (bool_decide (a = NIL_NODE)) eqn:Ha.
  - apply bool_decide_eq_true in Ha. congruence.
  - destruct (bool_decide (_color (deref s a) = NIL)); [discriminate|].
    destruct (_key (deref s a)); [|discriminate].
    destruct (to_tree m s (_left (deref s a))); [|discriminate].
    destruct (to_tree m s (_right (deref s a))); discriminate.
Qed.

Lemma to_tree_some n s o t : to_tree n s o = Some t -> exists a, o = Some a.
Proof.
  destruct n; [discriminate|]. destruct o; [eauto|discriminate].
Qed.

Lemma inner_find_search n : forall s o t key,
  sentinel_ok s = true -> to_tree n s o = Some t ->
  inner_find n key false o s = Ok (FTuple (search key t) None) s.
Proof.
  induction n as [|n IH]; intros s o t key Hs Ht; [discriminate|].
  destruct (to_tree_some _ _ _ _ Ht) as [a ->].
  destruct t as [|l b k r].
  - apply to_tree_leaf in Ht as [= ->].
    cbn [inner_find]. unfold bind at 1. unfold py_eq at 1.
    rewrite (eq_sentinel_self s Hs). reflexivity.
  - apply to_tree_node in Ht as (m & [= <-] & -> & Ha & Hc & Hk & Hl & Hr).
    cbn [inner_find]. unfold bind at 1. unfold py_eq at 1.
    rewrite (eq_sentinel_real s a Hs Hc).
    unfold bind, attr. rewrite Hk. unfold with_key. simpl.
    destruct (_key_equals_function key k); [reflexivity|].
    destruct (_key_comparator_function key k); simpl; unfold ret.
    + eapply IH; eassumption.
    + eapply IH; eassumption.
Qed.

Lemma search_some_node key t a : search key t = Some a -> t <> Leaf.
Proof. destruct t; [discriminate|discriminate]. Qed.

Lemma child_not_sentinel n s o t :
  sentinel_ok s = true -> to_tree n s o = Some t -> t <> Leaf ->
  exists a, o = Some a /\ RBNode__eq__ s a NIL_NODE = false.
Proof.
  intros Hs Ht Hne. destruct (to_tree_some _ _ _ _ Ht) as [a ->].
  destruct t as [|l b k r]; [congruence|].
  apply to_tree_node in Ht as (m & _ & _ & _ & Hc & _).
  exists a. split; [reflexivity|]. apply eq_sentinel_real; assumption.
Qed.

Lemma inner_find_search_to_nil n : forall s o t key a,
  sentinel_ok s = true -> to_tree n s o = Some t ->
  search key t = Some a ->
  inner_find n key true o s = Ok (FTuple (Some a) None) s.
Proof.
  induction n as [|n IH]; intros s o t key a0 Hs Ht Hsearch; [discriminate|].
  destruct (to_tree_some _ _ _ _ Ht) as [a ->].
  destruct t as [|l b k r]; [discriminate|].
  apply to_tree_node in Ht as (m & [= <-] & -> & Ha & Hc & Hk & Hl & Hr).
  cbn [inner_find]. unfold bind at 1. unfold py_eq at 1.
  rewrite (eq_sentinel_real s a Hs Hc).
  unfold bind at 1. unfold attr at 1. rewrite Hk. unfold with_key.
  simpl in Hsearch.
  destruct (_key_equals_function key k);
    [injection Hsearch as <-; reflexivity|].
  destruct (_key_comparator_function key k); simpl in *.
  - destruct (child_not_sentinel _ _ _ _ Hs Hl (search_some_node _ _ _ Hsearch))
      as (c & Hc' & Hne).
    unfold bind, attr, py_eq. rewrite Hc', Hne.
    rewrite <- Hc'. eapply IH; eassumption.
  - destruct (child_not_sentinel _ _ _ _ Hs Hr (search_some_node _ _ _ Hsearch))
      as (c & Hc' & Hne).
    unfold bind, attr, py_eq. rewrite Hc', Hne.
    rewrite <- Hc'. eapply IH; eassumption.
Qed.

Lemma search_present key t a : search key t = Some a -> present key t = true.
Proof.
  unfold present. induction t as [|l IHl b k r IHr]; simpl; [discriminate|].
  rewrite !existsb_app. simpl.
  destruct (_key_equals_function key k) eqn:Hk.
  - intros _. rewrite orb_true_r. reflexivity.
  - destruct (_key_comparator_function key k); simpl; intros Hs.
    + rewrite (IHl Hs). reflexivity.
    + rewrite (IHr Hs), !orb_true_r. reflexivity.
Qed.

Lemma present_search key t :
  (forall a b c, _key_equals_function a b = true ->
     _key_comparator_function a c = _key_comparator_function b c) ->
  ordered t = true -> present key t = true -> search key t <> None.
Proof.
  intros Hcompat. unfold present.
  induction t as [|l IHl b k r IHr]; simpl; [discriminate|].
  rewrite !existsb_app. simpl.
  intros Hord Hp.
  apply andb_prop in Hord as [Hord Hordr].
  apply andb_prop in Hord as [Hord Hordl].
  apply andb_prop in Hord as [Hl Hr].
  destruct (_key_equals_function key k) eqn:Hk; [discriminate|].
  rewrite orb_false_l in Hp.
  apply orb_prop in Hp as [Hp|Hp].
  - apply existsb_exists in Hp as (k0 & Hin & Heq).
    rewrite forallb_forall in Hl.
    rewrite (Hcompat _ _ k Heq), (Hl _ Hin). simpl.
    apply IHl; [assumption|]. apply existsb_exists. eauto.
  - apply existsb_exists in Hp as (k0 & Hin & Heq).
    rewrite forallb_forall in Hr. specialize (Hr _ Hin).
    rewrite (Hcompat _ _ k Heq).
    destruct (_key_comparator_function k0 k); [discriminate|]. simpl.
    apply IHr; [assumption|]. apply existsb_exists. eauto.
Qed.

(** X2.  On a non-empty well-shaped tree whose keys are in search order,
    and with an equality function that the comparator respects,
    [contains] returns True exactly for the keys present in the tree
    (and False for every other key). *)
Theorem contains_iff_present n fuel s t key :
  (forall a b c, _key_equals_function a b = true ->
     _key_comparator_function a c = _key_comparator_function b c) ->
  _root s <> None -> tree_of n s = Some t -> ordered t = true ->
  (n <= fuel)%nat ->
  contains fuel key s = Ok (present key t) s.
Proof.
  intros Hcompat Hne Ht Hord Hle.
  pose proof (tree_of_sentinel _ _ _ Ht) as Hs.
  pose proof (tree_of_root _ _ _ Ht Hne) as Hroot.
  unfold contains, find_node, bind, get_root.
  destruct (_root s) as [r|] eqn:Hr; [|congruence].
  rewrite (inner_find_search fuel s (Some r) t key Hs
             (to_tree_mono _ _ _ _ _ Hroot Hle)).
  simpl. unfold ret. f_equal.
  destruct (search key t) as [a|] eqn:Hsearch.
  - rewrite (search_present _ _ _ Hsearch).
    apply bool_decide_eq_true_2. discriminate.
  - destruct (present key t) eqn:Hp.
    + exfalso. exact (present_search key t Hcompat Hord Hp Hsearch).
    + apply bool_decide_eq_false_2. intros Hx. apply Hx. reflexivity.
Qed.

(** X3.  Whatever the store: a node that [find_node] returns for a key
    carries a key which the equality function matches with the searched
    one.  So [contains] never answers True for a key that matches no
    node. *)
Theorem find_node_returns_a_match fuel key s s' a d :
  find_node fuel key false s = Ok (FTuple (Some a) d) s' ->
  d = None /\ exists k, _key (deref s a) = Some k /\
                       _key_equals_function key k = true.
Proof.
  unfold find_node, bind, get_root.
  destruct (_root s) as [r|]; [|discriminate].
  generalize (Some r). clear r.
  induction fuel as [|fuel IH]; intros o; [discriminate|].
  cbn [inner_find]. destruct o as [b|]; [|discriminate].
  unfold bind at 1. unfold py_eq at 1.
  destruct (RBNode__eq__ s b NIL_NODE); [discriminate|].
  unfold bind at 1. unfold attr at 1.
  destruct (_key (deref s b)) as [k|] eqn:Hk; [|discriminate].
  unfold with_key.
  destruct (_key_equals_function key k) eqn:Heq.
  - intros [= <- <- <-]. eauto.
  - destruct (_key_comparator_function key k); simpl.
    + unfold bind, attr, ret. apply IH.
    + unfold bind, attr, ret. apply IH.
Qed.

(** ** Stores that hold the same tree *)

Lemma to_tree_ext n : forall s s' o,
  (forall b, _key (deref s' b) = _key (deref s b) /\
             _color (deref s' b) = _color (deref s b) /\
             _left (deref s' b) = _left (deref s b) /\
             _right (deref s' b) = _right (deref s b)) ->
  to_tree n s' o = to_tree n s o.
Proof.
  induction n as [|n IH]; intros s s' o Hsame; [reflexivity|].
  simpl. destruct o as [a|]; [|reflexivity].
  destruct (Hsame a) as (-> & -> & -> & ->).
  rewrite !(IH s s') by assumption. reflexivity.
Qed.

Lemma deref_alter s (f : RBNode -> RBNode) a b :
  deref (mkState (alter f a (heap s)) (_root s)) b =
  if decide (a = b /\ (a < length (heap s))%nat)
  then f (deref s a) else deref s b.
Proof. unfold deref. simpl. apply list_lookup_total_alter. Qed.

Lemma node_in_range n s a l k r :
  sentinel_ok s = true -> to_tree n s (Some a) = Some (Node l a k r) ->
  (a < length (heap s))%nat.
Proof.
  intros Hs Ht.
  apply to_tree_node in Ht as (m & _ & _ & _ & Hc & _).
  destruct (decide (a < length (heap s))%nat) as [|Hge]; [assumption|].
  exfalso. apply Hc. unfold deref.
  rewrite list_lookup_total_alt, lookup_ge_None_2 by lia. reflexivity.
Qed.

Lemma search_in_tree n : forall s o t key a,
  to_tree n s o = Some t -> search key t = Some a ->
  exists m l k r, to_tree m s (Some a) = Some (Node l a k r).
Proof.
  induction n as [|n IH]; intros s o t key a0 Ht Hsearch; [discriminate|].
  destruct (to_tree_some _ _ _ _ Ht) as [a ->].
  destruct t as [|l b k r]; [discriminate|].
  pose proof Ht as Ht'.
  apply to_tree_node in Ht as (m & [= <-] & -> & Ha & Hc & Hk & Hl & Hr).
  simpl in Hsearch.
  destruct (_key_equals_function key k).
  - injection Hsearch as Heq. subst a0. eauto.
  - destruct (_key_comparator_function key k); simpl in Hsearch.
    + exact (IH _ _ _ _ _ Hl Hsearch).
    + exact (IH _ _ _ _ _ Hr Hsearch).
Qed.

Lemma add_present_run n fuel s t key value a :
  _key_validator_function key = true ->
  _root s <> None -> tree_of n s = Some t -> search key t = Some a ->
  (n <= fuel)%nat ->
  add fuel key value s = Ok tt (with_value s a value) /\
  tree_of n (with_value s a value) = Some t /\
  _values (deref (with_value s a value) a)
    = _values (deref s a) ++ [value] /\
  length (heap (with_value s a value)) = length (heap s).
Proof.
  intros Hv Hne Ht Hsearch Hle.
  pose proof (tree_of_sentinel _ _ _ Ht) as Hs.
  pose proof (tree_of_root _ _ _ Ht Hne) as Hroot.
  destruct (search_in_tree _ _ _ _ _ _ Hroot Hsearch) as (m & l & k & r & Ha).
  pose proof (node_in_range _ _ _ _ _ _ Hs Ha) as Hlt.
  assert (Hsame : forall b,
    _key (deref (with_value s a value) b) = _key (deref s b) /\
    _color (deref (with_value s a value) b) = _color (deref s b) /\
    _left (deref (with_value s a value) b) = _left (deref s b) /\
    _right (deref (with_value s a value) b) = _right (deref s b)).
  { intros b. unfold with_value. rewrite deref_alter.
    destruct (decide _) as [[<- _]|]; auto. }
  repeat apply conj.
  - unfold add. unfold bind at 1. unfold validate_key. rewrite Hv. simpl.
    unfold bind at 1. unfold get_root.
    destruct (_root s) as [r0|] eqn:Hr0; [|congruence].
    unfold bind at 1. unfold find_node, bind at 1, get_root. rewrite Hr0.
    rewrite (inner_find_search_to_nil fuel s (Some r0) t key a Hs
               (to_tree_mono _ _ _ _ _ Hroot Hle) Hsearch).
    unfold bind, unpack2, ret, attr, set_values, setattr, with_value.
    simpl. f_equal. f_equal.
    apply list_alter_ext; [|reflexivity].
    intros x Hx. unfold deref.
    rewrite (list_lookup_total_correct _ _ _ Hx). reflexivity.
  - unfold tree_of in *.
    assert (Hs' : sentinel_ok (with_value s a value) = sentinel_ok s).
    { unfold sentinel_ok.
      destruct (Hsame NIL_NODE) as (-> & -> & -> & ->). reflexivity. }
    rewrite Hs'. simpl (_root (with_value s a value)).
    destruct (sentinel_ok s); [|discriminate].
    destruct (_root s); [|assumption].
    rewrite (to_tree_ext n s (with_value s a value)) by assumption.
    assumption.
  - unfold with_value. rewrite deref_alter.
    rewrite decide_True by auto. reflexivity.
  - unfold with_value. simpl. apply length_alter.
Qed.


End Lookup.

Section EdgeCases.
Context {K V : Type} `{EqDecision K} `{EqDecision V} `{KeyFunctions K}.
Implicit Types (s : @state K V) (key : K) (value : option V).

(** X5.  On an empty tree (no root, sentinel as built) every operation
    that looks a key up raises and leaves the store as it is:
    [contains] and [__getitem__] a TypeError (they subscript the bare
    sentinel that [find_node] returns), [remove_key], [remove_value] and
    [update_key] an AttributeError (they unpack it).  Iterating yields
    nothing. *)
Theorem empty_tree_operations fuel want key value new_key s :
  _root s = None -> sentinel_ok s = true ->
  contains fuel key s = Raise TypeError s /\
  __getitem__ fuel key s = Raise TypeError s /\
  remove_key (S fuel) key s = Raise AttributeError s /\
  remove_value (S fuel) key value s = Raise AttributeError s /\
  update_key (S fuel) key value new_key s = Raise AttributeError s /\
  RedBlackTree__iter__ fuel want s = Ok [] s.
Proof.
  intros Hroot Hs.
  assert (Hfind : forall f to_nil,
            find_node f key to_nil s = Ok (FNode NIL_NODE) s).
  { intros f to_nil. unfold find_node, bind, get_root. rewrite Hroot.
    reflexivity. }
  assert (Hrv : remove_value (S fuel) key value s = Raise AttributeError s).
  { unfold remove_value. unfold bind at 1. rewrite Hfind.
    unfold bind at 1. rewrite (unpack_sentinel fuel s Hs). reflexivity. }
  repeat apply conj.
  - unfold contains. unfold bind at 1. rewrite Hfind. reflexivity.
  - unfold __getitem__. unfold bind at 1. rewrite Hfind. reflexivity.
  - unfold remove_key. unfold bind at 1. rewrite Hfind.
    unfold bind at 1. rewrite (unpack_sentinel fuel s Hs). reflexivity.
  - exact Hrv.
  - unfold update_key. unfold bind at 1. rewrite Hrv. reflexivity.
  - unfold RedBlackTree__iter__, bind, get_root. rewrite Hroot. reflexivity.
Qed.

(** X6.  [update_key] with a key that is absent from a non-empty tree
    raises AttributeError in its removal step; the store is untouched,
    so the value is not added under the new key either. *)
Theorem update_key_absent_raises n fuel s t key value new_key :
  _root s <> None -> tree_of n s = Some t -> present key t = false ->
  (n <= fuel)%nat ->
  update_key fuel key value new_key s = Raise AttributeError s.
Proof.
  intros Hne Ht Hp Hle.
  pose proof (tree_of_sentinel _ _ _ Ht) as Hs.
  pose proof (find_node_absent n fuel s t key Hs Hne
                (tree_of_root _ _ _ Ht Hne) Hp Hle) as Hfind.
  unfold update_key. unfold bind at 1.
  unfold remove_value. unfold bind at 1. rewrite Hfind. reflexivity.
Qed.

(** X7.  [del tree[key]] on a non-empty tree, for a key that is absent:
    when the validator accepts the key nothing happens and the call
    returns; when it rejects the key the call raises the validation
    exception.  The store is the same either way. *)
Theorem delitem_absent n fuel s t key :
  _root s <> None -> tree_of n s = Some t -> present key t = false ->
  (n <= fuel)%nat ->
  __delitem__ fuel key s =
    if _key_validator_function key then Ok tt s
    else Raise (Exception (CouldNotValidateKey key)) s.
Proof.
  intros Hne Ht Hp Hle.
  pose proof (tree_of_sentinel _ _ _ Ht) as Hs.
  pose proof (find_node_absent n fuel s t key Hs Hne
                (tree_of_root _ _ _ Ht Hne) Hp Hle) as Hfind.
  unfold __delitem__. unfold bind at 1. unfold validate_key.
  destruct (_key_validator_function key); simpl; [|reflexivity].
  unfold remove_key. unfold bind at 1. rewrite Hfind. reflexivity.
Qed.

End EdgeCases.

Section Traversal.
Context {K V : Type} `{EqDecision K} `{EqDecision V} `{KeyFunctions K}.
Implicit Types (s : @state K V) (key : K) (value : option V).

Lemma sentinel_right s :
  sentinel_ok s = true -> _right (deref s NIL_NODE) = None.
Proof.
  unfold sentinel_ok. intros Hs.
  repeat (apply andb_prop in Hs; destruct Hs as [Hs ?]).
  match goal with H : bool_decide (_right _ = None) = true |- _ =>
    by apply bool_decide_eq_true in H end.
Qed.

Lemma sentinel_key s :
  sentinel_ok s = true -> _key (deref s NIL_NODE) = None.
Proof.
  unfold sentinel_ok. intros Hs.
  apply andb_prop in Hs as [_ Hs].
  destruct (_key (deref s NIL_NODE)); [discriminate|reflexivity].
Qed.

Lemma in_order_rows n : forall fuel s o t,
  sentinel_ok s = true -> to_tree n s o = Some t -> (n < fuel)%nat ->
  in_order fuel o s = Ok (rows s t) s.
Proof.
  induction n as [|n IH]; intros fuel s o t Hs Ht Hlt; [discriminate|].
  destruct fuel as [|fuel]; [lia|].
  destruct (to_tree_some _ _ _ _ Ht) as [a ->].
  destruct t as [|l b k r].
  - apply to_tree_leaf in Ht as [= ->].
    destruct fuel as [|fuel]; [lia|].
    cbn [in_order]. unfold bind, attr, ret.
    rewrite (sentinel_left s Hs), (sentinel_right s Hs). reflexivity.
  - apply to_tree_node in Ht as (m & [= <-] & -> & Ha & Hc & Hk & Hl & Hr).
    cbn [in_order]. unfold bind at 1. unfold attr at 1.
    unfold bind at 1. rewrite (IH fuel s _ l Hs Hl) by lia.
    unfold bind, attr.
    rewrite (IH fuel s _ r Hs Hr) by lia. reflexivity.
Qed.

Lemma rows_length s t : length (rows s t) = (2 * size t + 1)%nat.
Proof.
  induction t as [|l IHl a k r IHr]; simpl; [reflexivity|].
  rewrite length_app. simpl. lia.
Qed.

Lemma omap_cons_match {A B} (f : A -> option B) x l :
  omap f (x :: l) =
  match f x with Some y => y :: omap f l | None => omap f l end.
Proof. reflexivity. Qed.

Lemma rows_keys n : forall s o t,
  sentinel_ok s = true -> to_tree n s o = Some t ->
  omap (fun r : row => fst (fst (fst r))) (rows s t) = keys t.
Proof.
  induction n as [|n IH]; intros s o t Hs Ht; [discriminate|].
  destruct (to_tree_some _ _ _ _ Ht) as [a ->].
  destruct t as [|l b k r].
  - simpl. unfold row_of. simpl. rewrite (sentinel_key s Hs). reflexivity.
  - apply to_tree_node in Ht as (m & [= <-] & -> & Ha & Hc & Hk & Hl & Hr).
    change (rows s (Node l a k r))
      with (rows s l ++ row_of s a :: rows s r).
    change (keys (Node l a k r)) with (keys l ++ k :: keys r).
    rewrite omap_app, omap_cons_match. unfold row_of at 1. simpl fst.
    rewrite Hk.
    rewrite (IH s _ l Hs Hl), (IH s _ r Hs Hr). reflexivity.
Qed.

(** X8.  [in_order] on the root of a non-empty well-shaped tree of [n]
    nodes returns [2n + 1] rows: the rows of the nodes from left to
    right, with a row for the sentinel at every missing child.  The keys
    of the rows that have one are the keys of the tree, in order. *)
Theorem in_order_of_tree n fuel s t :
  _root s <> None -> tree_of n s = Some t -> (n < fuel)%nat ->
  in_order fuel (_root s) s = Ok (rows s t) s /\
  length (rows s t) = (2 * size t + 1)%nat /\
  omap (fun r : row => fst (fst (fst r))) (rows s t) = keys t.
Proof.
  intros Hne Ht Hlt.
  pose proof (tree_of_sentinel _ _ _ Ht) as Hs.
  pose proof (tree_of_root _ _ _ Ht Hne) as Hroot.
  repeat apply conj.
  - eapply in_order_rows; eassumption.
  - apply rows_length.
  - eapply rows_keys; eassumption.
Qed.

Lemma repr_of_node s a :
  RBNode__repr__ (Some a) s = Ok (repr_of s a) s.
Proof. reflexivity. Qed.

Lemma iter_step fuel want s o (l : tree) m :
  sentinel_ok s = true -> to_tree m s o = Some l ->
  (forall a, o = Some a -> l <> Leaf ->
     RBNode__iter__ fuel want o s
       = Ok (take want (map (repr_of s) (refs l))) s) ->
  exists a, o = Some a /\
    (if bool_decide (_color (deref s a) <> NIL)
     then RBNode__iter__ fuel want o else ret []) s
      = Ok (take want (map (repr_of s) (refs l))) s.
Proof.
  intros Hs Ht Hrec.
  destruct (to_tree_some _ _ _ _ Ht) as [a ->].
  exists a. split; [reflexivity|].
  destruct l as [|l' b k r'].
  - apply to_tree_leaf in Ht as [= ->].
    rewrite (sentinel_color s Hs).
    rewrite bool_decide_eq_false_2 by auto.
    simpl. rewrite take_nil. reflexivity.
  - apply to_tree_node in Ht as (m' & _ & _ & _ & Hc & _).
    rewrite bool_decide_eq_true_2 by assumption.
    apply (Hrec a); [reflexivity|discriminate].
Qed.

Lemma iter_tree n : forall fuel want s a t,
  sentinel_ok s = true -> to_tree n s (Some a) = Some t -> t <> Leaf ->
  (n <= fuel)%nat ->
  RBNode__iter__ fuel want (Some a) s
    = Ok (take want (map (repr_of s) (refs t))) s.
Proof.
  induction n as [|n IH]; intros fuel want s a t Hs Ht Hne Hle;
    [discriminate|].
  destruct t as [|l b k r]; [congruence|].
  apply to_tree_node in Ht as (m & [= <-] & -> & Ha & Hc & Hk & Hl & Hr).
  destruct fuel as [|fuel]; [lia|].
  cbn [RBNode__iter__].
  destruct (want =? 0)%nat eqn:Hw.
  { apply Nat.eqb_eq in Hw. subst want. reflexivity. }
  apply Nat.eqb_neq in Hw.
  change (refs (Node l a k r)) with (refs l ++ [a] ++ refs r).
  rewrite !map_app.
  set (L := map (repr_of s) (refs l)).
  set (R := map (repr_of s) (refs r)).
  change (map (repr_of s) [a]) with [repr_of s a].
  destruct (iter_step fuel want s _ l n Hs Hl) as (al & Hal & Hxs).
  { intros c Hc' Hnl. rewrite Hc' in *.
    apply (IH fuel want s c l); [assumption|assumption|assumption|lia]. }
  unfold bind at 1. unfold attr at 1. rewrite Hal.
  unfold bind at 1. unfold attr at 1.
  unfold bind at 1. rewrite <- Hal, Hxs. fold L.
  destruct (want <=? length (take want L))%nat eqn:H1.
  { apply Nat.leb_le in H1. rewrite length_take in H1.
    unfold ret. f_equal. symmetry. apply take_app_le. lia. }
  apply Nat.leb_gt in H1. rewrite length_take in H1.
  assert (HL : (length L < want)%nat) by lia.
  rewrite (take_ge L want) by lia.
  unfold bind at 1. rewrite repr_of_node.
  destruct (want <=? length (L ++ [repr_of s a]))%nat eqn:H2.
  { apply Nat.leb_le in H2. rewrite length_app in H2. simpl in H2.
    unfold ret. f_equal. rewrite take_app_ge by lia.
    replace (want - length L)%nat with 1%nat by lia. reflexivity. }
  apply Nat.leb_gt in H2. rewrite length_app in H2. simpl in H2.
  set (want' := (want - length (L ++ [repr_of s a]))%nat).
  destruct (iter_step fuel want' s _ r n Hs Hr) as (ar & Har & Hys).
  { intros c Hc' Hnl. rewrite Hc' in *.
    apply (IH fuel want' s c r); [assumption|assumption|assumption|lia]. }
  unfold bind at 1. unfold attr at 1. rewrite Har.
  unfold bind at 1. unfold attr at 1.
  unfold bind at 1. rewrite <- Har, Hys. fold R.
  unfold ret. f_equal. rewrite (take_app_ge L) by lia.
  rewrite <- app_assoc. f_equal.
  replace (want - length L)%nat with (S want') by
    (unfold want'; rewrite length_app; simpl; lia).
  reflexivity.
Qed.

Lemma refs_keys n : forall s o t,
  to_tree n s o = Some t ->
  map (fun a => _key (deref s a)) (refs t) = map Some (keys t).
Proof.
  induction n as [|n IH]; intros s o t Ht; [discriminate|].
  destruct (to_tree_some _ _ _ _ Ht) as [a ->].
  destruct t as [|l b k r]; [reflexivity|].
  apply to_tree_node in Ht as (m & [= <-] & -> & Ha & Hc & Hk & Hl & Hr).
  simpl. rewrite !map_app. simpl.
  rewrite (IH s _ l Hl), (IH s _ r Hr), Hk. reflexivity.
Qed.

Lemma refs_colors n : forall s o t,
  to_tree n s o = Some t ->
  Forall (fun a => _color (deref s a) <> NIL) (refs t).
Proof.
  induction n as [|n IH]; intros s o t Ht; [discriminate|].
  destruct (to_tree_some _ _ _ _ Ht) as [a ->].
  destruct t as [|l b k r]; [constructor|].
  apply to_tree_node in Ht as (m & [= <-] & -> & Ha & Hc & Hk & Hl & Hr).
  simpl. apply Forall_app. split; [exact (IH s _ l Hl)|].
  constructor; [assumption|exact (IH s _ r Hr)].
Qed.

Lemma iteration_items n fuel want s t :
  _root s <> Some NIL_NODE -> tree_of n s = Some t -> (n <= fuel)%nat ->
  RedBlackTree__iter__ fuel want s
    = Ok (take want (map (repr_of s) (refs t))) s /\
  map (fun a => snd (fst (repr_of s a))) (refs t) = map Some (keys t) /\
  Forall (fun a => fst (fst (repr_of s a)) <> NIL) (refs t).
Proof.
  intros Hreal Ht Hle.
  pose proof (tree_of_sentinel _ _ _ Ht) as Hs.
  unfold RedBlackTree__iter__, bind, get_root.
  destruct (_root s) as [r|] eqn:Hroot.
  - assert (Hne : _root s <> None) by congruence.
    pose proof (tree_of_root _ _ _ Ht Hne) as Htree. rewrite Hroot in Htree.
    repeat apply conj.
    + eapply iter_tree; [assumption|eassumption| |assumption].
      intros ->. apply to_tree_leaf in Htree. congruence.
    + exact (refs_keys _ _ _ _ Htree).
    + exact (refs_colors _ _ _ _ Htree).
  - unfold tree_of in Ht. rewrite Hs, Hroot in Ht. injection Ht as <-.
    repeat apply conj; [simpl; rewrite take_nil; reflexivity
                       |reflexivity|constructor].
Qed.

(** X9.  Iterating a well-shaped tree (empty or not) yields its nodes from left to
    right and nothing else: the first [want] items are the first [want]
    nodes in order, each shown with its colour, key and values.  No
    item is a sentinel, and the keys yielded are the keys of the tree in
    order. *)
Theorem iteration_of_tree n fuel want s t :
  _root s <> Some NIL_NODE -> tree_of n s = Some t -> (n <= fuel)%nat ->
  RedBlackTree__iter__ fuel want s
    = Ok (take want (map (repr_of s) (refs t))) s /\
  map (fun a => snd (fst (repr_of s a))) (refs t) = map Some (keys t) /\
  Forall (fun a => fst (fst (repr_of s a)) <> NIL) (refs t).
Proof. apply iteration_items. Qed.

End Traversal.

Section Validation.
Context {K V : Type} `{EqDecision K} `{EqDecision V} `{KeyFunctions K}.
Implicit Types (s : @state K V) (key : K) (value : option V).

Lemma bind_Ok {A B} (m : @M K V A) (k : A -> M B) s b s' :
  bind m k s = Ok b s' ->
  exists a s1, m s = Ok a s1 /\ k a s1 = Ok b s'.
Proof.
  unfold bind. destruct (m s) as [a s1| |]; [eauto|discriminate..].
Qed.

(** X10.  Whatever the store, [is_set_correctly] on a node object never
    returns a pair that says "valid": when it returns at all, the result
    is one of the two failing pairs [(False, 0)], [(False, -1)], or a
    tuple of length one. *)
Theorem is_set_correctly_never_passes fuel s a r s' :
  is_set_correctly fuel (Some a) s = Ok r s' ->
  r = Tuple2 false 0 \/ r = Tuple2 false (-1) \/ exists b, r = Tuple1 b.
Proof.
  destruct fuel as [|fuel]; [discriminate|]. cbn [is_set_correctly].
  intros Hrun.
  apply bind_Ok in Hrun as (p & s1 & _ & Hrun).
  apply bind_Ok in Hrun as (red_root & s2 & _ & Hrun).
  destruct red_root.
  { injection Hrun as <- _. auto. }
  apply bind_Ok in Hrun as (red & s3 & _ & Hrun).
  apply bind_Ok in Hrun as (red_red & s4 & _ & Hrun).
  destruct red_red.
  { injection Hrun as <- _. auto. }
  apply bind_Ok in Hrun as (rp & s5 & _ & Hrun).
  apply bind_Ok in Hrun as (rr & s6 & _ & Hrun).
  apply bind_Ok in Hrun as ([right_ok gr] & s7 & _ & Hrun).
  apply bind_Ok in Hrun as (lp & s8 & _ & Hrun).
  apply bind_Ok in Hrun as (lr & s9 & _ & Hrun).
  apply bind_Ok in Hrun as ([left_ok gl] & s10 & _ & Hrun).
  injection Hrun as <- _. eauto.
Qed.

Lemma is_set_correctly_sentinel fuel s :
  sentinel_ok s = true ->
  is_set_correctly (S (S fuel)) (Some NIL_NODE) s = Ok (Tuple1 true) s.
Proof.
  intros Hs. cbn [is_set_correctly get_parent_node].
  unfold bind at 1. unfold attr at 1.
  assert (Hred : is_node_red [Some NIL_NODE] s = Ok false s).
  { unfold is_node_red. simpl. unfold bind, attr.
    rewrite (sentinel_color s Hs). reflexivity. }
  assert (Hand : and_ (ret (bool_decide (_parent (deref s NIL_NODE) = None)))
                   (is_node_red [Some NIL_NODE]) s = Ok false s).
  { unfold and_, bind, ret.
    destruct (bool_decide _); [exact Hred|reflexivity]. }
  unfold bind at 1. rewrite Hand.
  unfold bind at 1. rewrite Hred.
  unfold bind at 1. unfold ret at 1.
  unfold bind at 1. unfold attr at 1. rewrite (sentinel_right s Hs).
  unfold bind at 1. unfold ret at 1.
  unfold bind at 1. unfold unpack_check at 1. unfold ret at 1.
  unfold bind at 1. unfold attr at 1. rewrite (sentinel_left s Hs).
  reflexivity.
Qed.

Lemma black_height_node s l a k r h :
  black_height s (Node l a k r) = Some h ->
  black_height s l <> None /\ black_height s r <> None /\
  (_color (deref s a) = RED -> is_red s l = false /\ is_red s r = false).
Proof.
  simpl.
  destruct (black_height s l) as [hl|]; [|discriminate].
  destruct (black_height s r) as [hr|]; [|discriminate].
  destruct ((hl =? hr)%nat &&
            negb (bool_decide (_color (deref s a) = RED) &&
                  (is_red s l || is_red s r))) eqn:Hc; [|discriminate].
  intros _. repeat apply conj; [discriminate|discriminate|].
  intros Hred. apply andb_prop in Hc as [_ Hc].
  rewrite (bool_decide_eq_true_2 _ Hred) in Hc. simpl in Hc.
  apply negb_true_iff, orb_false_elim in Hc. exact Hc.
Qed.

Lemma child_is_red_tree n s o t :
  sentinel_ok s = true -> to_tree n s o = Some t ->
  exists c, o = Some c /\ child_is_red o s = Ok (is_red s t) s.
Proof.
  intros Hs Ht. destruct (to_tree_some _ _ _ _ Ht) as [c ->].
  exists c. split; [reflexivity|].
  unfold child_is_red, is_node_red. simpl. unfold bind, attr, ret.
  destruct t as [|l b k r].
  - apply to_tree_leaf in Ht as [= ->]. rewrite (sentinel_color s Hs).
    reflexivity.
  - apply to_tree_node in Ht as (m & _ & -> & _).
    unfold operator_eq. simpl.
    destruct (bool_decide (RED = _color (deref s c))) eqn:H1;
      destruct (bool_decide (_color (deref s c) = RED)) eqn:H2;
      try reflexivity;
      [apply bool_decide_eq_true in H1; apply bool_decide_eq_false in H2
      |apply bool_decide_eq_false in H1; apply bool_decide_eq_true in H2];
      congruence.
Qed.

Lemma is_set_correctly_raises n : forall fuel s a t p,
  sentinel_ok s = true -> to_tree n s (Some a) = Some t -> t <> Leaf ->
  linked s p t = true -> (is_red s t = true -> p <> None) ->
  black_height s t <> None -> (n < fuel)%nat ->
  is_set_correctly fuel (Some a) s = Raise ValueError s.
Proof.
  induction n as [|n IH]; intros fuel s a t p Hs Ht Hne Hlink Hp Hbh Hlt;
    [discriminate|].
  destruct t as [|l b k r]; [congruence|].
  apply to_tree_node in Ht as (m & [= <-] & -> & Ha & Hc & Hk & Hl & Hr).
  destruct fuel as [|fuel]; [lia|].
  simpl in Hlink.
  apply andb_prop in Hlink as [Hlink Hlr].
  apply andb_prop in Hlink as [Hpar Hll].
  apply bool_decide_eq_true in Hpar.
  destruct (black_height s (Node l a k r)) as [h|] eqn:Hh; [|congruence].
  apply black_height_node in Hh as (Hbl & Hbr & Hrr).
  assert (Hred : is_node_red [Some a] s
                 = Ok (bool_decide (_color (deref s a) = RED)) s).
  { unfold is_node_red. simpl. unfold bind, attr, ret, operator_eq.
    destruct (bool_decide (RED = _color (deref s a))) eqn:H1;
      destruct (bool_decide (_color (deref s a) = RED)) eqn:H2;
      try reflexivity;
      [apply bool_decide_eq_true in H1; apply bool_decide_eq_false in H2
      |apply bool_decide_eq_false in H1; apply bool_decide_eq_true in H2];
      congruence. }
  cbn [is_set_correctly get_parent_node].
  unfold bind at 1. unfold attr at 1. rewrite Hpar.
  assert (Hand : and_ (ret (bool_decide (p = None))) (is_node_red [Some a]) s
                 = Ok false s).
  { unfold and_, bind, ret. destruct (bool_decide (p = None)) eqn:Hpn;
      [|reflexivity].
    apply bool_decide_eq_true in Hpn. rewrite Hred. f_equal.
    apply bool_decide_eq_false_2. intros Hcol. apply Hp; [|assumption].
    simpl. apply bool_decide_eq_true_2. assumption. }
  unfold bind at 1. rewrite Hand.
  unfold bind at 1. rewrite Hred.
  destruct (child_is_red_tree _ _ _ _ Hs Hl) as (cl & Hcl & Hredl).
  destruct (child_is_red_tree _ _ _ _ Hs Hr) as (cr & Hcr & Hredr).
  assert (Hrr' : (if bool_decide (_color (deref s a) = RED)
                  then or_ (bind (attr _left (Some a))
                              (fun l => child_is_red l))
                           (bind (attr _right (Some a))
                              (fun r => child_is_red r))
                  else ret false) s = Ok false s).
  { destruct (bool_decide (_color (deref s a) = RED)) eqn:Hcol;
      [|reflexivity].
    apply bool_decide_eq_true in Hcol. destruct (Hrr Hcol) as [Hnl Hnr].
    unfold or_. unfold bind at 1. unfold bind at 1. unfold attr at 1.
    rewrite Hredl, Hnl. unfold bind, attr. rewrite Hredr, Hnr.
    reflexivity. }
  unfold bind at 1. rewrite Hrr'.
  unfold bind at 1. unfold attr at 1.
  assert (Hright : exists res,
            is_set_correctly fuel (_right (deref s a)) s = res /\
            (res = Raise ValueError s \/ res = Ok (Tuple1 true) s)).
  { eexists. split; [reflexivity|].
    destruct r as [|rl rb rk rrr].
    - right. assert (Hn : (1 <= n)%nat).
      { destruct n; [discriminate|lia]. }
      apply to_tree_leaf in Hr. rewrite Hr.
      destruct fuel as [|[|fuel]]; [lia|lia|].
      apply is_set_correctly_sentinel. assumption.
    - left. rewrite Hcr. rewrite Hcr in Hr.
      apply (IH fuel s cr (Node rl rb rk rrr) (Some a));
        [assumption|assumption|discriminate|assumption
        |discriminate|assumption|lia]. }
  destruct Hright as (res & Hres & [->| ->]);
    unfold bind at 1; rewrite Hres; reflexivity.
Qed.

(** X11.  On every non-empty tree that is a valid red-black tree (root
    black, no RED node with a RED child, equal black heights) and whose
    parent references are in place, [is_set_correctly] raises
    ValueError: it cannot confirm any valid tree. *)
Theorem is_set_correctly_rejects_valid_trees n fuel s t :
  _root s <> None -> _root s <> Some NIL_NODE ->
  tree_of n s = Some t -> linked s None t = true ->
  red_black n s = true -> (n < fuel)%nat ->
  is_set_correctly fuel (_root s) s = Raise ValueError s.
Proof.
  intros Hne Hreal Ht Hlink Hrb Hlt.
  pose proof (tree_of_sentinel _ _ _ Ht) as Hs.
  pose proof (tree_of_root _ _ _ Ht Hne) as Hroot.
  unfold red_black in Hrb. rewrite Ht in Hrb.
  apply andb_prop in Hrb as [Hblack Hbh].
  apply bool_decide_eq_true in Hbh.
  destruct (_root s) as [a|] eqn:Hr; [|congruence].
  apply (is_set_correctly_raises n fuel s a t None); try assumption.
  - intros ->. apply to_tree_leaf in Hroot. congruence.
  - intros Hred. rewrite Hred in Hblack. discriminate.
Qed.

End Validation.

Section Navigation.
Context {K V : Type} `{EqDecision K} `{EqDecision V} `{KeyFunctions K}.
Implicit Types (s : @state K V) (key : K) (value : option V).

Lemma py_ne_child n s o t :
  sentinel_ok s = true -> to_tree n s o = Some t ->
  py_ne o (Some NIL_NODE) s
    = Ok (match t with Leaf => false | Node _ _ _ _ => true end) s.
Proof.
  intros Hs Ht. destruct (to_tree_some _ _ _ _ Ht) as [c ->].
  unfold py_ne, bind, py_eq, ret.
  destruct t as [|l b k r].
  - apply to_tree_leaf in Ht as [= ->].
    rewrite (eq_sentinel_self s Hs). reflexivity.
  - apply to_tree_node in Ht as (m & _ & _ & _ & Hc & _).
    rewrite (eq_sentinel_real s c Hs Hc). reflexivity.
Qed.

Lemma get_minimum_node_leftmost n : forall fuel s a l k r,
  sentinel_ok s = true -> to_tree n s (Some a) = Some (Node l a k r) ->
  (n <= fuel)%nat ->
  get_minimum_node fuel (Some a) s = Ok (Some (leftmost a l)) s.
Proof.
  induction n as [|n IH]; intros fuel s a l k r Hs Ht Hle; [discriminate|].
  apply to_tree_node in Ht as (m & [= <-] & _ & Ha & Hc & Hk & Hl & Hr).
  destruct fuel as [|fuel]; [lia|].
  cbn [get_minimum_node]. unfold bind at 1. unfold attr at 1.
  unfold bind at 1. rewrite (py_ne_child _ _ _ _ Hs Hl).
  destruct l as [|ll lb lk lr]; [reflexivity|].
  unfold bind, attr.
  destruct (to_tree_some _ _ _ _ Hl) as [c Hc'].
  rewrite Hc' in *.
  pose proof Hl as Hl'.
  apply to_tree_node in Hl' as (m' & _ & <- & _).
  simpl. apply (IH fuel s lb ll lk lr); [assumption|assumption|lia].
Qed.

Lemma get_maximum_node_rightmost n : forall fuel s a l k r,
  sentinel_ok s = true -> to_tree n s (Some a) = Some (Node l a k r) ->
  (n <= fuel)%nat ->
  get_maximum_node fuel (Some a) s = Ok (Some (rightmost a r)) s.
Proof.
  induction n as [|n IH]; intros fuel s a l k r Hs Ht Hle; [discriminate|].
  apply to_tree_node in Ht as (m & [= <-] & _ & Ha & Hc & Hk & Hl & Hr).
  destruct fuel as [|fuel]; [lia|].
  cbn [get_maximum_node]. unfold bind at 1. unfold attr at 1.
  unfold bind at 1. rewrite (py_ne_child _ _ _ _ Hs Hr).
  destruct r as [|rl rb rk rr]; [reflexivity|].
  unfold bind, attr.
  destruct (to_tree_some _ _ _ _ Hr) as [c Hc'].
  rewrite Hc' in *.
  pose proof Hr as Hr'.
  apply to_tree_node in Hr' as (m' & _ & <- & _).
  simpl. apply (IH fuel s rb rl rk rr); [assumption|assumption|lia].
Qed.

Lemma head_leftmost a (l : @tree K) k r :
  head (refs (Node l a k r)) = Some (leftmost a l).
Proof.
  revert a k r. induction l as [|ll IHl lb lk lr _]; intros a k r;
    [reflexivity|].
  change (refs (Node (Node ll lb lk lr) a k r))
    with (refs (Node ll lb lk lr) ++ [a] ++ refs r).
  specialize (IHl lb lk lr).
  destruct (refs (Node ll lb lk lr)) as [|x xs]; [discriminate|].
  exact IHl.
Qed.

Lemma last_rightmost a (l : @tree K) k r :
  last (refs (Node l a k r)) = Some (rightmost a r).
Proof.
  revert a k l. induction r as [|rl _ rb rk rr IHr]; intros a k l.
  - simpl. rewrite last_app. reflexivity.
  - change (refs (Node l a k (Node rl rb rk rr)))
      with (refs l ++ [a] ++ refs (Node rl rb rk rr)).
    rewrite !last_app. rewrite (IHr rb rk rl). reflexivity.
Qed.

Lemma extreme_refs n fuel s a t :
  sentinel_ok s = true -> to_tree n s (Some a) = Some t -> t <> Leaf ->
  (n <= fuel)%nat ->
  get_minimum_node fuel (Some a) s = Ok (head (refs t)) s /\
  get_maximum_node fuel (Some a) s = Ok (last (refs t)) s.
Proof.
  intros Hs Ht Hne Hle. destruct t as [|l b k r]; [congruence|].
  pose proof Ht as Ht'.
  apply to_tree_node in Ht' as (m & _ & -> & _).
  rewrite head_leftmost, last_rightmost. split.
  - eapply get_minimum_node_leftmost; eassumption.
  - eapply get_maximum_node_rightmost; eassumption.
Qed.

(** X12.  On the root of a well-shaped (sub)tree, [get_minimum_node]
    returns the node visited first by an in-order walk (the end of the
    left spine) and [get_maximum_node] the node visited last, and they
    change nothing. *)
Theorem extreme_nodes n fuel s a t :
  sentinel_ok s = true -> to_tree n s (Some a) = Some t -> t <> Leaf ->
  (n <= fuel)%nat ->
  get_minimum_node fuel (Some a) s = Ok (head (refs t)) s /\
  get_maximum_node fuel (Some a) s = Ok (last (refs t)) s.
Proof. apply extreme_refs. Qed.

(** X13.  [RBNode.__eq__] is an equivalence on the objects of a store:
    reflexive, symmetric and transitive.  (It compares key, colour and
    the parent's key and colour, so it is coarser than identity.) *)
Theorem node_equality_is_an_equivalence s :
  (forall a, RBNode__eq__ s a a = true) /\
  (forall a b, RBNode__eq__ s a b = RBNode__eq__ s b a) /\
  (forall a b c, RBNode__eq__ s a b = true -> RBNode__eq__ s b c = true ->
                 RBNode__eq__ s a c = true).
Proof.
  unfold RBNode__eq__. repeat apply conj.
  - intros a.
    destruct (_parent (deref s a));
      repeat case_bool_decide; simpl; congruence.
  - intros a b.
    destruct (_parent (deref s a)), (_parent (deref s b));
      repeat case_bool_decide; simpl; congruence.
  - intros a b c.
    destruct (_parent (deref s a)), (_parent (deref s b)),
      (_parent (deref s c));
      intros Hab Hbc;
      repeat (case_bool_decide; simpl in *; try congruence).
Qed.

End Navigation.

(** ** With the default functions on integer keys *)

Lemma default_equals_respects_order (a b c : Z) :
  _key_equals_function a b = true ->
  _key_comparator_function a c = _key_comparator_function b c.
Proof. intros Heq. apply Z.eqb_eq in Heq. subst. reflexivity. Qed.

Lemma ordered_sorted (t : @tree Z) :
  ordered t = true -> StronglySorted Z.le (keys t).
Proof.
  induction t as [|l IHl a k r IHr]; simpl; [constructor|].
  intros Hord.
  apply andb_prop in Hord as [Hord Hordr].
  apply andb_prop in Hord as [Hord Hordl].
  apply andb_prop in Hord as [Hl Hr].
  rewrite forallb_forall in Hl, Hr.
  apply StronglySorted_app_2; [|auto|].
  - intros x1 x2 Hx1 Hx2.
    apply list_elem_of_In, Hl, Z.ltb_lt in Hx1.
    apply elem_of_cons in Hx2 as [->|Hx2]; [lia|].
    apply list_elem_of_In, Hr, negb_true_iff, Z.ltb_ge in Hx2. lia.
  - apply StronglySorted_cons. split; [|auto].
    apply Forall_forall. intros x Hx.
    apply list_elem_of_In, Hr, negb_true_iff, Z.ltb_ge in Hx. lia.
Qed.

(** X14.  With the default comparator, iterating a well-shaped tree
    whose keys are in search order yields the keys of the tree in
    non-decreasing order: the keys of the first [want] items are the
    first [want] keys of the tree, taken from left to right, and each
    of them is at most the next. *)
Theorem iteration_is_sorted n fuel want (s : @state Z Z) t :
  _root s <> Some NIL_NODE -> tree_of n s = Some t -> ordered t = true ->
  (n <= fuel)%nat ->
  exists items,
    RedBlackTree__iter__ fuel want s = Ok items s /\
    length items = Nat.min want (size t) /\
    map (fun i => snd (fst i)) items = map Some (take want (keys t)) /\
    StronglySorted Z.le (take want (keys t)).
Proof.
  intros Hreal Ht Hord Hle.
  destruct (iteration_items n fuel want s t Hreal Ht Hle)
    as (Hiter & Hkeys & _).
  exists (take want (map (repr_of s) (refs t))).
  split; [assumption|]. split; [|split].
  - rewrite length_take, length_map. f_equal.
    clear. induction t as [|l IHl a k r IHr]; [reflexivity|].
    simpl. rewrite length_app. simpl. lia.
  - rewrite <- !List.firstn_map, List.map_map. rewrite <- Hkeys.
    reflexivity.
  - apply (StronglySorted_app_1_l _ _ (drop want (keys t))).
    rewrite take_drop. apply ordered_sorted. assumption.
Qed.

(** X15.  With the default comparator, on a well-shaped subtree in
    search order the node returned by [get_minimum_node] carries the
    smallest key of the subtree and the node returned by
    [get_maximum_node] the largest: both are nodes of the subtree, their
    keys are keys of the subtree, and every key of the subtree lies
    between the two. *)
Theorem extreme_keys n fuel (s : @state Z Z) a t :
  sentinel_ok s = true -> to_tree n s (Some a) = Some t -> t <> Leaf ->
  ordered t = true -> (n <= fuel)%nat ->
  exists lo hi klo khi,
    get_minimum_node fuel (Some a) s = Ok (Some lo) s /\
    get_maximum_node fuel (Some a) s = Ok (Some hi) s /\
    lo ∈ refs t /\ hi ∈ refs t /\
    _key (deref s lo) = Some klo /\ _key (deref s hi) = Some khi /\
    klo ∈ keys t /\ khi ∈ keys t /\
    Forall (fun k => klo <= k <= khi) (keys t).
Proof.
  intros Hs Ht Hne Hord Hle.
  destruct (extreme_refs n fuel s a t Hs Ht Hne Hle) as [Hmin Hmax].
  pose proof (refs_keys _ _ _ _ Ht) as Hkeys.
  pose proof (ordered_sorted t Hord) as Hsorted.
  destruct t as [|l b k r]; [congruence|].
  assert (Hnil : keys (Node l b k r) <> []).
  { simpl. intros Hx. apply app_eq_nil in Hx as [_ Hx]. discriminate. }
  destruct (keys (Node l b k r)) as [|klo ks] eqn:Hks; [congruence|].
  destruct (refs (Node l b k r)) as [|lo rs] eqn:Hrs; [discriminate|].
  injection Hkeys as Hlo Hrest.
  assert (Hlast : exists hi khi, last (lo :: rs) = Some hi /\
            _key (deref s hi) = Some khi /\ last (klo :: ks) = Some khi).
  { assert (Hmap : map (fun a => _key (deref s a)) (lo :: rs)
                   = map Some (klo :: ks)) by (simpl; congruence).
    destruct (last (klo :: ks)) as [khi|] eqn:Hl1.
    2:{ apply last_None in Hl1. discriminate. }
    destruct (last (lo :: rs)) as [hi|] eqn:Hl2.
    2:{ apply last_None in Hl2. discriminate. }
    exists hi, khi. split; [reflexivity|]. split; [|reflexivity].
    apply last_Some in Hl1 as [ks' Hks'].
    apply last_Some in Hl2 as [rs' Hrs'].
    rewrite Hks', Hrs', !map_app in Hmap. simpl in Hmap.
    apply app_inj_tail in Hmap as [_ Hx]. exact Hx. }
  destruct Hlast as (hi & khi & Hhi & Hkhi & Hklast).
  exists lo, hi, klo, khi. rewrite Hhi in Hmax.
  pose proof Hhi as Hhi'. apply last_Some in Hhi' as [rs' Hrs'].
  apply last_Some in Hklast as [ks' Hks'].
  split; [exact Hmin|]. split; [exact Hmax|].
  split; [apply elem_of_cons; auto|].
  split; [rewrite Hrs', elem_of_app, list_elem_of_singleton; auto|].
  split; [assumption|]. split; [assumption|].
  split; [apply elem_of_cons; auto|].
  split; [rewrite Hks', elem_of_app, list_elem_of_singleton; auto|].
  apply Forall_forall. intros x Hx. split.
  - apply StronglySorted_cons in Hsorted as [Hall _].
    apply elem_of_cons in Hx as [->|Hx]; [lia|].
    rewrite Forall_forall in Hall. apply Hall. assumption.
  - rewrite Hks' in Hsorted, Hx.
    apply elem_of_app in Hx as [Hx|Hx].
    + apply (StronglySorted_app_1_elem_of _ _ _ _ _ Hsorted Hx).
      apply list_elem_of_singleton. reflexivity.
    + apply list_elem_of_singleton in Hx. lia.
Qed.


(** * Insertion keeps the tree a red-black search tree *)

Section Layout.
Context {K V : Type} `{EqDecision K} `{EqDecision V} `{KeyFunctions K}.
Implicit Types (s : @state K V) (key : K) (value : option V).
Implicit Types (t l r : @ctree K) (ctx : list (@frame K)).

(** ** Layouts and the executable reading of the store *)

Lemma layout_some s p o t : layout s p o t -> exists a, o = Some a.
Proof. destruct t; simpl; [eauto|]. intros (-> & _). eauto. Qed.

Lemma layout_to_tree s : forall t p o n,
  layout s p o t -> (depth t <= n)%nat ->
  to_tree n s o = Some (erase t).
Proof.
  induction t as [|c l IHl a k r IHr]; intros p o n Hl Hn.
  - simpl in *. subst o. destruct n; [lia|]. reflexivity.
  - simpl in Hl, Hn.
    destruct Hl as (-> & Ha & Hc & Hcn & Hk & Hp & Hll & Hlr).
    destruct n as [|n]; [lia|]. simpl.
    rewrite bool_decide_eq_false_2 by assumption.
    rewrite bool_decide_eq_false_2 by congruence.
    rewrite Hk.
    rewrite (IHl _ _ n Hll), (IHr _ _ n Hlr) by lia. reflexivity.
Qed.

Lemma layout_linked s : forall t p o,
  layout s p o t -> linked s p (erase t) = true.
Proof.
  induction t as [|c l IHl a k r IHr]; intros p o Hl; [reflexivity|].
  simpl in *. destruct Hl as (-> & Ha & Hc & Hcn & Hk & Hp & Hll & Hlr).
  rewrite bool_decide_eq_true_2 by assumption.
  rewrite (IHl _ _ Hll), (IHr _ _ Hlr). reflexivity.
Qed.

Lemma layout_colored s : forall t p o,
  layout s p o t -> colored s (erase t) = t.
Proof.
  induction t as [|c l IHl a k r IHr]; intros p o Hl; [reflexivity|].
  simpl in *. destruct Hl as (-> & Ha & Hc & Hcn & Hk & Hp & Hll & Hlr).
  rewrite Hc, (IHl _ _ Hll), (IHr _ _ Hlr). reflexivity.
Qed.

Lemma to_tree_layout n : forall s o (t : @tree K) p,
  to_tree n s o = Some t -> linked s p t = true ->
  layout s p o (colored s t).
Proof.
  induction n as [|n IH]; intros s o t p Ht Hlink; [discriminate|].
  destruct (to_tree_some _ _ _ _ Ht) as [a ->].
  destruct t as [|l b k r].
  - apply to_tree_leaf in Ht. exact Ht.
  - apply to_tree_node in Ht as (m & [= <-] & -> & Ha & Hc & Hk & Hl & Hr).
    simpl in Hlink.
    apply andb_prop in Hlink as [Hlink Hlr].
    apply andb_prop in Hlink as [Hpar Hll].
    apply bool_decide_eq_true in Hpar.
    simpl. repeat apply conj; auto.
Qed.

Lemma erase_refs t : refs (erase t) = crefs t.
Proof. induction t; simpl; congruence. Qed.

Lemma erase_keys t : keys (erase t) = ckeys t.
Proof. induction t; simpl; congruence. Qed.

Lemma colored_erase s (t : @tree K) : erase (colored s t) = t.
Proof. induction t; simpl; congruence. Qed.

Lemma layout_range s : forall t p o a,
  layout s p o t -> a ∈ crefs t ->
  a <> NIL_NODE /\ (a < length (heap s))%nat.
Proof.
  induction t as [|c l IHl b k r IHr]; intros p o a Hl Hin.
  - simpl in Hin. apply elem_of_nil in Hin. contradiction.
  - simpl in *. destruct Hl as (-> & Ha & Hc & Hcn & Hk & Hp & Hll & Hlr).
    apply elem_of_app in Hin as [Hin|Hin]; [eauto|].
    apply elem_of_cons in Hin as [->|Hin]; [|eauto].
    split; [assumption|].
    destruct (decide (b < length (heap s))%nat) as [|Hge]; [assumption|].
    exfalso. apply Hcn. rewrite <- Hc. unfold deref.
    rewrite list_lookup_total_alt, lookup_ge_None_2 by lia. reflexivity.
Qed.

(** ** Writes *)

Lemma deref_upd_ne a f s b : a <> b -> deref (upd a f s) b = deref s b.
Proof.
  intros Hne. unfold deref, upd. simpl.
  apply list_lookup_total_alter_ne. assumption.
Qed.

Lemma deref_upd_eq a f s :
  (a < length (heap s))%nat -> deref (upd a f s) a = f (deref s a).
Proof.
  intros Hlt. unfold deref, upd. simpl.
  apply list_lookup_total_alter_eq. assumption.
Qed.

Lemma length_upd a f s : length (heap (upd a f s)) = length (heap s).
Proof. unfold upd. simpl. apply length_alter. Qed.

(** ** Stores that agree on a tree *)

Lemma layout_frame s s' : forall t p o,
  layout s p o t ->
  (forall a, a ∈ crefs t -> deref s' a = deref s a) ->
  layout s' p o t.
Proof.
  induction t as [|c l IHl b k r IHr]; intros p o Hl Hsame; [exact Hl|].
  simpl in *. destruct Hl as (-> & Ha & Hc & Hcn & Hk & Hp & Hll & Hlr).
  assert (Hb : deref s' b = deref s b).
  { apply Hsame. apply elem_of_app. right. apply elem_of_cons. auto. }
  rewrite Hb. repeat apply conj; auto.
  - apply IHl; [assumption|]. intros a Ha'. apply Hsame.
    apply elem_of_app. auto.
  - apply IHr; [assumption|]. intros a Ha'. apply Hsame.
    apply elem_of_app. right. apply elem_of_cons. auto.
Qed.

(** The same tree hung under another parent: only the root's [_parent]
    differs (a leaf is the sentinel, whose parent is free). *)
Lemma layout_reparent s s' t p p' o :
  layout s p o t ->
  (forall a, a ∈ crefs t -> Some a <> o -> deref s' a = deref s a) ->
  (forall a, o = Some a -> a <> NIL_NODE ->
     _key (deref s' a) = _key (deref s a) /\
     _color (deref s' a) = _color (deref s a) /\
     _left (deref s' a) = _left (deref s a) /\
     _right (deref s' a) = _right (deref s a) /\
     _parent (deref s' a) = p') ->
  NoDup (crefs t) ->
  layout s' p' o t.
Proof.
  destruct t as [|c l b k r]; intros Hl Hsame Hroot Hnd; [exact Hl|].
  simpl in *. destruct Hl as (-> & Ha & Hc & Hcn & Hk & Hp & Hll & Hlr).
  destruct (Hroot b eq_refl Ha) as (Hk' & Hc' & Hl' & Hr' & Hp').
  rewrite Hk', Hc', Hl', Hr', Hp'.
  apply NoDup_app in Hnd as (Hndl & Hdisj & Hndr).
  apply NoDup_cons in Hndr as [Hbr Hndr].
  repeat apply conj; auto.
  - apply (layout_frame s s' l _ _ Hll). intros a Ha'.
    apply Hsame; [apply elem_of_app; auto|].
    intros [= ->]. apply (Hdisj b Ha'). apply elem_of_cons. auto.
  - apply (layout_frame s s' r _ _ Hlr). intros a Ha'.
    apply Hsame; [apply elem_of_app; right; apply elem_of_cons; auto|].
    intros [= ->]. contradiction.
Qed.

(** ** Contexts *)

Lemma ckeys_plug : forall ctx t,
  ckeys (plug t ctx) = keys_before ctx ++ ckeys t ++ keys_after ctx.
Proof.
  induction ctx as [|[[[[d c] a] k] sib] ctx IH]; intros t; simpl.
  - rewrite app_nil_r. reflexivity.
  - destruct d; rewrite IH; simpl; rewrite <- ?app_assoc; reflexivity.
Qed.

Lemma crefs_plug : forall ctx t,
  crefs (plug t ctx) = refs_before ctx ++ crefs t ++ refs_after ctx.
Proof.
  induction ctx as [|[[[[d c] a] k] sib] ctx IH]; intros t; simpl.
  - rewrite app_nil_r. reflexivity.
  - destruct d; rewrite IH; simpl; rewrite <- ?app_assoc; reflexivity.
Qed.

Lemma ctx_refs_split ctx a :
  a ∈ ctx_refs ctx <-> a ∈ refs_before ctx \/ a ∈ refs_after ctx.
Proof.
  induction ctx as [|[[[[d c] b] k] sib] ctx IH]; simpl.
  - rewrite !elem_of_nil. tauto.
  - destruct d; simpl;
      rewrite ?elem_of_cons, ?elem_of_app, ?elem_of_cons, ?elem_of_app,
        ?elem_of_nil, IH; tauto.
Qed.

Lemma path_frame s s' root : forall ctx o p,
  path s root ctx o p ->
  (forall a, a ∈ ctx_refs ctx -> deref s' a = deref s a) ->
  path s' root ctx o p.
Proof.
  induction ctx as [|[[[[d c] a] k] sib] ctx IH]; intros o p Hp Hsame;
    [exact Hp|].
  simpl in *.
  destruct Hp as (-> & Ha & Hc & Hcn & Hk & Hch & Hsib & Hup).
  assert (Hb : deref s' a = deref s a).
  { apply Hsame. apply elem_of_cons. auto. }
  unfold child in *. rewrite Hb. repeat apply conj; auto.
  - apply (layout_frame s s' sib _ _ Hsib). intros b Hb'.
    apply Hsame. apply elem_of_cons. right. apply elem_of_app. auto.
  - apply IH; [assumption|]. intros b Hb'.
    apply Hsame. apply elem_of_cons. right. apply elem_of_app. auto.
Qed.

Lemma layout_plug s root : forall ctx t o p,
  layout s p o t -> path s root ctx o p ->
  layout s None root (plug t ctx).
Proof.
  induction ctx as [|[[[[d c] a] k] sib] ctx IH]; intros t o p Hl Hp.
  - simpl in *. destruct Hp as [-> ->]. exact Hl.
  - simpl in Hp.
    destruct Hp as (-> & Ha & Hc & Hcn & Hk & Hch & Hsib & Hup).
    destruct d; simpl in *; subst o;
      apply (IH _ (Some a) (_parent (deref s a))); try assumption;
      simpl; repeat apply conj; auto.
Qed.

End Layout.

(** ** Running the methods on a laid-out tree

    The methods are run with weakest-precondition rules; what a store
    holds after a series of attribute writes is read off field by
    field. *)

(** Pairwise facts from a duplicate-free list of objects. *)
Lemma disjoint_app_r {A} (l k1 k2 : list A) :
  (forall x, x ∈ l -> x ∉ (k1 ++ k2)) ->
  (forall x, x ∈ l -> x ∉ k1) /\ (forall x, x ∈ l -> x ∉ k2).
Proof.
  intros Hd. split; intros x Hx Hk; apply (Hd x Hx), elem_of_app; auto.
Qed.

Lemma disjoint_cons_r {A} (l k : list A) b :
  (forall x, x ∈ l -> x ∉ (b :: k)) ->
  (b ∉ l) /\ (forall x, x ∈ l -> x ∉ k).
Proof.
  intros Hd. split.
  - intros Hb. apply (Hd b Hb), elem_of_cons. auto.
  - intros x Hx Hk. apply (Hd x Hx), elem_of_cons. auto.
Qed.

Lemma disjoint_app_l {A} (l1 l2 k : list A) :
  (forall x, x ∈ l1 ++ l2 -> x ∉ k) ->
  (forall x, x ∈ l1 -> x ∉ k) /\ (forall x, x ∈ l2 -> x ∉ k).
Proof.
  intros Hd. split; intros x Hx; apply Hd, elem_of_app; auto.
Qed.

Lemma disjoint_cons_l {A} (l k : list A) b :
  (forall x, x ∈ b :: l -> x ∉ k) ->
  (b ∉ k) /\ (forall x, x ∈ l -> x ∉ k).
Proof.
  intros Hd. split.
  - apply Hd, elem_of_cons. auto.
  - intros x Hx. apply Hd, elem_of_cons. auto.
Qed.

Lemma disjoint_ne {A} (l k : list A) a b :
  (forall x, x ∈ l -> x ∉ k) -> a ∈ l -> b ∈ k -> a <> b.
Proof. intros Hd Ha Hb ->. exact (Hd b Ha Hb). Qed.

Lemma not_elem_of_ne {A} (l : list A) a b : a ∉ l -> b ∈ l -> a <> b.
Proof. intros Ha Hb ->. exact (Ha Hb). Qed.

Ltac atomize :=
  repeat match goal with
  | H : NoDup (_ ++ _) |- _ => apply NoDup_app in H as (? & ? & ?)
  | H : NoDup (_ :: _) |- _ => apply NoDup_cons in H as (? & ?)
  | H : NoDup [] |- _ => clear H
  | H : forall x, x ∈ _ -> x ∉ (_ ++ _) |- _ =>
      apply disjoint_app_r in H as [? ?]
  | H : forall x, x ∈ _ -> x ∉ (_ :: _) |- _ =>
      apply disjoint_cons_r in H as [? ?]
  | H : forall x, x ∈ _ -> x ∉ [] |- _ => clear H
  | H : forall x, x ∈ _ ++ _ -> x ∉ _ |- _ =>
      apply disjoint_app_l in H as [? ?]
  | H : forall x, x ∈ _ :: _ -> x ∉ _ |- _ =>
      apply disjoint_cons_l in H as [? ?]
  | H : forall x, x ∈ [] -> x ∉ _ |- _ => clear H
  | H : _ ∉ (_ ++ _) |- _ => apply not_elem_of_app in H as [? ?]
  | H : _ ∉ (_ :: _) |- _ => apply not_elem_of_cons in H as [? ?]
  | H : _ ∉ [] |- _ => clear H
  end.

Ltac differ :=
  match goal with
  | H : ?a ∉ ?l, Hb : ?b ∈ ?l |- ?a <> ?b =>
      exact (not_elem_of_ne l a b H Hb)
  | H : ?a ∉ ?l, Hb : ?b ∈ ?l |- ?b <> ?a =>
      exact (not_eq_sym (not_elem_of_ne l a b H Hb))
  | H : forall x, x ∈ ?l -> x ∉ ?k, Ha : ?a ∈ ?l, Hb : ?b ∈ ?k
    |- ?a <> ?b =>
      exact (disjoint_ne l k a b H Ha Hb)
  | H : forall x, x ∈ ?l -> x ∉ ?k, Ha : ?a ∈ ?l, Hb : ?b ∈ ?k
    |- ?b <> ?a =>
      exact (not_eq_sym (disjoint_ne l k a b H Ha Hb))
  end.

Section Running.
Context {K V : Type} `{EqDecision K} `{EqDecision V} `{KeyFunctions K}.
Implicit Types (s : @state K V) (key : K) (value : option V).
Implicit Types (t l r : @ctree K) (ctx : list (@frame K)).

#[local] Arguments deref : simpl never.
#[local] Arguments upd : simpl never.
#[local] Arguments with_root : simpl never.

(** ** Rules for running the methods *)

Lemma wp_ret {A} (a : A) s (Q : A -> @state K V -> Prop) :
  Q a s -> wp (ret a) s Q.
Proof. exact id. Qed.

Lemma wp_bind {A B} (m : @M K V A) (k : A -> @M K V B) s Q :
  wp m s (fun a s' => wp (k a) s' Q) -> wp (bind m k) s Q.
Proof. unfold wp, bind. destruct (m s); auto. Qed.

Lemma wp_mono {A} (m : @M K V A) s (Q Q' : A -> @state K V -> Prop) :
  wp m s Q -> (forall a s', Q a s' -> Q' a s') -> wp m s Q'.
Proof. unfold wp. destruct (m s); auto. Qed.

Lemma wp_ok {A} (m : @M K V A) s Q :
  wp m s Q <-> exists a s', m s = Ok a s' /\ Q a s'.
Proof.
  unfold wp. destruct (m s) as [a s'| |]; split.
  - eauto.
  - intros (a' & s'' & [= -> ->] & HQ). exact HQ.
  - contradiction.
  - intros (a' & s'' & [=] & _).
  - contradiction.
  - intros (a' & s'' & [=] & _).
Qed.

Lemma wp_attr {A} (f : @RBNode K V -> A) a s Q :
  Q (f (deref s a)) s -> wp (attr f (Some a)) s Q.
Proof. exact id. Qed.

Lemma wp_get_parent_node a s (Q : option ref -> @state K V -> Prop) :
  Q (_parent (deref s a)) s -> wp (get_parent_node (Some a)) s Q.
Proof. exact id. Qed.

Lemma wp_set_parent v a s (Q : unit -> @state K V -> Prop) :
  Q tt (upd a (with_parent v) s) -> wp (set_parent v (Some a)) s Q.
Proof. exact id. Qed.

Lemma wp_set_left v a s (Q : unit -> @state K V -> Prop) :
  Q tt (upd a (with_left v) s) -> wp (set_left v (Some a)) s Q.
Proof. exact id. Qed.

Lemma wp_set_right v a s (Q : unit -> @state K V -> Prop) :
  Q tt (upd a (with_right v) s) -> wp (set_right v (Some a)) s Q.
Proof. exact id. Qed.

Lemma wp_set_color v a s (Q : unit -> @state K V -> Prop) :
  Q tt (upd a (with_color v) s) -> wp (set_color v (Some a)) s Q.
Proof. exact id. Qed.

Lemma wp_set_root v s (Q : unit -> @state K V -> Prop) :
  Q tt (with_root v s) -> wp (set_root v) s Q.
Proof. exact id. Qed.

Lemma wp_get_root s (Q : option ref -> @state K V -> Prop) :
  Q (_root s) s -> wp get_root s Q.
Proof. exact id. Qed.

Lemma wp_node_comparator a b ka kb s Q :
  _key (deref s a) = Some ka -> _key (deref s b) = Some kb ->
  Q (_key_comparator_function ka kb) s ->
  wp (node_comparator (Some a) (Some b)) s Q.
Proof.
  intros Ha Hb HQ. unfold wp, node_comparator, bind, attr.
  rewrite Ha, Hb. exact HQ.
Qed.

Lemma wp_is_node_not_red a s (Q : bool -> @state K V -> Prop) :
  Q (bool_decide (RED <> _color (deref s a))) s ->
  wp (is_node_not_red [Some a]) s Q.
Proof.
  unfold wp, is_node_not_red, is_node_color, bind, attr, operator_ne, ret.
  destruct (bool_decide (RED <> _color (deref s a))); exact id.
Qed.

Lemma wp_new n s (Q : option ref -> @state K V -> Prop) :
  Q (Some (length (heap s))) (alloc n s) -> wp (new n) s Q.
Proof. exact id. Qed.

Lemma deref_alloc n s b :
  (b < length (heap s))%nat -> deref (alloc n s) b = deref s b.
Proof.
  intros Hlt. unfold deref, alloc. simpl.
  apply lookup_total_app_l. assumption.
Qed.

Lemma deref_alloc_new n s : deref (alloc n s) (length (heap s)) = n.
Proof.
  unfold deref, alloc. simpl.
  rewrite lookup_total_app_r by lia.
  rewrite Nat.sub_diag. reflexivity.
Qed.

Lemma length_alloc n s : length (heap (alloc n s)) = S (length (heap s)).
Proof. unfold alloc. simpl. rewrite length_app. simpl. lia. Qed.

Lemma deref_with_root v s a : deref (with_root v s) a = deref s a.
Proof. reflexivity. Qed.

Lemma length_with_root v s : length (heap (with_root v s)) = length (heap s).
Proof. reflexivity. Qed.

Lemma color_range s a :
  _color (deref s a) <> NIL -> (a < length (heap s))%nat.
Proof.
  intros Hc. destruct (decide (a < length (heap s))%nat) as [|Hge];
    [assumption|].
  exfalso. apply Hc. unfold deref.
  rewrite list_lookup_total_alt, lookup_ge_None_2 by lia. reflexivity.
Qed.

Lemma field_upd {A} (proj : @RBNode K V -> A) a f s b :
  (forall n, proj (f n) = proj n) ->
  proj (deref (upd a f s) b) = proj (deref s b).
Proof.
  intros Hf. unfold deref, upd. simpl.
  rewrite list_lookup_total_alter.
  case_decide as Hd; [|reflexivity].
  destruct Hd as [-> _]. apply Hf.
Qed.

Lemma with_color_same c (n : @RBNode K V) : _color n = c -> with_color c n = n.
Proof. intros <-. destruct n. reflexivity. Qed.

Lemma layout_root_in s t p a :
  layout s p (Some a) t -> a = NIL_NODE \/ a ∈ crefs t.
Proof.
  destruct t as [|c l b k r]; simpl.
  - intros [= ->]. auto.
  - intros ([= ->] & _). right. apply elem_of_app. right.
    apply elem_of_cons. auto.
Qed.

Lemma layout_node s p c l a k r ol or :
  a <> NIL_NODE -> _color (deref s a) = c -> c <> NIL ->
  _key (deref s a) = Some k -> _parent (deref s a) = p ->
  _left (deref s a) = ol -> _right (deref s a) = or ->
  layout s (Some a) ol l -> layout s (Some a) or r ->
  layout s p (Some a) (CNode c l a k r).
Proof. intros ? ? ? ? ? <- <- ? ?. simpl. auto 10. Qed.

Lemma path_cons s root d c a k sib rest o os pa :
  a <> NIL_NODE -> _color (deref s a) = c -> c <> NIL ->
  _key (deref s a) = Some k ->
  child s d a = o -> child s (opposite d) a = os ->
  _parent (deref s a) = pa ->
  layout s (Some a) os sib -> path s root rest (Some a) pa ->
  path s root ((d, c, a, k, sib) :: rest) o (Some a).
Proof. intros ? ? ? ? <- <- <- ? ?. simpl. auto 10. Qed.

Lemma path_range s root : forall ctx o p a,
  path s root ctx o p -> a ∈ ctx_refs ctx ->
  a <> NIL_NODE /\ (a < length (heap s))%nat.
Proof.
  induction ctx as [|[[[[d c] b] k] sib] ctx IH]; intros o p a Hp Hin.
  - apply elem_of_nil in Hin. contradiction.
  - simpl in Hp, Hin.
    destruct Hp as (-> & Hb & Hc & Hcn & Hk & Hch & Hsib & Hup).
    apply elem_of_cons in Hin as [->|Hin].
    + split; [assumption|]. apply color_range. congruence.
    + apply elem_of_app in Hin as [Hin|Hin].
      * exact (layout_range _ _ _ _ _ Hsib Hin).
      * exact (IH _ _ _ Hup Hin).
Qed.

End Running.

Ltac len :=
  repeat first
    [rewrite length_upd | rewrite length_with_root | rewrite length_alloc];
  first [assumption | reflexivity | lia].

Ltac ne :=
  first [assumption | apply not_eq_sym; assumption | differ | congruence].

Ltac deref_simpl :=
  repeat first
    [ rewrite deref_with_root
    | rewrite (field_upd _key) by (intros; reflexivity)
    | rewrite (field_upd _values) by (intros; reflexivity)
    | rewrite (field_upd _color) by (intros; reflexivity)
    | rewrite (field_upd _parent) by (intros; reflexivity)
    | rewrite (field_upd _left) by (intros; reflexivity)
    | rewrite (field_upd _right) by (intros; reflexivity)
    | rewrite deref_upd_eq by len
    | rewrite deref_upd_ne by ne
    | rewrite deref_alloc_new
    | rewrite deref_alloc by len ].

Ltac field := deref_simpl; simpl; first [assumption | reflexivity | congruence].

(** The part of a path that no write has touched. *)
Ltac same_path HX :=
  apply (path_frame _ _ _ _ _ _ HX);
  let a := fresh "a" in let Ha := fresh "Ha" in
  intros a Ha;
  destruct (path_range _ _ _ _ _ _ HX Ha);
  apply ctx_refs_split in Ha as [Ha|Ha];
  deref_simpl; reflexivity.

(** A subtree whose root has got a new parent. *)
Ltac moved_tree HX :=
  eapply (layout_reparent _ _ _ _ _ _ HX);
  [ let a := fresh "a" in let Ha := fresh "Ha" in let Hne := fresh "Hne" in
    intros a Ha Hne;
    destruct (layout_range _ _ _ _ _ HX Ha);
    deref_simpl; reflexivity
  | let a := fresh "a" in let Hne := fresh "Hne" in
    intros a [= <-] Hne; try congruence;
    repeat apply conj; field
  | assumption ].

(** The objects of a subtree that no write has touched. *)
Ltac same_tree HX :=
  apply (layout_frame _ _ _ _ _ HX);
  let a := fresh "a" in let Ha := fresh "Ha" in
  intros a Ha;
  destruct (layout_range _ _ _ _ _ HX Ha);
  first
    [ solve [deref_simpl; reflexivity]
    | match goal with
      | Hc : _color (deref _ ?x) = RED |- _ =>
          destruct (decide (a = x)) as [->|];
          deref_simpl; rewrite ?with_color_same by assumption;
          reflexivity
      end ].

Ltac wp_step :=
  lazymatch goal with
  | |- wp (bind _ _) _ _ => apply wp_bind
  | |- wp (ret _) _ _ => apply wp_ret
  | |- wp (attr _ (Some _)) _ _ => apply wp_attr
  | |- wp (get_parent_node (Some _)) _ _ => apply wp_get_parent_node
  | |- wp (set_parent _ (Some _)) _ _ => apply wp_set_parent
  | |- wp (set_left _ (Some _)) _ _ => apply wp_set_left
  | |- wp (set_right _ (Some _)) _ _ => apply wp_set_right
  | |- wp (set_color _ (Some _)) _ _ => apply wp_set_color
  | |- wp (set_root _) _ _ => apply wp_set_root
  | |- wp get_root _ _ => apply wp_get_root
  | |- wp (new _) _ _ => apply wp_new
  | |- wp (is_node_not_red [Some _]) _ _ => apply wp_is_node_not_red
  end; cbv beta.

Section Rotation.
Context {K V : Type} `{EqDecision K} `{EqDecision V} `{KeyFunctions K}.
Implicit Types (s : @state K V) (key : K) (value : option V).
Implicit Types (t l r : @ctree K) (ctx : list (@frame K)).

#[local] Arguments deref : simpl never.
#[local] Arguments upd : simpl never.
#[local] Arguments with_root : simpl never.

(** ** Rotations *)

Lemma rotate_left_spec s ctx cg A g kg cp B p kp C pg node rec :
  (0 < length (heap s))%nat ->
  sentinel_ok s = true ->
  path s (_root s) ctx (Some g) pg ->
  layout s pg (Some g) (CNode cg A g kg (CNode cp B p kp C)) ->
  NoDup (crefs (plug (CNode cg A g kg (CNode cp B p kp C)) ctx)) ->
  match ctx with
  | [] => True
  | (d, _, _, kgg, _) :: _ =>
      _key_comparator_function kg kgg = bool_decide (d = LEFT)
  end ->
  match node with
  | None => rec = false
  | Some x => rec = true /\ exists Cl kx Cr, C = CNode RED Cl x kx Cr
  end ->
  wp (rotate LEFT node (Some p) (Some g) rec) s (fun _ s' =>
    length (heap s') = length (heap s) /\
    sentinel_ok s' = true /\
    (forall a, _values (deref s' a) = _values (deref s a)) /\
    path s' (_root s') ctx (Some p) pg /\
    layout s' pg (Some p)
      (CNode (if rec then black else cp)
         (CNode (if rec then RED else cg) A g kg B) p kp C)).
Proof.
  intros Hheap Hnil Hpath Hlay Hnd Hcmp Hnode.
  rewrite crefs_plug in Hnd. simpl in Hnd.
  simpl in Hlay.
  destruct Hlay as (_ & Hg0 & Hgc & Hgcn & Hgk & Hgp & HA &
                    Hgr & Hp0 & Hpc & Hpcn & Hpk & Hpp & HB & HC).
  assert (Hgl : (g < length (heap s))%nat) by (apply color_range; congruence).
  assert (Hpl : (p < length (heap s))%nat) by (apply color_range; congruence).
  destruct (layout_some _ _ _ _ HB) as [b0 Hb0].
  assert (Hb0' : b0 = NIL_NODE \/
                 (b0 <> NIL_NODE /\ b0 ∈ crefs B /\
                  (b0 < length (heap s))%nat)).
  { destruct (layout_root_in s B (Some p) b0) as [?|Hin];
      [rewrite <- Hb0; exact HB|auto|].
    right. destruct (layout_range _ _ _ _ _ HB Hin). auto. }
  assert (Hx : match node with
               | None => rec = false
               | Some x => rec = true /\ x ∈ crefs C /\ x <> NIL_NODE /\
                           _color (deref s x) = RED /\
                           (x < length (heap s))%nat
               end).
  { destruct node as [x|]; [|exact Hnode].
    destruct Hnode as (-> & Cl & kx & Cr & ->).
    simpl in HC. destruct HC as (_ & ? & ? & _).
    repeat split; try assumption.
    - simpl. apply elem_of_app. right. apply elem_of_cons. auto.
    - apply color_range. congruence. }
  clear Hnode.
  unfold rotate.
  wp_step. wp_step. rewrite Hgp.
  unfold __update_parent.
  wp_step. wp_step.
  destruct ctx as [|[[[[d cgg] gg] kgg] sibg] rest]; simpl in Hpath.
  - destruct Hpath as [Hroot ->]. simpl in Hnd.
    rewrite app_nil_r in Hnd. atomize.
    assert (p <> g) by ne.
    repeat wp_step. deref_simpl. rewrite Hb0. repeat wp_step.
    destruct Hb0' as [->|(Hb00 & Hb0in & Hb0l)];
    (destruct node as [x|];
     [destruct Hx as (-> & Hxin & Hx0 & Hxc & Hxl)| subst rec]);
    repeat wp_step;
    (split; [|split; [|split; [|split]]];
     [ len
     | unfold sentinel_ok in *; deref_simpl; exact Hnil
     | intros a; deref_simpl; reflexivity
     | split; reflexivity
     | ]).
    all: eapply layout_node;
      [ assumption | field | first [discriminate|assumption] | field | field
      | deref_simpl; simpl; reflexivity
      | deref_simpl; simpl; reflexivity
      | eapply layout_node;
        [ assumption | field | first [discriminate|assumption] | field | field
        | deref_simpl; simpl; reflexivity
        | deref_simpl; simpl; reflexivity
        | same_tree HA
        | rewrite Hb0 in HB; moved_tree HB ]
      | same_tree HC ].
  - destruct Hpath as (-> & Hgg0 & Hggc & Hggcn & Hggk & Hch & Hsib & Hup).
    assert (Hggl : (gg < length (heap s))%nat)
      by (apply color_range; congruence).
    destruct d; simpl in Hnd, Hch, Hsib, Hcmp;
      rewrite <- ?app_assoc in Hnd; simpl in Hnd; atomize.
    all: wp_step; wp_step.
    all: assert (p <> g) by ne.
    all: assert (gg <> g) by ne.
    all: assert (gg <> p) by ne.
    all: apply (wp_node_comparator _ _ kg kgg); [field|field|];
      rewrite Hcmp; cbv iota.
    all: repeat wp_step; deref_simpl; rewrite Hb0; repeat wp_step.
    all: destruct Hb0' as [->|(Hb00 & Hb0in & Hb0l)];
      (destruct node as [x|];
       [destruct Hx as (-> & Hxin & Hx0 & Hxc & Hxl)| subst rec]);
      repeat wp_step;
      (split; [|split; [|split; [|split]]];
       [ len
       | unfold sentinel_ok in *; deref_simpl; exact Hnil
       | intros a; deref_simpl; reflexivity
       | eapply path_cons;
         [ assumption | field | assumption | field
         | unfold child; deref_simpl; simpl; reflexivity
         | unfold child, opposite; deref_simpl; simpl; reflexivity
         | deref_simpl; simpl; reflexivity
         | same_tree Hsib
         | same_path Hup ]
       | eapply layout_node;
         [ assumption | field | first [discriminate|assumption]
         | field | field
         | deref_simpl; simpl; reflexivity
         | deref_simpl; simpl; reflexivity
         | eapply layout_node;
           [ assumption | field | first [discriminate|assumption]
           | field | field
           | deref_simpl; simpl; reflexivity
           | deref_simpl; simpl; reflexivity
           | same_tree HA
           | rewrite Hb0 in HB; moved_tree HB ]
         | same_tree HC ] ]).
Qed.

Lemma rotate_right_spec s ctx cg A g kg cp B p kp C pg node rec :
  (0 < length (heap s))%nat ->
  sentinel_ok s = true ->
  path s (_root s) ctx (Some g) pg ->
  layout s pg (Some g) (CNode cg (CNode cp A p kp B) g kg C) ->
  NoDup (crefs (plug (CNode cg (CNode cp A p kp B) g kg C) ctx)) ->
  match ctx with
  | [] => True
  | (d, _, _, kgg, _) :: _ =>
      _key_comparator_function kg kgg = bool_decide (d = LEFT)
  end ->
  match node with
  | None => rec = false
  | Some x => rec = true /\ exists Al kx Ar, A = CNode RED Al x kx Ar
  end ->
  wp (rotate RIGHT node (Some p) (Some g) rec) s (fun _ s' =>
    length (heap s') = length (heap s) /\
    sentinel_ok s' = true /\
    (forall a, _values (deref s' a) = _values (deref s a)) /\
    path s' (_root s') ctx (Some p) pg /\
    layout s' pg (Some p)
      (CNode (if rec then black else cp)
         A p kp (CNode (if rec then RED else cg) B g kg C))).
Proof.
  intros Hheap Hnil Hpath Hlay Hnd Hcmp Hnode.
  rewrite crefs_plug in Hnd. simpl in Hnd.
  simpl in Hlay.
  destruct Hlay as (_ & Hg0 & Hgc & Hgcn & Hgk & Hgp &
                    (Hgr & Hp0 & Hpc & Hpcn & Hpk & Hpp & HA & HB) & HC).
  assert (Hgl : (g < length (heap s))%nat) by (apply color_range; congruence).
  assert (Hpl : (p < length (heap s))%nat) by (apply color_range; congruence).
  destruct (layout_some _ _ _ _ HB) as [b0 Hb0].
  assert (Hb0' : b0 = NIL_NODE \/
                 (b0 <> NIL_NODE /\ b0 ∈ crefs B /\
                  (b0 < length (heap s))%nat)).
  { destruct (layout_root_in s B (Some p) b0) as [?|Hin];
      [rewrite <- Hb0; exact HB|auto|].
    right. destruct (layout_range _ _ _ _ _ HB Hin). auto. }
  assert (Hx : match node with
               | None => rec = false
               | Some x => rec = true /\ x ∈ crefs A /\ x <> NIL_NODE /\
                           _color (deref s x) = RED /\
                           (x < length (heap s))%nat
               end).
  { destruct node as [x|]; [|exact Hnode].
    destruct Hnode as (-> & Al & kx & Ar & ->).
    simpl in HA. destruct HA as (_ & ? & ? & _).
    repeat split; try assumption.
    - simpl. apply elem_of_app. right. apply elem_of_cons. auto.
    - apply color_range. congruence. }
  clear Hnode.
  unfold rotate.
  wp_step. wp_step. rewrite Hgp.
  unfold __update_parent.
  wp_step. wp_step.
  destruct ctx as [|[[[[d cgg] gg] kgg] sibg] rest]; simpl in Hpath.
  - destruct Hpath as [Hroot ->]. simpl in Hnd.
    rewrite app_nil_r in Hnd. atomize.
    assert (p <> g) by ne.
    repeat wp_step. deref_simpl. rewrite Hb0. repeat wp_step.
    destruct Hb0' as [->|(Hb00 & Hb0in & Hb0l)];
    (destruct node as [x|];
     [destruct Hx as (-> & Hxin & Hx0 & Hxc & Hxl)| subst rec]);
    repeat wp_step;
    (split; [|split; [|split; [|split]]];
     [ len
     | unfold sentinel_ok in *; deref_simpl; exact Hnil
     | intros a; deref_simpl; reflexivity
     | split; reflexivity
     | ]).
    all: eapply layout_node;
      [ assumption | field | first [discriminate|assumption] | field | field
      | deref_simpl; simpl; reflexivity
      | deref_simpl; simpl; reflexivity
      | same_tree HA
      | eapply layout_node;
        [ assumption | field | first [discriminate|assumption] | field | field
        | deref_simpl; simpl; reflexivity
        | deref_simpl; simpl; reflexivity
        | rewrite Hb0 in HB; moved_tree HB
        | same_tree HC ] ].
  - destruct Hpath as (-> & Hgg0 & Hggc & Hggcn & Hggk & Hch & Hsib & Hup).
    assert (Hggl : (gg < length (heap s))%nat)
      by (apply color_range; congruence).
    destruct d; simpl in Hnd, Hch, Hsib, Hcmp;
      rewrite <- ?app_assoc in Hnd; simpl in Hnd; atomize.
    all: wp_step; wp_step.
    all: assert (p <> g) by ne.
    all: assert (gg <> g) by ne.
    all: assert (gg <> p) by ne.
    all: apply (wp_node_comparator _ _ kg kgg); [field|field|];
      rewrite Hcmp; cbv iota.
    all: repeat wp_step; deref_simpl; rewrite Hb0; repeat wp_step.
    all: destruct Hb0' as [->|(Hb00 & Hb0in & Hb0l)];
      (destruct node as [x|];
       [destruct Hx as (-> & Hxin & Hx0 & Hxc & Hxl)| subst rec]);
      repeat wp_step;
      (split; [|split; [|split; [|split]]];
       [ len
       | unfold sentinel_ok in *; deref_simpl; exact Hnil
       | intros a; deref_simpl; reflexivity
       | eapply path_cons;
         [ assumption | field | assumption | field
         | unfold child; deref_simpl; simpl; reflexivity
         | unfold child, opposite; deref_simpl; simpl; reflexivity
         | deref_simpl; simpl; reflexivity
         | same_tree Hsib
         | same_path Hup ]
       | eapply layout_node;
         [ assumption | field | first [discriminate|assumption]
         | field | field
         | deref_simpl; simpl; reflexivity
         | deref_simpl; simpl; reflexivity
         | same_tree HA
         | eapply layout_node;
           [ assumption | field | first [discriminate|assumption]
           | field | field
           | deref_simpl; simpl; reflexivity
           | deref_simpl; simpl; reflexivity
           | rewrite Hb0 in HB; moved_tree HB
           | same_tree HC ] ] ]).
Qed.

End Rotation.

Section Contexts.
Context {K V : Type} `{EqDecision K} `{EqDecision V} `{KeyFunctions K}.
Implicit Types (s : @state K V) (key : K) (value : option V).
Implicit Types (t l r : @ctree K) (ctx : list (@frame K)).

#[local] Arguments deref : simpl never.
#[local] Arguments upd : simpl never.
#[local] Arguments with_root : simpl never.

(** ** Red-black conditions in a context *)

Lemma plug_fill t d c a k sib ctx :
  plug t (((d, c, a, k, sib) : frame) :: ctx) = plug (fill d c t a k sib) ctx.
Proof. destruct d; reflexivity. Qed.

Lemma rb_fill d c t a k sib h :
  rb t h -> rb sib h ->
  match c with
  | RED => root_color t = black /\ root_color sib = black
  | black => True
  | NIL => False
  end ->
  rb (fill d c t a k sib) (match c with RED => h | _ => S h end).
Proof. destruct d, c; simpl; tauto. Qed.

Lemma plug_rb : forall ctx t h,
  rb t h -> ctx_rb ctx h ->
  match ctx with
  | (_, RED, _, _, _) :: _ => root_color t = black
  | _ => True
  end ->
  exists h', rb (plug t ctx) h'.
Proof.
  induction ctx as [|[[[[d c] a] k] sib] ctx IH]; intros t h Ht Hctx Htop.
  - exists h. exact Ht.
  - rewrite plug_fill. simpl in Hctx. destruct Hctx as [Hsib Hc].
    destruct c; try contradiction.
    + apply (IH _ (S h)); [apply (rb_fill d black); auto|assumption|].
      destruct ctx as [|[[[[? []] ?] ?] ?] ?]; try exact I.
      destruct d; reflexivity.
    + destruct Hc as (Hsb & Hup & Hc).
      apply (IH _ h); [apply (rb_fill d RED); auto|assumption|].
      destruct ctx as [|[[[[? c'] ?] ?] ?] ?]; [exact I|].
      subst c'. exact I.
Qed.

Lemma plug_root_color : forall ctx t h,
  ctx_rb ctx h -> ctx <> [] -> root_color (plug t ctx) = black.
Proof.
  induction ctx as [|[[[[d c] a] k] sib] ctx IH]; intros t h Hctx Hne;
    [congruence|].
  rewrite plug_fill. simpl in Hctx. destruct Hctx as [Hsib Hc].
  destruct ctx as [|f ctx].
  - destruct c; try contradiction; [destruct d; reflexivity|].
    destruct Hc as (_ & [] & _).
  - destruct c; try contradiction.
    + apply (IH _ (S h)); [assumption|discriminate].
    + destruct Hc as (_ & _ & Hc). apply (IH _ h); [assumption|discriminate].
Qed.

Lemma depth_plug : forall ctx t t' n,
  (depth t' <= depth t + n)%nat ->
  (depth (plug t' ctx) <= depth (plug t ctx) + n)%nat.
Proof.
  induction ctx as [|[[[[d c] a] k] sib] ctx IH]; intros t t' n Hd;
    [exact Hd|].
  rewrite !plug_fill. apply IH. destruct d; simpl; lia.
Qed.

End Contexts.

Ltac same_list :=
  simpl; repeat first [rewrite <- app_assoc | rewrite <- app_comm_cons];
  reflexivity.

(** Rebuilding the layout of a tree after some writes: subtrees that
    no write has touched are taken from the hypotheses, the other nodes
    are checked field by field. *)
Ltac relayout :=
  lazymatch goal with
  | |- layout _ _ _ (CNode _ _ _ _ _) =>
      first
        [ match goal with
          | HX : layout _ _ _ ?t |- layout _ _ _ ?t => same_tree HX
          end
        | eapply layout_node;
          [ assumption | field | first [discriminate|assumption]
          | field | field
          | deref_simpl; simpl; first [eassumption|reflexivity]
          | deref_simpl; simpl; first [eassumption|reflexivity]
          | relayout | relayout ] ]
  | |- layout _ _ _ _ =>
      match goal with
      | HX : layout _ _ _ ?t |- layout _ _ _ ?t => same_tree HX
      end
  end.

Section Rebalancing.
Context {K V : Type} `{EqDecision K} `{EqDecision V} `{KeyFunctions K}.
Implicit Types (s : @state K V) (key : K) (value : option V).
Implicit Types (t l r : @ctree K) (ctx : list (@frame K)).

#[local] Arguments deref : simpl never.
#[local] Arguments upd : simpl never.
#[local] Arguments with_root : simpl never.

Lemma RBNode__eq__same s a : RBNode__eq__ s a a = true.
Proof.
  unfold RBNode__eq__.
  destruct (_parent (deref s a));
    repeat case_bool_decide; simpl; congruence.
Qed.

Lemma RBNode__eq__keys s a b :
  _key (deref s a) <> _key (deref s b) ->
  _color (deref s b) <> NIL ->
  RBNode__eq__ s a b = false.
Proof.
  intros Hk Hc. unfold RBNode__eq__.
  rewrite (bool_decide_eq_false_2 (_key _ = _key _)) by assumption.
  repeat case_bool_decide; simpl; congruence.
Qed.

Lemma wp_get_uncle_node s x p g d u (Q : option ref -> @state K V -> Prop) :
  _parent (deref s x) = Some p -> _parent (deref s p) = Some g ->
  child s d g = Some p -> child s (opposite d) g = Some u ->
  (d = RIGHT -> RBNode__eq__ s u p = false) ->
  Q (Some u) s -> wp (get_uncle_node (Some x)) s Q.
Proof.
  intros Hx Hp Hd Hu Hne HQ.
  unfold wp, get_uncle_node, get_sibling_node, get_parent_node, bind, attr,
    py_eq, sibling_pair, ret.
  rewrite Hx, Hp.
  destruct d; simpl in Hd, Hu.
  - rewrite Hd, RBNode__eq__same, Hu. exact HQ.
  - rewrite Hu, Hne by reflexivity. simpl. rewrite Hu. exact HQ.
Qed.

Lemma layout_up s root d c a k sib ctx o pp t :
  path s root ((d, c, a, k, sib) :: ctx) o pp ->
  layout s pp o t ->
  layout s (_parent (deref s a)) (Some a) (fill d c t a k sib) /\
  path s root ctx (Some a) (_parent (deref s a)).
Proof.
  simpl. intros (-> & Ha & Hc & Hcn & Hk & Hch & Hsib & Hup) Ht.
  split; [|exact Hup].
  destruct d; simpl in *; subst o; auto 10.
Qed.

Lemma wp_py_ne a b s (Q : bool -> @state K V -> Prop) :
  Q (negb (RBNode__eq__ s a b)) s -> wp (py_ne (Some a) (Some b)) s Q.
Proof. exact id. Qed.

Lemma path_root_key s root : forall ctx o p,
  path s root ctx o p -> ctx <> [] ->
  exists a k, root = Some a /\ _key (deref s a) = Some k /\
    _color (deref s a) <> NIL /\
    (a ∈ refs_before ctx \/ a ∈ refs_after ctx) /\
    (k ∈ keys_before ctx \/ k ∈ keys_after ctx).
Proof.
  induction ctx as [|[[[[d c] a] k] sib] ctx IH]; intros o p Hp Hne;
    [congruence|].
  simpl in Hp. destruct Hp as (-> & Ha & Hc & Hcn & Hk & Hch & Hsib & Hup).
  assert (Hcases : ctx = [] \/ ctx <> [])
    by (destruct ctx; [left|right]; congruence).
  destruct Hcases as [->|Hne'].
  - simpl in Hup. destruct Hup as [<- _]. exists a, k.
    repeat split; try assumption; try congruence;
      destruct d; simpl; rewrite ?elem_of_app, ?elem_of_cons; auto.
  - destruct (IH _ _ Hup Hne') as (a' & k' & -> & Hk' & Hc' & Hin & Hkin).
    exists a', k'. repeat split; try assumption.
    + destruct d; simpl; rewrite ?elem_of_cons, ?elem_of_app; tauto.
    + destruct d; simpl; rewrite ?elem_of_cons, ?elem_of_app; tauto.
Qed.

Lemma rebalanced_change s1 t1 s t s' :
  rebalanced s1 t1 s' ->
  crefs t1 = crefs t -> ckeys t1 = ckeys t ->
  (depth t1 <= depth t)%nat ->
  length (heap s1) = length (heap s) ->
  (forall a, _values (deref s1 a) = _values (deref s a)) ->
  rebalanced s t s'.
Proof.
  intros (t' & Hl & Hr & Hk & Hc & Hrb & Hd & Hlen & Hnil & Hval)
    Hrefs Hkeys Hdepth Hlen1 Hval1.
  exists t'. repeat split; try assumption; try congruence; lia.
Qed.

Lemma try_rebalance_root fuel g s (Q : unit -> @state K V -> Prop) :
  _parent (deref s g) = None -> Q tt s ->
  wp (try_rebalance (S fuel) (Some g)) s Q.
Proof.
  intros Hp HQ.
  unfold wp, try_rebalance, bind, get_parent_node, attr, or_, ret.
  rewrite Hp. exact HQ.
Qed.

Lemma rebalanced_plug s s' ctx t t' o p h :
  path s' (_root s') ctx o p -> layout s' p o t' ->
  crefs t' = crefs t -> ckeys t' = ckeys t ->
  (depth t' <= S (depth t))%nat ->
  rb t' h -> ctx_rb ctx h ->
  match ctx with
  | [] | (_, RED, _, _, _) :: _ => root_color t' = black
  | _ => True
  end ->
  length (heap s') = length (heap s) ->
  sentinel_ok s' = true ->
  (forall a, _values (deref s' a) = _values (deref s a)) ->
  rebalanced s (plug t ctx) s'.
Proof.
  intros Hpath Hlay Hrefs Hkeys Hdepth Hrb Hctx Htop Hlen Hnil Hval.
  exists (plug t' ctx).
  split; [exact (layout_plug _ _ _ _ _ _ Hlay Hpath)|].
  split; [rewrite !crefs_plug; congruence|].
  split; [rewrite !ckeys_plug; congruence|].
  split.
  { destruct ctx as [|f ctx]; [exact Htop|].
    apply (plug_root_color _ _ h); [assumption|discriminate]. }
  split.
  { apply (plug_rb _ _ h); try assumption.
    destruct ctx as [|[[[[? []] ?] ?] ?] ?]; auto. }
  split.
  { pose proof (depth_plug ctx t t' 1%nat). lia. }
  auto.
Qed.

Lemma try_rebalance_spec : forall fuel ctx s l x kx r px h,
  (length ctx < fuel)%nat ->
  (0 < length (heap s))%nat ->
  sentinel_ok s = true ->
  path s (_root s) ctx (Some x) px ->
  layout s px (Some x) (CNode RED l x kx r) ->
  NoDup (crefs (plug (CNode RED l x kx r) ctx)) ->
  NoDup (ckeys (plug (CNode RED l x kx r) ctx)) ->
  ctx_dirs kx ctx ->
  rb (CNode RED l x kx r) h -> ctx_rb ctx h -> ctx <> [] ->
  wp (try_rebalance fuel (Some x)) s (fun _ s' =>
    rebalanced s (plug (CNode RED l x kx r) ctx) s').
Proof.
  induction fuel as [|fuel IH];
    intros ctx s l x kx r px h Hfuel Hheap Hnil Hpath Hlay Hnd Hkeys Hdirs
      Hrb Hctx Hne; [lia|].
  destruct ctx as [|[[[[d1 c1] p] kp] S1] ctx]; [congruence|]. clear Hne.
  assert (Hstop : c1 = black ->
    rebalanced s (plug (CNode RED l x kx r) ((d1, c1, p, kp, S1) :: ctx)) s).
  { intros ->.
    apply (rebalanced_plug s s _ _ (CNode RED l x kx r) (Some x) px h);
      auto. }
  pose proof Hpath as Hpath'. simpl in Hpath'.
  destruct Hpath' as (-> & Hp0 & Hpc & Hpcn & Hpk & Hch & HS1 & Hup).
  pose proof Hlay as Hlay'. simpl in Hlay'.
  destruct Hlay' as (_ & Hx0 & Hxc & _ & Hxk & Hxp & Hl & Hr).
  cbn [try_rebalance].
  wp_step. wp_step. rewrite Hxp.
  wp_step. wp_step.
  unfold or_.
  rewrite (bool_decide_eq_false_2 (Some p = None)) by discriminate.
  repeat wp_step.
  destruct ctx as [|[[[[d2 c2] g] kg] S2] rest].
  { (* the parent is the root *)
    simpl in Hup. destruct Hup as [Hroot Hpp]. rewrite Hpp.
    rewrite bool_decide_eq_true_2 by reflexivity.
    repeat wp_step. apply Hstop.
    simpl in Hctx. destruct c1; tauto. }
  pose proof Hup as Hup'. simpl in Hup'.
  destruct Hup' as (Hpp & Hg0 & Hgc & Hgcn & Hgk & Hch2 & HS2 & Hup2).
  rewrite Hpp.
  rewrite bool_decide_eq_false_2 by discriminate.
  wp_step. apply wp_is_node_not_red. rewrite Hxc.
  rewrite bool_decide_eq_false_2 by congruence.
  apply wp_is_node_not_red. rewrite Hpc.
  destruct c1; [|contradiction|].
  { (* the parent is black *)
    rewrite bool_decide_eq_true_2 by discriminate.
    repeat wp_step. apply Hstop. reflexivity. }
  rewrite bool_decide_eq_false_2 by congruence. clear Hstop.
  simpl in Hctx. destruct Hctx as (HrbS1 & HS1b & -> & HrbS2 & Hctx).
  simpl in Hdirs. destruct Hdirs as (Hd1 & Hd2 & Hdirs).
  wp_step.
  apply (wp_node_comparator _ _ kx kp); [assumption|assumption|].
  wp_step.
  apply (wp_node_comparator _ _ kp kg); [assumption|assumption|].
  rewrite Hd1, Hd2.
  wp_step.
  assert (Hu : exists u, child s (opposite d2) g = Some u /\
                 _key (deref s u) <> Some kp /\
                 _color (deref s u) =
                   match S2 with CLeaf => NIL | CNode c _ _ _ _ => c end).
  { destruct S2 as [|cu ul u ku ur]; simpl in HS2.
    - exists NIL_NODE. split; [assumption|].
      unfold sentinel_ok in Hnil.
      repeat (apply andb_prop in Hnil as [Hnil ?]).
      apply bool_decide_eq_true in Hnil.
      destruct (_key (deref s NIL_NODE)); [discriminate|].
      split; [discriminate|assumption].
    - destruct HS2 as (Hu & Hu0 & Huc & Hucn & Huk & _).
      exists u. repeat split; try assumption.
      rewrite Huk. intros [= ->].
      rewrite ckeys_plug in Hkeys. clear -Hkeys.
      destruct d1, d2; simpl in Hkeys; rewrite <- ?app_assoc in Hkeys;
        simpl in Hkeys; atomize; congruence. }
  destruct Hu as (u & Hu & Huk & Huc).
  apply (wp_get_uncle_node s x p g d2 u); try assumption.
  { intros _. apply RBNode__eq__keys; congruence. }
  wp_step. apply wp_is_node_not_red. rewrite Huc.
  assert (Hshape : root_color S2 = black \/
                   exists ul ku ur, S2 = CNode RED ul u ku ur).
  { destruct S2 as [|[] ul u' ku ur]; simpl in *; auto; [contradiction|].
    right. destruct HS2 as (HS2 & _). rewrite Hu in HS2.
    injection HS2 as ->. eauto. }
  destruct Hshape as [HS2b|(ul & ku & ur & ->)].
  - (* the uncle is not RED: rotate *)
    rewrite bool_decide_eq_true_2
      by (destruct S2 as [|[]]; simpl in *; congruence).
    destruct (layout_up _ _ _ _ _ _ _ _ _ _ _ Hpath Hlay) as [Hlp _].
    destruct (layout_up _ _ _ _ _ _ _ _ _ _ _ Hup Hlp) as [Hlg _].
    rewrite !plug_fill in Hnd, Hkeys.
    simpl in Hrb. destruct Hrb as (Hlb & Hrb' & Hrbl & Hrbr).
    destruct d1, d2; simpl bool_decide; cbv iota; simpl plug;
      simpl fill in *.
    + (* LEFT, LEFT *)
      eapply wp_mono.
      { eapply (rotate_right_spec s rest); try eassumption.
        - destruct rest as [|[[[[? ?] ?] ?] ?] ?]; simpl in *; tauto.
        - simpl. eauto. }
      cbv beta. intros _ s' (Hlen & Hnil' & Hval & Hpath' & Hlay').
      eapply (rebalanced_plug s s' rest _ _ _ _ (S h));
        try eassumption.
      * same_list.
      * same_list.
      * simpl. lia.
      * simpl. auto 10.
      * destruct rest as [|[[[[? []] ?] ?] ?] ?]; reflexivity.
    + (* LEFT, RIGHT *)
      wp_step. eapply wp_mono.
      { eapply (rotate_right_spec s ((RIGHT, black, g, kg, S2) :: rest)
                  RED l p kp RED r x kx S1 _ None false);
          try eassumption; reflexivity. }
      cbv beta. intros _ s1 (Hlen1 & Hnil1 & Hval1 & Hpath1 & Hlay1).
      destruct (layout_up _ _ _ _ _ _ _ _ _ _ _ Hpath1 Hlay1)
        as [Hlg1 Hup1].
      simpl fill in Hlg1.
      eapply wp_mono.
      { eapply (rotate_left_spec s1 rest black S2 g kg RED l x kx
                  (CNode RED r p kp S1) _ (Some p) true);
          try eassumption.
        - lia.
        - rewrite crefs_plug in Hnd |- *. simpl in Hnd |- *.
          repeat first [rewrite <- app_assoc in Hnd
                       | rewrite <- app_comm_cons in Hnd].
          repeat first [rewrite <- app_assoc | rewrite <- app_comm_cons].
          exact Hnd.
        - destruct rest as [|[[[[? ?] ?] ?] ?] ?]; simpl in *; tauto.
        - simpl. eauto. }
      cbv beta. intros _ s' (Hlen & Hnil' & Hval & Hpath' & Hlay').
      eapply (rebalanced_plug s s' rest _ _ _ _ (S h));
        try eassumption.
      * same_list.
      * same_list.
      * simpl. lia.
      * simpl. auto 10.
      * destruct rest as [|[[[[? []] ?] ?] ?] ?]; reflexivity.
      * congruence.
      * intros a. rewrite Hval, Hval1. reflexivity.
    + (* RIGHT, LEFT *)
      wp_step. eapply wp_mono.
      { eapply (rotate_left_spec s ((LEFT, black, g, kg, S2) :: rest)
                  RED S1 p kp RED l x kx r _ None false);
          try eassumption; reflexivity. }
      cbv beta. intros _ s1 (Hlen1 & Hnil1 & Hval1 & Hpath1 & Hlay1).
      destruct (layout_up _ _ _ _ _ _ _ _ _ _ _ Hpath1 Hlay1)
        as [Hlg1 Hup1].
      simpl fill in Hlg1.
      eapply wp_mono.
      { eapply (rotate_right_spec s1 rest black (CNode RED S1 p kp l)
                  g kg RED r x kx S2 _ (Some p) true);
          try eassumption.
        - lia.
        - rewrite crefs_plug in Hnd |- *. simpl in Hnd |- *.
          repeat first [rewrite <- app_assoc in Hnd
                       | rewrite <- app_comm_cons in Hnd].
          repeat first [rewrite <- app_assoc | rewrite <- app_comm_cons].
          exact Hnd.
        - destruct rest as [|[[[[? ?] ?] ?] ?] ?]; simpl in *; tauto.
        - simpl. eauto. }
      cbv beta. intros _ s' (Hlen & Hnil' & Hval & Hpath' & Hlay').
      eapply (rebalanced_plug s s' rest _ _ _ _ (S h));
        try eassumption.
      * same_list.
      * same_list.
      * simpl. lia.
      * simpl. auto 10.
      * destruct rest as [|[[[[? []] ?] ?] ?] ?]; reflexivity.
      * congruence.
      * intros a. rewrite Hval, Hval1. reflexivity.
    + (* RIGHT, RIGHT *)
      eapply wp_mono.
      { eapply (rotate_left_spec s rest); try eassumption.
        - destruct rest as [|[[[[? ?] ?] ?] ?] ?]; simpl in *; tauto.
        - simpl. eauto. }
      cbv beta. intros _ s' (Hlen & Hnil' & Hval & Hpath' & Hlay').
      eapply (rebalanced_plug s s' rest _ _ _ _ (S h));
        try eassumption.
      * same_list.
      * same_list.
      * simpl. lia.
      * simpl. auto 10.
      * destruct rest as [|[[[[? []] ?] ?] ?] ?]; reflexivity.
  - (* the uncle is RED: recolour and go on from the grandparent *)
    rewrite bool_decide_eq_false_2 by (intros Hc; apply Hc; reflexivity).
    unfold __recolor.
    simpl in HS2.
    destruct HS2 as (Hu' & Hu0 & Huc' & _ & Huk' & Hup' & Hul & Hur).
    clear Hu Huk Huc.
    assert (Hbu : (u < length (heap s))%nat)
      by (apply color_range; congruence).
    assert (Hbp : (p < length (heap s))%nat)
      by (apply color_range; congruence).
    assert (Hbg : (g < length (heap s))%nat)
      by (apply color_range; congruence).
    simpl in Hrb. destruct Hrb as (Hlb & Hrb' & Hrbl & Hrbr).
    simpl in HrbS2. destruct HrbS2 as (Hulb & Hurb & Hrbul & Hrbur).
    destruct rest as [|f3 rest].
    + (* the grandparent is the root *)
      simpl in Hup2. destruct Hup2 as [Hroot Hgp].
      rewrite crefs_plug in Hnd.
      destruct fuel as [|fuel]; [simpl in Hfuel; lia|].
      pose (T' := fill d2 black
                    (fill d1 black (CNode RED l x kx r) p kp S1) g kg
                    (CNode black ul u ku ur)).
      destruct d1, d2; simpl in Hch, HS1, Hch2, Hu', Hnd;
        repeat first [rewrite <- app_assoc in Hnd
                     | rewrite <- app_comm_cons in Hnd];
        atomize.
      all: wp_step; wp_step; rewrite ?Hch2, ?Hu'.
      all: wp_step; wp_step; wp_step; wp_step; deref_simpl;
             rewrite ?Hch2, ?Hu'.
      all: wp_step; wp_step; wp_step; wp_step; wp_step.
      all: change (_root _) with (_root s); rewrite <- Hroot.
      all: apply wp_py_ne; rewrite RBNode__eq__same; simpl negb.
      all: wp_step; wp_step.
      all: apply try_rebalance_root; [field|].
      all: apply (rebalanced_plug s _ [] _ T' (Some g) None (S (S h)));
        subst T'; simpl fill;
        [ split; [exact Hroot|reflexivity]
        | relayout
        | same_list
        | same_list
        | simpl; lia
        | simpl; auto 10
        | exact I
        | reflexivity
        | len
        | unfold sentinel_ok in *; deref_simpl; exact Hnil
        | intros a; deref_simpl; reflexivity ].
    + (* the grandparent is below the root *)
      remember (f3 :: rest) as ctx3 eqn:Ectx3.
      assert (Hne3 : ctx3 <> []) by (subst ctx3; discriminate).
      assert (Hfuel3 : (length ctx3 < fuel)%nat) by (simpl in Hfuel; lia).
      clear Ectx3 f3 rest Hfuel.
      destruct (path_root_key _ _ _ _ _ Hup2 Hne3)
        as (r0 & k0 & Hroot & Hk0 & Hc0 & Hr0in & Hk0in).
      assert (Hr0 : r0 <> p /\ r0 <> u).
      { clear -Hnd Hr0in. rewrite crefs_plug in Hnd.
        destruct d1, d2; simpl in Hnd;
          repeat first [rewrite <- app_assoc in Hnd
                       | rewrite <- app_comm_cons in Hnd];
          atomize; destruct Hr0in; split; ne. }
      destruct Hr0 as [Hr0p Hr0u].
      assert (Hkg0 : kg <> k0).
      { clear -Hkeys Hk0in. rewrite ckeys_plug in Hkeys.
        destruct d1, d2; simpl in Hkeys;
          repeat first [rewrite <- app_assoc in Hkeys
                       | rewrite <- app_comm_cons in Hkeys];
          atomize; destruct Hk0in; ne. }
      pose (T' := fill d2 RED
                    (fill d1 black (CNode RED l x kx r) p kp S1) g kg
                    (CNode black ul u ku ur)).
      assert (Hrefs' : crefs (plug T' ctx3) =
                crefs (plug (CNode RED l x kx r)
                  (((d1, RED, p, kp, S1) : frame)
                   :: ((d2, black, g, kg, CNode RED ul u ku ur) : frame)
                   :: ctx3))).
      { rewrite !crefs_plug. subst T'. destruct d1, d2; same_list. }
      assert (Hkeys' : ckeys (plug T' ctx3) =
                ckeys (plug (CNode RED l x kx r)
                  (((d1, RED, p, kp, S1) : frame)
                   :: ((d2, black, g, kg, CNode RED ul u ku ur) : frame)
                   :: ctx3))).
      { rewrite !ckeys_plug. subst T'. destruct d1, d2; same_list. }
      assert (Hdepth' : (depth (plug T' ctx3) <=
                depth (plug (CNode RED l x kx r)
                  (((d1, RED, p, kp, S1) : frame)
                   :: ((d2, black, g, kg, CNode RED ul u ku ur) : frame)
                   :: ctx3)))%nat).
      { rewrite !plug_fill.
        pose proof (depth_plug ctx3
          (fill d2 black (fill d1 RED (CNode RED l x kx r) p kp S1) g kg
             (CNode RED ul u ku ur)) T' 0%nat) as Hd.
        rewrite !Nat.add_0_r in Hd. apply Hd.
        subst T'. destruct d1, d2; simpl; lia. }
      assert (HndT : NoDup (crefs (plug T' ctx3))) by (rewrite Hrefs'; exact Hnd).
      assert (HkeysT : NoDup (ckeys (plug T' ctx3)))
        by (rewrite Hkeys'; exact Hkeys).
      assert (HrbT : rb T' (S h)).
      { subst T'. destruct d1, d2; simpl; auto 10. }
      rewrite crefs_plug in Hnd. rewrite ckeys_plug in Hkeys.
      destruct d1, d2; simpl in Hch, HS1, Hch2, Hu', Hnd, Hkeys;
        repeat first [rewrite <- app_assoc in Hnd
                     | rewrite <- app_comm_cons in Hnd];
        repeat first [rewrite <- app_assoc in Hkeys
                     | rewrite <- app_comm_cons in Hkeys];
        atomize.
      all: wp_step; wp_step; rewrite ?Hch2, ?Hu'.
      all: wp_step; wp_step; wp_step; wp_step; deref_simpl;
             rewrite ?Hch2, ?Hu'.
      all: wp_step; wp_step; wp_step; wp_step; wp_step.
      all: change (_root _) with (_root s); rewrite Hroot.
      all: apply wp_py_ne;
        rewrite RBNode__eq__keys
          by (deref_simpl; first [congruence|assumption]);
        simpl negb.
      all: wp_step; cbv iota; wp_step.
      all: subst T'; simpl fill in *.
      all: eapply wp_mono;
        [ eapply (fun H1 H2 H3 H4 =>
                    IH ctx3 _ _ g kg _ (_parent (deref s g)) (S h) Hfuel3
                      H1 H2 H3 H4 HndT HkeysT Hdirs HrbT Hctx Hne3);
          [ len
          | unfold sentinel_ok in *; deref_simpl; exact Hnil
          | same_path Hup2
          | relayout ]
        | cbv beta; intros _ s' Hreb;
          eapply rebalanced_change;
          [ exact Hreb | exact Hrefs' | exact Hkeys' | exact Hdepth'
          | len | intros a; deref_simpl; reflexivity ] ].
Qed.
End Rebalancing.

Section Insertion.
Context {K V : Type} `{EqDecision K} `{EqDecision V} `{KeyFunctions K}.
Implicit Types (s : @state K V) (key : K) (value : option V).
Implicit Types (t l r : @ctree K) (ctx : list (@frame K)).

#[local] Arguments deref : simpl never.
#[local] Arguments upd : simpl never.
#[local] Arguments with_root : simpl never.
#[local] Arguments alloc : simpl never.

(** ** The place of a new key *)

Lemma slot_plug key : forall t ctx ctx',
  slot key t ctx = Some ctx' -> plug CLeaf ctx' = plug t ctx.
Proof.
  induction t as [|c l IHl a k r IHr]; intros ctx ctx' Hslot; simpl in Hslot.
  - injection Hslot as <-. reflexivity.
  - destruct (_key_equals_function key k); [discriminate|].
    destruct (_key_comparator_function key k); simpl in Hslot.
    + rewrite (IHl _ _ Hslot). reflexivity.
    + rewrite (IHr _ _ Hslot). reflexivity.
Qed.

Lemma slot_search key : forall t ctx,
  slot key t ctx = None <-> search key (erase t) <> None.
Proof.
  induction t as [|c l IHl a k r IHr]; intros ctx; simpl.
  - split; [discriminate|congruence].
  - destruct (_key_equals_function key k); [split; congruence|].
    destruct (_key_comparator_function key k); simpl; auto.
Qed.

Lemma depth_pos t : (1 <= depth t)%nat.
Proof. destruct t; simpl; lia. Qed.

Lemma inner_find_slot key root : forall t n s ctx o p ctx',
  sentinel_ok s = true ->
  layout s p o t -> path s root ctx o p -> t <> CLeaf ->
  slot key t ctx = Some ctx' -> (depth t <= S n)%nat ->
  exists d c a k sib ctx'',
    ctx' = (d, c, a, k, sib) :: ctx'' /\
    inner_find n key true o s = Ok (FTuple (Some a) (Some d)) s /\
    path s root ctx' (Some NIL_NODE) (Some a) /\
    _key_comparator_function key k = bool_decide (d = LEFT).
Proof.
  induction t as [|c l IHl a k r IHr];
    intros n s ctx o p ctx' Hs Hlay Hpath Hne Hslot Hdepth; [congruence|].
  clear Hne. simpl in Hlay, Hslot, Hdepth.
  destruct Hlay as (-> & Ha & Hc & Hcn & Hk & Hp & Hl & Hr).
  destruct n as [|n]; [pose proof (depth_pos l); lia|].
  cbn [inner_find]. unfold bind at 1. unfold py_eq at 1.
  rewrite (eq_sentinel_real s a Hs) by congruence.
  unfold bind at 1. unfold attr at 1. rewrite Hk. unfold with_key.
  destruct (_key_equals_function key k); [discriminate|].
  destruct (_key_comparator_function key k) eqn:Hcmp; simpl in Hslot |- *.
  - assert (Hpath' : path s root ((LEFT, c, a, k, r) :: ctx)
                       (_left (deref s a)) (Some a)).
    { simpl. subst p. auto 10. }
    destruct l as [|cl ll al kl rl].
    + injection Hslot as <-. simpl in Hl.
      exists LEFT, c, a, k, r, ctx.
      unfold bind, attr, py_eq. rewrite Hl, (eq_sentinel_self s Hs).
      rewrite Hl in Hpath'. auto.
    + destruct (IHl n s _ _ _ ctx' Hs Hl Hpath') as
        (d & c' & a' & k' & sib & ctx'' & -> & Hfind & Hp' & Hd);
        [discriminate|assumption|simpl in *; lia|].
      exists d, c', a', k', sib, ctx''.
      pose proof Hl as Hl'. simpl in Hl'. destruct Hl' as (Hal & _ & Hcl & Hcln & _).
      unfold bind, attr, py_eq. rewrite Hal.
      rewrite (eq_sentinel_real s al Hs) by congruence.
      rewrite <- Hal. auto.
  - assert (Hpath' : path s root ((RIGHT, c, a, k, l) :: ctx)
                       (_right (deref s a)) (Some a)).
    { simpl. subst p. auto 10. }
    destruct r as [|cr lr ar kr rr].
    + injection Hslot as <-. simpl in Hr.
      exists RIGHT, c, a, k, l, ctx.
      unfold bind, attr, py_eq. rewrite Hr, (eq_sentinel_self s Hs).
      rewrite Hr in Hpath'. auto.
    + destruct (IHr n s _ _ _ ctx' Hs Hr Hpath') as
        (d & c' & a' & k' & sib & ctx'' & -> & Hfind & Hp' & Hd);
        [discriminate|assumption|simpl in *; lia|].
      exists d, c', a', k', sib, ctx''.
      pose proof Hr as Hr'. simpl in Hr'. destruct Hr' as (Har & _ & Hcr & Hcrn & _).
      unfold bind, attr, py_eq. rewrite Har.
      rewrite (eq_sentinel_real s ar Hs) by congruence.
      rewrite <- Har. auto.
Qed.

Lemma slot_length key : forall t ctx ctx',
  slot key t ctx = Some ctx' ->
  (length ctx' + 1 <= length ctx + depth t)%nat.
Proof.
  induction t as [|c l IHl a k r IHr]; intros ctx ctx' Hslot; simpl in *.
  - injection Hslot as <-. lia.
  - destruct (_key_equals_function key k); [discriminate|].
    destruct (_key_comparator_function key k); simpl in Hslot.
    + apply IHl in Hslot. simpl in Hslot. lia.
    + apply IHr in Hslot. simpl in Hslot. lia.
Qed.

(** ** From a red-black tree to the conditions on a context *)

Lemma ctx_rb_of_plug : forall ctx t h,
  rb (plug t ctx) h -> root_color (plug t ctx) = black ->
  exists h', rb t h' /\ ctx_rb ctx h' /\
    match ctx with
    | (_, RED, _, _, _) :: _ => root_color t = black
    | _ => True
    end.
Proof.
  induction ctx as [|[[[[d c] a] k] sib] ctx IH]; intros t h Hrb Hroot.
  - exists h. simpl. auto.
  - rewrite plug_fill in Hrb, Hroot.
    destruct (IH _ _ Hrb Hroot) as (h' & Hfill & Hctx & Htop).
    assert (Hc : c = RED -> match ctx with
                            | [] => False
                            | (_, c', _, _, _) :: _ => c' = black
                            end).
    { intros ->. destruct ctx as [|[[[[d' c'] a'] k'] sib'] ctx].
      - simpl in Hroot. destruct d; discriminate.
      - destruct c'; [reflexivity|simpl in Hctx; tauto|].
        destruct d; discriminate. }
    destruct d, c; simpl in Hfill; try contradiction.
    + destruct h' as [|h']; [contradiction|]. exists h'. simpl. tauto.
    + exists h'. simpl. specialize (Hc eq_refl). tauto.
    + destruct h' as [|h']; [contradiction|]. exists h'. simpl. tauto.
    + exists h'. simpl. specialize (Hc eq_refl). tauto.
Qed.

(** ** Adding a key that is not in the tree *)

Lemma wp_validate_key key s (Q : bool -> @state K V -> Prop) :
  _key_validator_function key = true -> Q true s ->
  wp (validate_key key) s Q.
Proof. intros Hv HQ. unfold wp, validate_key. rewrite Hv. exact HQ. Qed.

Lemma wp_set_child d v a s (Q : unit -> @state K V -> Prop) :
  Q tt (upd a (with_child d v) s) ->
  wp (if bool_decide (d = LEFT) then set_left v (Some a)
      else set_right v (Some a)) s Q.
Proof. destruct d; exact id. Qed.

Lemma wp_find_node fuel key to_nil (a : ref) res s
    (Q : find_result -> @state K V -> Prop) :
  _root s = Some a ->
  inner_find fuel key to_nil (Some a) s = Ok res s ->
  Q res s -> wp (find_node fuel key to_nil) s Q.
Proof.
  intros Hr Hfind HQ. unfold wp, find_node, bind, get_root.
  rewrite Hr, Hfind. exact HQ.
Qed.

Lemma add_new fuel key value s t ctx' h :
  _key_validator_function key = true ->
  (0 < length (heap s))%nat -> sentinel_ok s = true ->
  layout s None (_root s) t -> t <> CLeaf ->
  NoDup (crefs t) ->
  slot key t [] = Some ctx' ->
  NoDup (ckeys (plug (CNode RED CLeaf (length (heap s)) key CLeaf) ctx')) ->
  ctx_dirs key ctx' ->
  rb t h -> root_color t = black ->
  (depth t <= fuel)%nat ->
  wp (add fuel key value) s (fun _ s' =>
    exists d c a k sib ctx'',
      ctx' = (d, c, a, k, sib) :: ctx'' /\
      rebalanced
        (upd a (with_child d (Some (length (heap s))))
           (alloc (RBNode__init__ (Some key) value RED (Some a)
                     (Some NIL_NODE) (Some NIL_NODE)) s))
        (plug (CNode RED CLeaf (length (heap s)) key CLeaf) ctx') s').
Proof.
  intros Hv Hheap Hnil Hlay Hne Hnd Hslot Hkeys Hdirs Hrb Hroot Hfuel.
  destruct (inner_find_slot key (_root s) t fuel s [] (_root s) None ctx'
              Hnil Hlay) as
    (d & c & a & k & sib & ctx'' & -> & Hfind & Hpath & Hd);
    [split; reflexivity|assumption|assumption|lia|].
  pose proof (slot_length _ _ _ _ Hslot) as Hlen. simpl in Hlen.
  pose proof (slot_plug _ _ _ _ Hslot) as Hplug.
  change (plug t []) with t in Hplug.
  destruct (ctx_rb_of_plug ((d, c, a, k, sib) :: ctx'') CLeaf h)
    as (h0 & Hh0 & Hctx & _); [rewrite Hplug; assumption..|].
  simpl in Hh0. subst h0.
  rewrite <- Hplug in Hnd. rewrite crefs_plug in Hnd.
  destruct (layout_some _ _ _ _ Hlay) as [r0 Hr0].
  unfold add. wp_step.
  apply wp_validate_key; [assumption|]. simpl negb. cbv iota.
  wp_step. wp_step. rewrite Hr0. wp_step.
  eapply (wp_find_node _ _ _ r0);
    [exact Hr0|rewrite <- Hr0; exact Hfind|].
  wp_step. unfold unpack2. wp_step. wp_step. wp_step. wp_step.
  apply wp_set_child.
  pose proof Hpath as Hpath'. simpl in Hpath'.
  destruct Hpath' as (_ & Ha0 & Hac & Hacn & Hak & Hch & Hsib & Hup).
  assert (Hal : (a < length (heap s))%nat)
    by (apply color_range; congruence).
  assert (Hfresh : forall b, b ∈ ctx_refs ((d, c, a, k, sib) :: ctx'') ->
                     b <> length (heap s)).
  { intros b Hb. destruct (path_range _ _ _ _ _ _ Hpath Hb). lia. }
  assert (Hnd' : NoDup (crefs (plug (CNode RED CLeaf (length (heap s)) key
                                        CLeaf)
                                 ((d, c, a, k, sib) :: ctx'')))).
  { rewrite crefs_plug. simpl crefs in Hnd |- *.
    apply NoDup_app in Hnd as (Hnd1 & Hnd2 & Hnd3).
    apply NoDup_app. repeat split; [assumption| |].
    - intros y Hy Hy'. apply elem_of_cons in Hy' as [->|Hy'].
      + apply (Hfresh (length (heap s))); [|reflexivity].
        apply ctx_refs_split. auto.
      + exact (Hnd2 y Hy Hy').
    - apply NoDup_cons. split; [|assumption].
      intros Hy. apply (Hfresh (length (heap s))); [|reflexivity].
      apply ctx_refs_split. auto. }
  assert (Hx0 : length (heap s) <> NIL_NODE) by (unfold NIL_NODE; lia).
  assert (Hax : a <> length (heap s)) by lia.
  eapply wp_mono.
  - eapply (try_rebalance_spec fuel ((d, c, a, k, sib) :: ctx'') _
              CLeaf (length (heap s)) key CLeaf (Some a) 0%nat);
      try eassumption.
    + simpl. lia.
    + len.
    + unfold sentinel_ok in *.
      destruct d; deref_simpl; exact Hnil.
    + simpl crefs in Hnd.
      destruct d; simpl in Hnd, Hch, Hsib;
        repeat first [rewrite <- app_assoc in Hnd
                     | rewrite <- app_comm_cons in Hnd];
        atomize;
        (eapply path_cons;
         [ assumption | field | assumption | field
         | unfold child; deref_simpl; simpl; reflexivity
         | unfold child, opposite; deref_simpl; simpl; reflexivity
         | deref_simpl; simpl; reflexivity
         | same_tree Hsib
         | same_path Hup ]).
    + destruct d;
        (eapply layout_node;
         [ assumption | field | discriminate | field | field
         | deref_simpl; simpl; reflexivity
         | deref_simpl; simpl; reflexivity
         | reflexivity | reflexivity ]).
    + simpl. auto.
    + discriminate.
  - cbv beta. intros _ s' Hreb. exists d, c, a, k, sib, ctx''.
    split; [reflexivity|exact Hreb].
Qed.

End Insertion.
Section Multimap.
Context {V : Type} `{EqDecision V}.
Implicit Types (s : @state Z V) (key : Z) (value : option V).
Implicit Types (t l r : @ctree Z) (ctx : list (@frame Z)).
Implicit Types (es : list (Z * list (option V))).

(** ** Entries *)

Lemma put_skip key value es1 es2 :
  (forall e, e ∈ es1 -> e.1 < key) ->
  put key value (es1 ++ es2) = es1 ++ put key value es2.
Proof.
  induction es1 as [|[k vs] es1 IH]; intros Hlt; [reflexivity|].
  assert (k < key) by (apply (Hlt (k, vs)), elem_of_cons; auto).
  simpl. destruct (Z.eqb_spec key k); [lia|].
  destruct (Z.ltb_spec key k); [lia|].
  rewrite IH; [reflexivity|].
  intros e He. apply Hlt, elem_of_cons. auto.
Qed.

Lemma put_stop key value es1 es2 :
  match es2 with [] => True | e :: _ => key < e.1 end ->
  put key value (es1 ++ es2) = put key value es1 ++ es2.
Proof.
  intros Hhead. induction es1 as [|[k vs] es1 IH]; simpl.
  - destruct es2 as [|[k vs] es2]; [reflexivity|]. simpl in *.
    destruct (Z.eqb_spec key k); [lia|].
    destruct (Z.ltb_spec key k); [reflexivity|lia].
  - destruct (key =? k); [reflexivity|].
    destruct (key <? k); [reflexivity|].
    rewrite IH. reflexivity.
Qed.

Lemma bindings_keys s (tr : @tree Z) : map fst (bindings s tr) = keys tr.
Proof.
  induction tr as [|l IHl a k r IHr]; [reflexivity|].
  simpl. rewrite !map_app. simpl. congruence.
Qed.

Lemma keys_refs_length (tr : @tree Z) : length (keys tr) = length (refs tr).
Proof.
  induction tr as [|l IHl a k r IHr]; simpl; [reflexivity|].
  rewrite !length_app. simpl. lia.
Qed.

Lemma bindings_zip s (tr : @tree Z) :
  bindings s tr =
  zip (keys tr) (map (fun a => _values (deref s a)) (refs tr)).
Proof.
  induction tr as [|l IHl a k r IHr]; [reflexivity|].
  simpl. rewrite !map_app. simpl.
  rewrite zip_with_app; [simpl; congruence|].
  rewrite length_map. apply keys_refs_length.
Qed.

Lemma bindings_ext s s' (tr : @tree Z) :
  (forall a, a ∈ refs tr -> _values (deref s' a) = _values (deref s a)) ->
  bindings s' tr = bindings s tr.
Proof.
  induction tr as [|l IHl a k r IHr]; intros Hsame; [reflexivity|].
  simpl in *. rewrite IHl, IHr, Hsame; [reflexivity| | |].
  - rewrite elem_of_app, elem_of_cons. auto.
  - intros b Hb. apply Hsame. rewrite elem_of_app, elem_of_cons. auto.
  - intros b Hb. apply Hsame. rewrite elem_of_app. auto.
Qed.

(** A value added under a key of the tree. *)
Lemma bindings_with_value s key value a : forall (tr : @tree Z),
  StronglySorted Z.lt (keys tr) -> NoDup (refs tr) ->
  (a < length (heap s))%nat ->
  search key tr = Some a ->
  bindings (with_value s a value) tr = put key value (bindings s tr).
Proof.
  induction tr as [|l IHl b k r IHr]; intros Hsorted Hnd Hrange Hsearch;
    [discriminate|].
  simpl in Hsorted, Hnd, Hsearch |- *.
  apply StronglySorted_app in Hsorted as (Hlr & Hsl & Hsr).
  apply StronglySorted_cons in Hsr as [Hkr Hsr].
  rewrite Forall_forall in Hkr.
  apply NoDup_app in Hnd as (Hndl & Hdis & Hndr).
  apply NoDup_cons in Hndr as [Hbr Hndr].
  assert (Hl_lt : forall e, e ∈ bindings s l -> e.1 < k).
  { intros e He. apply Hlr; [|apply elem_of_cons; auto].
    rewrite <- (bindings_keys s). apply list_elem_of_fmap. eauto. }
  assert (Hvals : forall c, c <> a ->
            _values (deref (with_value s a value) c) = _values (deref s c)).
  { intros c Hc. unfold with_value. rewrite deref_alter.
    rewrite decide_False by (intros [? _]; congruence). reflexivity. }
  unfold __simple_key_equals, __simple_key_comparator in Hsearch.
  destruct (Z.eqb_spec key k) as [->|Hne].
  - injection Hsearch as <-.
    rewrite put_skip by assumption. simpl. rewrite Z.eqb_refl.
    rewrite (bindings_ext s _ l), (bindings_ext s _ r).
    + unfold with_value at 1. rewrite deref_alter.
      rewrite decide_True; [reflexivity|].
      split; [reflexivity|]. exact Hrange.
    + intros c Hc. apply Hvals. intros Heq. subst c. contradiction.
    + intros c Hc. apply Hvals. intros Heq. subst c.
      apply (Hdis b Hc). apply elem_of_cons. left. reflexivity.
  - destruct (Z.ltb_spec key k) as [Hlt|Hge]; simpl in Hsearch.
    + rewrite put_stop by (simpl; lia).
      rewrite (IHl Hsl Hndl Hrange Hsearch).
      assert (Hal : a ∈ refs l).
      { clear -Hsearch. induction l as [|l1 IH1 c kc l2 IH2];
          simpl in *; [discriminate|].
        rewrite elem_of_app, elem_of_cons.
        destruct (__simple_key_equals key kc);
          [injection Hsearch as ->; auto|].
        destruct (negb _); auto. }
      rewrite Hvals, (bindings_ext s _ r); [reflexivity| |].
      * intros c Hc. apply Hvals. intros Heq. subst c.
        apply (Hdis a Hal). apply elem_of_cons. right. exact Hc.
      * intros Heq. apply (Hdis a Hal). apply elem_of_cons. left. congruence.
    + rewrite put_skip by (intros e He; specialize (Hl_lt e He); lia). simpl.
      destruct (Z.eqb_spec key k); [congruence|].
      destruct (Z.ltb_spec key k); [lia|].
      rewrite (IHr Hsr Hndr Hrange Hsearch).
      assert (Har : a ∈ refs r).
      { clear -Hsearch. induction r as [|l1 IH1 c kc l2 IH2];
          simpl in *; [discriminate|].
        rewrite elem_of_app, elem_of_cons.
        destruct (__simple_key_equals key kc);
          [injection Hsearch as ->; auto|].
        destruct (negb _); auto. }
      rewrite Hvals, (bindings_ext s _ l); [reflexivity| |].
      * intros c Hc. apply Hvals. intros Heq. subst c.
        apply (Hdis a Hc). apply elem_of_cons. right. exact Har.
      * intros Heq. subst b. contradiction.
Qed.

(** A node added in the place of its key. *)
Lemma keys_refs_before ctx :
  length (keys_before ctx) = length (refs_before ctx).
Proof.
  induction ctx as [|[[[[[] c] a] k] sib] ctx IH]; simpl; try assumption;
    [reflexivity|].
  rewrite !length_app, IH, <- !erase_keys, <- !erase_refs, keys_refs_length.
  reflexivity.
Qed.

Lemma bindings_with_node s s' key value (x : ref) t' ctx' :
  crefs t' = crefs (plug (CNode RED CLeaf x key CLeaf) ctx') ->
  ckeys t' = ckeys (plug (CNode RED CLeaf x key CLeaf) ctx') ->
  (forall y, y ∈ keys_before ctx' -> y < key) ->
  (forall y, y ∈ keys_after ctx' -> key < y) ->
  _values (deref s' x) = [value] ->
  (forall a, a ∈ crefs (plug CLeaf ctx') ->
             _values (deref s' a) = _values (deref s a)) ->
  bindings s' (erase t')
    = put key value (bindings s (erase (plug CLeaf ctx'))).
Proof.
  intros Hrefs Hkeys Hbefore Hafter Hx Hsame.
  rewrite !bindings_zip, !erase_keys, !erase_refs, Hrefs, Hkeys.
  rewrite !ckeys_plug, !crefs_plug. simpl.
  rewrite crefs_plug in Hsame. simpl in Hsame.
  rewrite !map_app. simpl. rewrite Hx.
  rewrite !zip_with_app by (rewrite length_map; apply keys_refs_before).
  rewrite put_skip.
  2:{ intros [k vs] He. apply Hbefore. simpl.
      apply (elem_of_zip_l _ _ _ _ He). }
  rewrite (map_ext_in _ (fun a => _values (deref s a)) (refs_before ctx')).
  2:{ intros a Ha. apply Hsame. rewrite elem_of_app. left.
      apply list_elem_of_In. exact Ha. }
  rewrite (map_ext_in _ (fun a => _values (deref s a)) (refs_after ctx')).
  2:{ intros a Ha. apply Hsame. rewrite elem_of_app. right.
      apply list_elem_of_In. exact Ha. }
  f_equal. simpl.
  destruct (keys_after ctx') as [|k ks] eqn:Hks;
    destruct (refs_after ctx') as [|a rs]; try reflexivity.
  simpl.
  assert (key < k) by (apply Hafter, elem_of_cons; auto).
  destruct (Z.eqb_spec key k); [lia|].
  destruct (Z.ltb_spec key k); [reflexivity|lia].
Qed.

End Multimap.

Ltac flatten_in Hs :=
  repeat first [rewrite <- app_assoc in Hs | rewrite <- app_comm_cons in Hs];
  simpl in Hs.
Ltac flatten :=
  repeat first [rewrite <- app_assoc | rewrite <- app_comm_cons]; simpl.

Section Shape.
Context {K V : Type} `{EqDecision K} `{EqDecision V} `{KeyFunctions K}.
Implicit Types (s : @state K V) (key : K) (value : option V).
Implicit Types (t l r : @ctree K) (ctx : list (@frame K)).

(** ** The executable red-black check and the coloured tree *)

Lemma is_red_erase s t p o :
  layout s p o t -> is_red s (erase t) = bool_decide (root_color t = RED).
Proof.
  destruct t as [|c l a k r]; simpl; [reflexivity|].
  intros (_ & _ & -> & _). reflexivity.
Qed.

Lemma black_height_rb s : forall t p o h,
  layout s p o t -> black_height s (erase t) = Some h <-> rb t h.
Proof.
  induction t as [|c l IHl a k r IHr]; intros p o h Hlay.
  - simpl. split; [intros [= <-]; reflexivity|intros ->; reflexivity].
  - pose proof Hlay as Hlay'. simpl in Hlay'.
    destruct Hlay' as (-> & Ha & Hc & Hcn & Hk & Hp & Hl & Hr).
    cbn [erase black_height rb].
    rewrite (is_red_erase s l _ _ Hl), (is_red_erase s r _ _ Hr).
    change (is_red s (Node (erase l) a k (erase r)))
      with (bool_decide (_color (deref s a) = RED)).
    rewrite Hc.
    pose proof (fun h => IHl _ _ h Hl) as Hl_iff.
    pose proof (fun h => IHr _ _ h Hr) as Hr_iff.
    clear IHl IHr.
    destruct (black_height s (erase l)) as [n|].
    2:{ split; [discriminate|]. intros Hrb.
        assert (exists n, rb l n) as [n Hn]
          by (destruct c, h; try tauto; eexists; apply Hrb).
        apply Hl_iff in Hn. discriminate. }
    destruct (black_height s (erase r)) as [m|].
    2:{ split; [discriminate|]. intros Hrb.
        assert (exists n, rb r n) as [n' Hn]
          by (destruct c, h; try tauto; eexists; apply Hrb).
        apply Hr_iff in Hn. discriminate. }
    pose proof (proj1 (Hl_iff n) eq_refl) as Hbl.
    pose proof (proj1 (Hr_iff m) eq_refl) as Hbr.
    assert (Huniq : forall t n n', rb t n -> rb t n' -> n = n').
    { clear. induction t as [|c l IHl a k r IHr]; intros n n' H1 H2.
      - simpl in *. congruence.
      - destruct c; simpl in *; try contradiction.
        + destruct n, n'; try contradiction.
          f_equal. apply IHl; tauto.
        + apply IHl; tauto. }
    destruct (Nat.eqb_spec n m) as [->|Hnm]; simpl.
    + destruct c; try congruence; simpl.
      * split; [intros [= <-]; auto|].
        destruct h as [|h]; [contradiction|].
        intros [Hl' _]. f_equal. f_equal. exact (Huniq _ _ _ Hbl Hl').
      * assert (Hcol : forall t n, rb t n ->
                  root_color t = black \/ root_color t = RED).
        { clear. intros [|[] ? ? ? ?] n; simpl; tauto. }
        destruct (Hcol l m Hbl) as [Hlc|Hlc], (Hcol r m Hbr) as [Hrc|Hrc];
          rewrite Hlc, Hrc; simpl; split; intros Hx;
          try discriminate; try (destruct Hx as (? & ? & _); discriminate).
        -- injection Hx as <-. auto.
        -- f_equal. apply (Huniq l); tauto.
    + split; [discriminate|]. intros Hrb. exfalso. apply Hnm.
      destruct c; try contradiction.
      * destruct h as [|h]; [contradiction|].
        transitivity h; [apply (Huniq l)|apply (Huniq r)]; tauto.
      * transitivity h; [apply (Huniq l)|apply (Huniq r)]; tauto.
Qed.

Lemma to_tree_depth n : forall s o (t : @tree K),
  to_tree n s o = Some t -> (depth (colored s t) <= n)%nat.
Proof.
  induction n as [|n IH]; intros s o t Ht; [discriminate|].
  destruct (to_tree_some _ _ _ _ Ht) as [a ->].
  destruct t as [|l b k r]; [simpl; lia|].
  apply to_tree_node in Ht as (m & [= <-] & -> & Ha & Hc & Hk & Hl & Hr).
  apply IH in Hl, Hr. simpl. lia.
Qed.

Lemma layout_leaf_or_node s t p o :
  layout s p o t ->
  (t = CLeaf /\ o = Some NIL_NODE) \/
  (exists a, o = Some a /\ a <> NIL_NODE /\ t <> CLeaf).
Proof.
  destruct t as [|c l a k r]; simpl; [auto|].
  intros (-> & Ha & _). right. exists a. repeat split; auto.
Qed.

Lemma layout_ext s s' : forall t p o,
  layout s p o t ->
  (forall a, _key (deref s' a) = _key (deref s a) /\
             _color (deref s' a) = _color (deref s a) /\
             _parent (deref s' a) = _parent (deref s a) /\
             _left (deref s' a) = _left (deref s a) /\
             _right (deref s' a) = _right (deref s a)) ->
  layout s' p o t.
Proof.
  induction t as [|c l IHl a k r IHr]; intros p o Hlay Hsame; [exact Hlay|].
  simpl in *. destruct Hlay as (-> & Ha & Hc & Hcn & Hk & Hp & Hl & Hr).
  destruct (Hsame a) as (-> & -> & -> & -> & ->). auto 10.
Qed.

Lemma layout_keys s : forall t p o,
  layout s p o t ->
  map (fun a => _key (deref s a)) (crefs t) = map Some (ckeys t).
Proof.
  induction t as [|c l IHl a k r IHr]; intros p o Hlay; [reflexivity|].
  simpl in *. destruct Hlay as (-> & Ha & Hc & Hcn & Hk & Hp & Hl & Hr).
  rewrite !map_app. simpl.
  rewrite (IHl _ _ Hl), (IHr _ _ Hr), Hk. reflexivity.
Qed.

Lemma layout_NoDup s t p o :
  layout s p o t -> NoDup (ckeys t) -> NoDup (crefs t).
Proof.
  intros Hlay Hnd.
  apply (NoDup_fmap_1 (fun a => _key (deref s a))).
  change (NoDup (map (fun a => _key (deref s a)) (crefs t))).
  rewrite (layout_keys _ _ _ _ Hlay).
  apply (NoDup_fmap_2 Some). assumption.
Qed.

Lemma colored_leaf s (tr : @tree K) : colored s tr = CLeaf -> tr = Leaf.
Proof. destruct tr; [reflexivity|discriminate]. Qed.

End Shape.

Section IntegerKeys.
Context {V : Type} `{EqDecision V}.
Implicit Types (s : @state Z V) (key : Z) (value : option V).
Implicit Types (t l r : @ctree Z) (ctx : list (@frame Z)).

(** ** Increasing keys *)

Lemma increasing_sorted (ks : list Z) :
  increasing ks = true <-> StronglySorted Z.lt ks.
Proof.
  induction ks as [|x ks IH]; [split; [constructor|reflexivity]|].
  rewrite StronglySorted_cons.
  destruct ks as [|y ks].
  { simpl. split; [split; constructor|reflexivity]. }
  change (increasing (x :: y :: ks))
    with ((x <? y) && increasing (y :: ks)).
  rewrite andb_true_iff, IH, Z.ltb_lt. split.
  - intros [Hxy Hs]. split; [|assumption].
    apply StronglySorted_cons in Hs as [Hall _].
    constructor; [assumption|].
    eapply Forall_impl; [exact Hall|]. intros z Hz. simpl in Hz. lia.
  - intros [Hall Hs]. split; [|assumption].
    apply Forall_cons in Hall as [Hxy _]. exact Hxy.
Qed.

Lemma sorted_NoDup (ks : list Z) : StronglySorted Z.lt ks -> NoDup ks.
Proof.
  induction 1 as [|x ks Hs IH Hall]; constructor; [|assumption].
  intros Hin. rewrite Forall_forall in Hall. specialize (Hall x Hin). lia.
Qed.

Lemma sorted_insert (l1 l2 : list Z) k :
  StronglySorted Z.lt (l1 ++ l2) ->
  (forall y, y ∈ l1 -> y < k) -> (forall y, y ∈ l2 -> k < y) ->
  StronglySorted Z.lt (l1 ++ k :: l2).
Proof.
  intros Hs H1 H2. apply StronglySorted_app in Hs as (H12 & Hs1 & Hs2).
  apply StronglySorted_app. repeat split; [|assumption|].
  - intros x1 x2 Hx1 Hx2. apply elem_of_cons in Hx2 as [->|Hx2]; auto.
  - apply StronglySorted_cons. split; [|assumption].
    apply Forall_forall. exact H2.
Qed.

(** ** The place of a new key in a search tree *)

Lemma slot_bounds key : forall t ctx ctx',
  slot key t ctx = Some ctx' ->
  StronglySorted Z.lt (keys_before ctx ++ ckeys t ++ keys_after ctx) ->
  (forall y, y ∈ keys_before ctx -> y < key) ->
  (forall y, y ∈ keys_after ctx -> key < y) ->
  (forall y, y ∈ keys_before ctx' -> y < key) /\
  (forall y, y ∈ keys_after ctx' -> key < y).
Proof.
  induction t as [|c l IHl a k r IHr]; intros ctx ctx' Hslot Hs Hb Ha.
  - simpl in Hslot. injection Hslot as <-. auto.
  - simpl in Hslot. unfold __simple_key_equals, __simple_key_comparator in Hslot.
    destruct (Z.eqb_spec key k) as [|Hne]; [discriminate|].
    simpl in Hs.
    pose proof (StronglySorted_app_1_r _ _ _ Hs) as Hs'.
    pose proof (StronglySorted_app_1_l _ _ _ Hs') as Hs''.
    apply StronglySorted_app in Hs'' as (Hlk & _ & Hkr).
    apply StronglySorted_cons in Hkr as [Hkr _].
    rewrite Forall_forall in Hkr.
    destruct (Z.ltb_spec key k) as [Hlt|Hge]; simpl in Hslot.
    + apply (IHl _ _ Hslot); simpl.
      * flatten_in Hs. flatten. exact Hs.
      * assumption.
      * intros y Hy. apply elem_of_cons in Hy as [->|Hy]; [assumption|].
        apply elem_of_app in Hy as [Hy|Hy]; [|auto].
        specialize (Hkr y Hy). lia.
    + apply (IHr _ _ Hslot); simpl.
      * flatten_in Hs. flatten. exact Hs.
      * intros y Hy. apply elem_of_app in Hy as [Hy|Hy]; [auto|].
        apply elem_of_app in Hy as [Hy|Hy].
        -- assert (y < k) by (apply Hlk; [assumption|apply elem_of_cons; auto]).
           lia.
        -- apply list_elem_of_singleton in Hy. lia.
      * assumption.
Qed.

Lemma sorted_dirs : forall ctx c l a k r,
  StronglySorted Z.lt (ckeys (plug (CNode c l a k r) ctx)) ->
  ctx_dirs k ctx.
Proof.
  induction ctx as [|[[[[d c'] a'] k'] sib] ctx IH]; intros c l a k r Hs;
    [exact I|].
  rewrite plug_fill in Hs. simpl. split.
  - rewrite ckeys_plug in Hs.
    apply StronglySorted_app_1_r, StronglySorted_app_1_l in Hs.
    unfold __simple_key_comparator.
    destruct d; simpl in Hs.
    + rewrite <- app_assoc in Hs.
      apply StronglySorted_app_1_r in Hs. simpl in Hs.
      apply StronglySorted_cons in Hs as [Hall _].
      rewrite Forall_forall in Hall.
      assert (k < k') by (apply Hall; rewrite elem_of_app, elem_of_cons; auto).
      apply Z.ltb_lt. assumption.
    + apply StronglySorted_app_1_r in Hs. simpl in Hs.
      apply StronglySorted_cons in Hs as [Hall _].
      rewrite Forall_forall in Hall.
      assert (k' < k)
        by (apply Hall; rewrite !elem_of_app, elem_of_cons; auto).
      apply Z.ltb_ge. lia.
  - destruct d; exact (IH _ _ _ _ _ Hs).
Qed.

(** ** What the executable invariant says *)

Lemma search_tree_elim n s :
  search_tree n s = true ->
  (0 < length (heap s))%nat /\ sentinel_ok s = true /\
  exists tr, tree_of n s = Some tr /\
    ((_root s = None /\ tr = Leaf) \/
     exists h, tr <> Leaf /\ _root s <> None /\
       layout s None (_root s) (colored s tr) /\
       (depth (colored s tr) <= n)%nat /\
       StronglySorted Z.lt (keys tr) /\
       rb (colored s tr) h /\ root_color (colored s tr) = black).
Proof.
  unfold search_tree. destruct (tree_of n s) as [tr|] eqn:Ht; [|discriminate].
  intros Hst.
  apply andb_prop in Hst as [Hst Hrb].
  apply andb_prop in Hst as [Hst Hinc].
  apply andb_prop in Hst as [Hst Hlink].
  apply andb_prop in Hst as [Hheap Hroot].
  apply bool_decide_eq_true in Hheap, Hroot.
  pose proof (tree_of_sentinel _ _ _ Ht) as Hnil.
  split; [assumption|]. split; [assumption|].
  exists tr. split; [reflexivity|].
  destruct (_root s) as [a|] eqn:Hr.
  2:{ left. split; [reflexivity|].
      unfold tree_of in Ht. rewrite Hnil, Hr in Ht. congruence. }
  right.
  assert (Hto : to_tree n s (Some a) = Some tr).
  { rewrite <- Hr. apply tree_of_root; [assumption|congruence]. }
  pose proof (to_tree_layout _ _ _ _ _ Hto Hlink) as Hlay.
  unfold red_black in Hrb. rewrite Ht in Hrb.
  apply andb_prop in Hrb as [Hred Hbh].
  apply bool_decide_eq_true in Hbh.
  destruct (black_height s tr) as [h|] eqn:Hh; [|congruence].
  rewrite <- (colored_erase s tr) in Hh at 1.
  apply (black_height_rb s _ _ _ _ Hlay) in Hh.
  exists h. repeat split; try assumption.
  - intros ->. apply to_tree_leaf in Hto. congruence.
  - discriminate.
  - eapply to_tree_depth; eassumption.
  - apply increasing_sorted. assumption.
  - rewrite <- (colored_erase s tr), (is_red_erase s _ _ _ Hlay) in Hred.
    apply negb_true_iff, bool_decide_eq_false in Hred.
    destruct (colored s tr) as [|[] ? ? ? ?]; simpl in *;
      try reflexivity; try contradiction; congruence.
Qed.

Lemma search_tree_intro m s t h :
  (0 < length (heap s))%nat -> sentinel_ok s = true ->
  layout s None (_root s) t -> t <> CLeaf -> (depth t <= m)%nat ->
  StronglySorted Z.lt (ckeys t) -> rb t h -> root_color t = black ->
  search_tree m s = true /\ keys_of m s = ckeys t /\
  entries_of m s = bindings s (erase t).
Proof.
  intros Hheap Hnil Hlay Hne Hdepth Hsorted Hrb Hroot.
  destruct (layout_leaf_or_node _ _ _ _ Hlay) as [[-> _]|(a & Ha & Ha0 & _)];
    [congruence|].
  assert (Ht : tree_of m s = Some (erase t)).
  { unfold tree_of. rewrite Hnil, Ha, <- Ha.
    exact (layout_to_tree _ _ _ _ _ Hlay Hdepth). }
  unfold search_tree, keys_of, entries_of. rewrite Ht.
  split; [|split; [apply erase_keys|reflexivity]].
  rewrite !andb_true_iff. repeat split.
  - apply bool_decide_eq_true. assumption.
  - apply bool_decide_eq_true. rewrite Ha. congruence.
  - exact (layout_linked _ _ _ _ Hlay).
  - apply increasing_sorted. rewrite erase_keys. assumption.
  - unfold red_black. rewrite Ht.
    rewrite (is_red_erase _ _ _ _ Hlay), Hroot. simpl.
    apply bool_decide_eq_true.
    apply (black_height_rb _ _ _ _ _ Hlay) in Hrb. congruence.
Qed.

(** ** [add] on a red-black search tree *)

Lemma add_absent n fuel key value s tr :
  search_tree n s = true -> tree_of n s = Some tr ->
  _root s <> None -> search key tr = None -> (n <= fuel)%nat ->
  exists s', add fuel key value s = Ok tt s' /\
    search_tree (n + 2) s' = true /\
    (forall k, k ∈ keys_of (n + 2) s' <-> k = key \/ k ∈ keys tr) /\
    entries_of (n + 2) s' = put key value (bindings s tr).
Proof.
  intros Hst Htr Hroot Hsearch Hfuel.
  destruct (search_tree_elim _ _ Hst) as
    (Hheap & Hnil & tr' & Htr' & [[Hroot' _]|Hrest]); [congruence|].
  rewrite Htr in Htr'. injection Htr' as <-.
  destruct Hrest as (h & Hne & _ & Hlay & Hdepth & Hsorted & Hrb & Hblack).
  set (t := colored s tr) in *.
  assert (Hkeys_t : ckeys t = keys tr).
  { subst t. rewrite <- erase_keys, colored_erase. reflexivity. }
  assert (HsortedC : StronglySorted Z.lt (ckeys t))
    by (rewrite Hkeys_t; exact Hsorted).
  destruct (slot key t []) as [ctx'|] eqn:Hslot.
  2:{ apply slot_search in Hslot. subst t.
      rewrite colored_erase in Hslot. congruence. }
  pose proof (slot_plug _ _ _ _ Hslot) as Hplug.
  change (plug t []) with t in Hplug.
  assert (Hsorted' : StronglySorted Z.lt (keys_before ctx' ++ keys_after ctx')).
  { rewrite <- Hkeys_t, <- Hplug, ckeys_plug in Hsorted. exact Hsorted. }
  destruct (slot_bounds key t [] ctx' Hslot) as [Hbefore Hafter].
  { simpl. rewrite app_nil_r, Hkeys_t. exact Hsorted. }
  { intros y Hy. apply elem_of_nil in Hy. contradiction. }
  { intros y Hy. apply elem_of_nil in Hy. contradiction. }
  assert (HsortedT : forall x,
    StronglySorted Z.lt (ckeys (plug (CNode RED CLeaf x key CLeaf) ctx'))).
  { intros x. rewrite ckeys_plug. simpl.
    apply sorted_insert; assumption. }
  destruct (proj1 (wp_ok _ _ _)
    (add_new (H := default_functions) fuel key value s t ctx' h
       eq_refl Hheap Hnil Hlay
       (fun E => Hne (colored_leaf _ _ E))
       (layout_NoDup _ _ _ _ Hlay
          (sorted_NoDup _ HsortedC))
       Hslot (sorted_NoDup _ (HsortedT (length (heap s))))
       (sorted_dirs _ _ _ _ _ _ (HsortedT (length (heap s)))) Hrb Hblack
       ltac:(lia)))
    as ([] & s' & Hrun & d & c & a & k & sib & ctx'' & -> & Hreb).
  exists s'. split; [exact Hrun|].
  destruct Hreb as (t' & Hlay' & Hrefs' & Hkeys' & Hblack' & [h' Hrb'] &
                    Hdepth' & Hlen' & Hnil' & Hvals').
  destruct (search_tree_intro (n + 2) s' t' h') as (Hst' & Hk' & He');
    try assumption.
  - rewrite Hlen', length_upd, length_alloc. lia.
  - intros ->. rewrite crefs_plug in Hrefs'. simpl in Hrefs'.
    symmetry in Hrefs'. apply app_eq_nil in Hrefs' as [_ Hrefs'].
    discriminate.
  - pose proof (depth_plug ((d, c, a, k, sib) :: ctx'') CLeaf
                  (CNode RED CLeaf (length (heap s)) key CLeaf) 1%nat
                  ltac:(simpl; lia)) as Hd.
    rewrite Hplug in Hd. lia.
  - rewrite Hkeys'. apply HsortedT.
  - split; [exact Hst'|]. split.
    { intros k0.
      rewrite Hk', Hkeys', ckeys_plug, <- Hkeys_t, <- Hplug, ckeys_plug.
      simpl. rewrite !elem_of_app, elem_of_cons. tauto. }
    rewrite He'.
    replace (bindings s tr) with (bindings s (erase t))
      by (subst t; rewrite colored_erase; reflexivity).
    rewrite <- Hplug.
    apply (bindings_with_node _ _ _ _ (length (heap s))); try assumption.
    + rewrite Hvals', (field_upd _values) by (destruct d; reflexivity).
      rewrite deref_alloc_new. reflexivity.
    + intros b Hb. rewrite Hplug in Hb.
      destruct (layout_range _ _ _ _ _ Hlay Hb) as [_ Hlt].
      rewrite Hvals', (field_upd _values) by (destruct d; reflexivity).
      rewrite deref_alloc by exact Hlt. reflexivity.
Qed.

Lemma add_empty n fuel key value s :
  search_tree n s = true -> _root s = None ->
  exists s', add fuel key value s = Ok tt s' /\
    search_tree (n + 2) s' = true /\
    (forall k, k ∈ keys_of (n + 2) s' <-> k = key) /\
    entries_of (n + 2) s' = [(key, [value])].
Proof.
  intros Hst Hroot.
  destruct (search_tree_elim _ _ Hst) as (Hheap & Hnil & _).
  set (x := length (heap s)).
  set (s' := with_root (Some x)
               (alloc (RBNode__init__ (Some key) value black None
                         (Some NIL_NODE) (Some NIL_NODE)) s)).
  exists s'. split.
  { unfold add, bind, validate_key, get_root. simpl. rewrite Hroot.
    reflexivity. }
  assert (Hx : deref s' x = RBNode__init__ (Some key) value black None
                              (Some NIL_NODE) (Some NIL_NODE)).
  { subst s' x. rewrite deref_with_root. apply deref_alloc_new. }
  destruct (search_tree_intro (n + 2) s' (CNode black CLeaf x key CLeaf) 1)
    as (Hst' & Hk' & He').
  - subst s'. rewrite length_with_root, length_alloc. lia.
  - unfold sentinel_ok in *. subst s'.
    rewrite deref_with_root, deref_alloc by assumption. exact Hnil.
  - change (_root s') with (Some x).
    eapply layout_node; rewrite ?Hx; try reflexivity; try discriminate.
    subst x. unfold NIL_NODE. lia.
  - discriminate.
  - simpl. lia.
  - simpl. repeat constructor.
  - simpl. auto.
  - reflexivity.
  - split; [exact Hst'|]. split.
    { intros k. rewrite Hk'. simpl.
      rewrite list_elem_of_singleton. reflexivity. }
    rewrite He'. simpl. rewrite Hx. reflexivity.
Qed.

Lemma search_key_in key (tr : @tree Z) a :
  search key tr = Some a -> key ∈ keys tr.
Proof.
  induction tr as [|l IHl b k r IHr]; simpl; [discriminate|].
  unfold __simple_key_equals.
  rewrite !elem_of_app, elem_of_cons.
  destruct (Z.eqb_spec key k) as [->|_]; [auto|].
  destruct (negb _); auto.
Qed.

Lemma add_present n fuel key value s tr a :
  search_tree n s = true -> tree_of n s = Some tr ->
  _root s <> None -> search key tr = Some a -> (n <= fuel)%nat ->
  exists s', add fuel key value s = Ok tt s' /\
    search_tree (n + 2) s' = true /\
    (forall k, k ∈ keys_of (n + 2) s' <-> k ∈ keys tr) /\
    entries_of (n + 2) s' = put key value (bindings s tr).
Proof.
  intros Hst Htr Hroot Hsearch Hfuel.
  destruct (search_tree_elim _ _ Hst) as
    (Hheap & Hnil & tr' & Htr' & [[Hroot' _]|Hrest]); [congruence|].
  rewrite Htr in Htr'. injection Htr' as <-.
  destruct Hrest as (h & Hne & _ & Hlay & Hdepth & Hsorted & Hrb & Hblack).
  destruct (add_present_run (H := default_functions) n fuel s tr key value a
              eq_refl Hroot Htr Hsearch Hfuel) as (Hrun & _ & _ & Hlen).
  exists (with_value s a value). split; [exact Hrun|].
  assert (Hsame : forall b,
    _key (deref (with_value s a value) b) = _key (deref s b) /\
    _color (deref (with_value s a value) b) = _color (deref s b) /\
    _parent (deref (with_value s a value) b) = _parent (deref s b) /\
    _left (deref (with_value s a value) b) = _left (deref s b) /\
    _right (deref (with_value s a value) b) = _right (deref s b)).
  { intros b. unfold with_value. rewrite deref_alter.
    destruct (decide _) as [[<- _]|]; auto 10. }
  destruct (search_tree_intro (n + 2) (with_value s a value)
              (colored s tr) h) as (Hst' & Hk' & He'); try assumption.
  - rewrite Hlen. assumption.
  - unfold sentinel_ok in *.
    destruct (Hsame NIL_NODE) as (-> & -> & _ & -> & ->). exact Hnil.
  - exact (layout_ext _ _ _ _ _ Hlay Hsame).
  - intros E. apply Hne. exact (colored_leaf _ _ E).
  - lia.
  - rewrite <- erase_keys, colored_erase. assumption.
  - split; [exact Hst'|]. split.
    { intros k. rewrite Hk', <- erase_keys, colored_erase. reflexivity. }
    rewrite He', colored_erase.
    assert (HsortedC : NoDup (ckeys (colored s tr))).
    { rewrite <- erase_keys, colored_erase. apply sorted_NoDup, Hsorted. }
    pose proof (layout_NoDup _ _ _ _ Hlay HsortedC) as Hnd.
    rewrite <- erase_refs, colored_erase in Hnd.
    apply bindings_with_value; try assumption.
    rewrite <- (colored_erase s tr) in Hsearch.
    apply (layout_range _ _ _ _ a Hlay).
    rewrite <- erase_refs, colored_erase.
    clear -Hsearch. rewrite colored_erase in Hsearch.
    induction tr as [|l IHl b k r IHr]; simpl in *; [discriminate|].
    rewrite elem_of_app, elem_of_cons.
    destruct (__simple_key_equals key k); [injection Hsearch as ->; auto|].
    destruct (negb _); auto.
Qed.

Lemma add_search_tree n fuel key value s :
  search_tree n s = true -> (n <= fuel)%nat ->
  exists s', add fuel key value s = Ok tt s' /\
    search_tree (n + 2) s' = true /\
    (forall k, k ∈ keys_of (n + 2) s' <-> k = key \/ k ∈ keys_of n s) /\
    entries_of (n + 2) s' = put key value (entries_of n s).
Proof.
  intros Hst Hfuel.
  destruct (search_tree_elim _ _ Hst) as (_ & _ & tr & Htr & Hcases).
  unfold keys_of at 2. unfold entries_of at 2. rewrite Htr.
  destruct Hcases as [[Hroot ->]|(h & _ & Hroot & _)].
  - destruct (add_empty n fuel key value s Hst Hroot)
      as (s' & ? & ? & Hk & He).
    exists s'. repeat split; try assumption; rewrite Hk.
    + auto.
    + simpl. rewrite elem_of_nil. tauto.
  - destruct (search key tr) as [a|] eqn:Hsearch.
    + destruct (add_present n fuel key value s tr a Hst Htr Hroot Hsearch
                  Hfuel) as (s' & ? & ? & Hk & He).
      exists s'. repeat split; try assumption; rewrite Hk; [auto|].
      intros [->|?]; [|assumption].
      exact (search_key_in _ _ _ Hsearch).
    + exact (add_absent n fuel key value s tr Hst Htr Hroot Hsearch Hfuel).
Qed.

End IntegerKeys.

Section Results.
Context {K V : Type} `{EqDecision K} `{EqDecision V} `{KeyFunctions K}.
Implicit Types (s : @state K V) (key : K) (value : option V).
Implicit Types (t l r : @ctree K) (ctx : list (@frame K)).



(** X18.  Looking for the place of a new key.  On a well-laid-out tree
    that does not hold [key], [find_node(key, to_nil=True)] returns,
    without writing, the node under which the key belongs and the
    side: that node's child on that side is the sentinel, the side is
    LEFT exactly when the comparator puts [key] below the node's key,
    and the node is the last one of the search path [slot] computes. *)
Theorem find_node_to_nil_finds_the_slot fuel key s t ctx' :
  sentinel_ok s = true ->
  layout s None (_root s) t -> t <> CLeaf ->
  slot key t [] = Some ctx' -> (depth t <= S fuel)%nat ->
  exists d c a k sib ctx'',
    ctx' = (d, c, a, k, sib) :: ctx'' /\
    find_node fuel key true s = Ok (FTuple (Some a) (Some d)) s /\
    child s d a = Some NIL_NODE /\
    _key (deref s a) = Some k /\
    _key_comparator_function key k = bool_decide (d = LEFT).
Proof.
  intros Hnil Hlay Hne Hslot Hdepth.
  destruct (inner_find_slot key (_root s) t fuel s [] (_root s) None ctx'
              Hnil Hlay) as
    (d & c & a & k & sib & ctx'' & -> & Hfind & Hpath & Hd);
    [split; reflexivity|assumption|assumption|assumption|].
  exists d, c, a, k, sib, ctx''.
  simpl in Hpath. destruct Hpath as (_ & _ & _ & _ & Hk & Hch & _).
  repeat split; try assumption.
  destruct (layout_some _ _ _ _ Hlay) as [a0 Ha0].
  unfold find_node, bind, get_root. rewrite Ha0, <- Ha0. exact Hfind.
Qed.

End Results.

Section IntegerResults.
Context {V : Type} `{EqDecision V}.
Implicit Types (s : @state Z V) (key : Z) (value : option V).

(** X19.  With the default functions on integer keys, [add] keeps a
    red-black search tree: from a store that passes [search_tree],
    [add(key, value)] returns and the new store passes it again (two
    more levels allowed); the keys of the new tree are those of the
    old one and [key]. *)
Theorem add_keeps_search_tree n fuel key value s :
  search_tree n s = true -> (n <= fuel)%nat ->
  exists s', add fuel key value s = Ok tt s' /\
    search_tree (n + 2) s' = true /\
    forall k, k ∈ keys_of (n + 2) s' <-> k = key \/ k ∈ keys_of n s.
Proof.
  intros Hst Hfuel.
  destruct (add_search_tree n fuel key value s Hst Hfuel)
    as (s' & Hrun & Hst' & Hk & _).
  exists s'. auto.
Qed.

(** X21.  [add] acts on the tree as on a sorted multimap: read in
    order, the entries (each key with the values of its node) after
    [add(key, value)] are those before with the value put at the end
    of the key's values, or with the new key at its place in the order
    and the value as its only one.  No other key or value is touched. *)
Theorem add_puts_the_value n fuel key value s :
  search_tree n s = true -> (n <= fuel)%nat ->
  exists s', add fuel key value s = Ok tt s' /\
    entries_of (n + 2) s' = put key value (entries_of n s).
Proof.
  intros Hst Hfuel.
  destruct (add_search_tree n fuel key value s Hst Hfuel)
    as (s' & Hrun & _ & _ & He).
  exists s'. auto.
Qed.

Lemma adds_search_tree : forall (kvs : list (Z * option V)) n fuel s,
  search_tree n s = true -> (n + 2 * length kvs <= fuel)%nat ->
  exists s',
    perform_all fuel (map (fun kv => Add kv.1 kv.2) kvs) s = Ok tt s' /\
    search_tree (n + 2 * length kvs) s' = true /\
    (forall k, k ∈ keys_of (n + 2 * length kvs) s' <->
               k ∈ map fst kvs \/ k ∈ keys_of n s) /\
    entries_of (n + 2 * length kvs) s'
      = foldl (fun es kv => put kv.1 kv.2 es) (entries_of n s) kvs.
Proof.
  induction kvs as [|[key value] kvs IH]; intros n fuel s Hst Hfuel.
  - exists s. simpl. rewrite Nat.add_0_r.
    repeat split; [assumption|auto|].
    intros [Hk|Hk]; [apply elem_of_nil in Hk; contradiction|assumption].
  - simpl length in *.
    destruct (add_search_tree n fuel key value s Hst)
      as (s1 & Hrun1 & Hst1 & Hk1 & He1); [lia|].
    destruct (IH (n + 2)%nat fuel s1 Hst1) as (s' & Hrun & Hst' & Hk' & He');
      [lia|].
    replace (n + 2 * S (length kvs))%nat with (n + 2 + 2 * length kvs)%nat
      by lia.
    exists s'. split.
    { cbn [map perform_all perform]. unfold bind. simpl fst. simpl snd.
      rewrite Hrun1. exact Hrun. }
    split; [exact Hst'|]. split.
    { intros k. rewrite Hk', Hk1. simpl. rewrite elem_of_cons. tauto. }
    rewrite He', He1. reflexivity.
Qed.

(** X22.  A tree built by insertions is the sorted multimap of what
    was inserted: after [add(k1, v1)], ..., [add(kn, vn)] on a new
    tree, the entries in order are those obtained by putting the pairs
    one after the other into the empty list, so that every key lists
    its values in the order of their insertion. *)
Theorem insertions_build_the_multimap (kvs : list (Z * option V)) fuel :
  (2 * length kvs <= fuel)%nat ->
  exists s',
    perform_all fuel (map (fun kv => Add kv.1 kv.2) kvs) RedBlackTree__init__
      = Ok tt s' /\
    entries_of (2 * length kvs) s'
      = foldl (fun es kv => put kv.1 kv.2 es) [] kvs.
Proof.
  intros Hfuel.
  destruct (adds_search_tree kvs 0 fuel RedBlackTree__init__ eq_refl Hfuel)
    as (s' & Hrun & _ & _ & He).
  exists s'. split; [exact Hrun|exact He].
Qed.

End IntegerResults.

(** X20.  From the empty tree, any sequence of insertions succeeds and
    leaves a red-black search tree that holds exactly the keys
    inserted: search order, black root, no RED node with a RED child,
    equal black counts on all paths. *)
Theorem insertions_build_a_search_tree (ks : list Z) fuel :
  (2 * length ks <= fuel)%nat ->
  exists s',
    perform_all fuel (map insert ks) empty_tree = Ok tt s' /\
    search_tree (2 * length ks) s' = true /\
    forall k, k ∈ keys_of (2 * length ks) s' <-> k ∈ ks.
Proof.
  intros Hfuel.
  destruct (adds_search_tree (map (fun k => (k, Some k)) ks) 0 fuel
              empty_tree eq_refl) as (s' & Hrun & Hst & Hk & _).
  { rewrite length_map. lia. }
  rewrite length_map in Hst, Hk. simpl in Hst, Hk.
  exists s'. split.
  { rewrite <- Hrun. f_equal. rewrite map_map. reflexivity. }
  split; [exact Hst|].
  intros k. rewrite Hk, map_map. simpl. rewrite map_id.
  unfold keys_of. simpl. rewrite elem_of_nil. tauto.
Qed.

(** ** The further properties at concrete inputs *)

Lemma contains_iff_present_witness :
  exists (s : @state Z Z) t,
    perform_all 20 (map insert (ascending 4)) empty_tree = Ok tt s /\
    tree_of 5 s = Some t /\
    contains 20 3 s = Ok (present 3 t) s.
Proof.
  do 2 eexists. split; [evaluate|]. split; [evaluate|].
  apply (contains_iff_present 5 20);
    [exact default_equals_respects_order | vm_compute; discriminate
    | evaluate | evaluate | lia].
Defined.

Lemma find_node_returns_a_match_witness :
  exists s : @state Z Z,
    perform_all 20 (map insert (ascending 4)) empty_tree = Ok tt s /\
    find_node 20 3 false s = Ok (FTuple (Some 3%nat) None) s /\
    None = (None : option RBDirectionEnum) /\
    exists k, _key (deref s 3%nat) = Some k /\
              _key_equals_function 3 k = true.
Proof.
  eexists. split; [evaluate|]. split; [evaluate|].
  eapply (find_node_returns_a_match 20 3). evaluate.
Defined.


Lemma empty_tree_operations_witness :
  contains 20 1 empty_tree = Raise TypeError empty_tree /\
  __getitem__ 20 1 empty_tree = Raise TypeError empty_tree /\
  remove_key 21 1 empty_tree = Raise AttributeError empty_tree /\
  remove_value 21 1 (Some 1) empty_tree = Raise AttributeError empty_tree /\
  update_key 21 1 (Some 1) 2 empty_tree = Raise AttributeError empty_tree /\
  RedBlackTree__iter__ 20 5 empty_tree = Ok [] empty_tree.
Proof.
  apply (empty_tree_operations 20 5 1 (Some 1) 2 empty_tree); reflexivity.
Defined.

Lemma update_key_absent_raises_witness :
  exists s : @state Z Z,
    perform_all 20 (map insert (ascending 4)) empty_tree = Ok tt s /\
    update_key 20 7 (Some 7) 8 s = Raise AttributeError s.
Proof.
  eexists. split; [evaluate|].
  eapply (update_key_absent_raises 5 20);
    [vm_compute; discriminate | evaluate | evaluate | lia].
Defined.

Lemma delitem_absent_witness :
  exists s : @state Z Z,
    perform_all 20 (map insert (ascending 4)) empty_tree = Ok tt s /\
    __delitem__ 20 7 s =
      if _key_validator_function 7 then Ok tt s
      else Raise (Exception (CouldNotValidateKey 7)) s.
Proof.
  eexists. split; [evaluate|].
  eapply (delitem_absent 5 20);
    [vm_compute; discriminate | evaluate | evaluate | lia].
Defined.

Lemma in_order_of_tree_witness :
  exists (s : @state Z Z) t,
    perform_all 20 (map insert (ascending 4)) empty_tree = Ok tt s /\
    tree_of 5 s = Some t /\
    in_order 20 (_root s) s = Ok (rows s t) s /\
    length (rows s t) = (2 * size t + 1)%nat /\
    omap (fun r : row => fst (fst (fst r))) (rows s t) = keys t.
Proof.
  do 2 eexists. split; [evaluate|]. split; [evaluate|].
  apply (in_order_of_tree 5 20);
    [vm_compute; discriminate | evaluate | lia].
Defined.

Lemma iteration_of_tree_witness :
  exists (s : @state Z Z) t,
    perform_all 20 (map insert (ascending 4)) empty_tree = Ok tt s /\
    tree_of 5 s = Some t /\
    RedBlackTree__iter__ 20 3 s
      = Ok (take 3 (map (repr_of s) (refs t))) s /\
    map (fun a => snd (fst (repr_of s a))) (refs t) = map Some (keys t) /\
    Forall (fun a => fst (fst (repr_of s a)) <> NIL) (refs t).
Proof.
  do 2 eexists. split; [evaluate|]. split; [evaluate|].
  apply (iteration_of_tree 5 20 3);
    [vm_compute; discriminate | evaluate | lia].
Defined.

Lemma is_set_correctly_never_passes_witness :
  is_set_correctly 20 (Some NIL_NODE) empty_tree
    = Ok (Tuple1 true) empty_tree /\
  (Tuple1 true = Tuple2 false 0 \/ Tuple1 true = Tuple2 false (-1) \/
   exists b, Tuple1 true = Tuple1 b).
Proof.
  split; [reflexivity|].
  apply (is_set_correctly_never_passes 20 empty_tree NIL_NODE
           (Tuple1 true) empty_tree).
  reflexivity.
Defined.

Lemma is_set_correctly_rejects_valid_trees_witness :
  exists s : @state Z Z,
    perform_all 20 (map insert (ascending 4)) empty_tree = Ok tt s /\
    is_set_correctly 20 (_root s) s = Raise ValueError s.
Proof.
  eexists. split; [evaluate|].
  eapply (is_set_correctly_rejects_valid_trees 5 20);
    [vm_compute; discriminate | vm_compute; discriminate
    | evaluate | evaluate | evaluate | lia].
Defined.

Lemma extreme_nodes_witness :
  exists (s : @state Z Z) t,
    perform_all 20 (map insert (ascending 4)) empty_tree = Ok tt s /\
    to_tree 5 s (Some 2%nat) = Some t /\
    get_minimum_node 20 (Some 2%nat) s = Ok (head (refs t)) s /\
    get_maximum_node 20 (Some 2%nat) s = Ok (last (refs t)) s.
Proof.
  do 2 eexists. split; [evaluate|]. split; [evaluate|].
  apply (extreme_nodes 5 20);
    [evaluate | evaluate | discriminate | lia].
Defined.

Lemma iteration_is_sorted_witness :
  exists s : @state Z Z,
    perform_all 20 (map insert (ascending 4)) empty_tree = Ok tt s /\
    exists t, tree_of 5 s = Some t /\
    exists items,
      RedBlackTree__iter__ 20 3 s = Ok items s /\
      length items = Nat.min 3 (size t) /\
      map (fun i => snd (fst i)) items = map Some (take 3 (keys t)) /\
      StronglySorted Z.le (take 3 (keys t)).
Proof.
  eexists. split; [evaluate|]. eexists. split; [evaluate|].
  apply (iteration_is_sorted 5 20 3);
    [vm_compute; discriminate | evaluate | evaluate | lia].
Defined.

Lemma extreme_keys_witness :
  exists s : @state Z Z,
    perform_all 20 (map insert (ascending 4)) empty_tree = Ok tt s /\
    exists t, to_tree 5 s (Some 2%nat) = Some t /\
    exists lo hi klo khi,
      get_minimum_node 20 (Some 2%nat) s = Ok (Some lo) s /\
      get_maximum_node 20 (Some 2%nat) s = Ok (Some hi) s /\
      lo ∈ refs t /\ hi ∈ refs t /\
      _key (deref s lo) = Some klo /\ _key (deref s hi) = Some khi /\
      klo ∈ keys t /\ khi ∈ keys t /\
      Forall (fun k => klo <= k <= khi) (keys t).
Proof.
  eexists. split; [evaluate|]. eexists. split; [evaluate|].
  apply (extreme_keys 5 20);
    [evaluate | evaluate | discriminate | evaluate | lia].
Defined.



Lemma find_node_to_nil_finds_the_slot_witness :
  exists s : @state Z Z,
    perform_all 20 (map insert (ascending 4)) empty_tree = Ok tt s /\
    exists d c a k sib ctx'',
      [(RIGHT, RED, 4%nat, 4, CLeaf);
       (RIGHT, black, 3%nat, 3, CLeaf);
       (RIGHT, black, 2%nat, 2, CNode black CLeaf 1%nat 1 CLeaf)]
        = (d, c, a, k, sib) :: ctx'' /\
      find_node 20 7 true s = Ok (FTuple (Some a) (Some d)) s /\
      child s d a = Some NIL_NODE /\
      _key (deref s a) = Some k /\
      _key_comparator_function 7 k = bool_decide (d = LEFT).
Proof.
  eexists. split; [evaluate|].
  apply (find_node_to_nil_finds_the_slot 20 7 _
           (CNode black (CNode black CLeaf 1%nat 1 CLeaf) 2%nat 2
              (CNode black CLeaf 3%nat 3 (CNode RED CLeaf 4%nat 4 CLeaf)))).
  - evaluate.
  - vm_compute. repeat split; try reflexivity; discriminate.
  - discriminate.
  - evaluate.
  - simpl. lia.
Defined.

Lemma add_keeps_search_tree_witness :
  exists s : @state Z Z,
    perform_all 20 (map insert (ascending 4)) empty_tree = Ok tt s /\
    search_tree 5 s = true /\
    exists s', add 20 7 (Some 7) s = Ok tt s' /\
      search_tree (5 + 2) s' = true /\
      forall k, k ∈ keys_of (5 + 2) s' <-> k = 7 \/ k ∈ keys_of 5 s.
Proof.
  eexists. split; [evaluate|]. split; [evaluate|].
  apply (add_keeps_search_tree 5 20 7 (Some 7)); [evaluate|lia].
Defined.

Lemma insertions_build_a_search_tree_witness :
  (2 * length [3; 1; 2] <= 6)%nat /\
  exists s',
    perform_all 6 (map insert [3; 1; 2]) empty_tree = Ok tt s' /\
    search_tree (2 * length [3; 1; 2]) s' = true /\
    forall k, k ∈ keys_of (2 * length [3; 1; 2]) s' <-> k ∈ [3; 1; 2].
Proof.
  split; [simpl; lia|].
  apply (insertions_build_a_search_tree [3; 1; 2] 6). simpl. lia.
Defined.

Lemma add_puts_the_value_witness :
  exists s : @state Z Z,
    perform_all 20 (map insert (ascending 4)) empty_tree = Ok tt s /\
    search_tree 5 s = true /\
    exists s', add 20 3 (Some 30) s = Ok tt s' /\
      entries_of (5 + 2) s' = put 3 (Some 30) (entries_of 5 s).
Proof.
  eexists. split; [evaluate|]. split; [evaluate|].
  apply (add_puts_the_value 5 20 3 (Some 30)); [evaluate|lia].
Defined.

Lemma insertions_build_the_multimap_witness :
  (2 * length [(3, Some 1); (1, Some 2); (3, Some 3)] <= 6)%nat /\
  exists s' : @state Z Z,
    perform_all 6
      (map (fun kv => Add kv.1 kv.2) [(3, Some 1); (1, Some 2); (3, Some 3)])
      RedBlackTree__init__ = Ok tt s' /\
    entries_of (2 * length [(3, Some 1); (1, Some 2); (3, Some 3)]) s'
      = foldl (fun es kv => put kv.1 kv.2 es) []
          [(3, Some 1); (1, Some 2); (3, Some 3)].
Proof.
  split; [simpl; lia|].
  apply (insertions_build_the_multimap
           [(3, Some 1); (1, Some 2); (3, Some 3)] 6).
  simpl. lia.
Defined.
